(** * turtle-lsp: workspace index, navigation, completion ranking,
      vocabulary cache and lint diagnostics

    A shallow embedding of the TypeScript sources
    [src/indexer.ts], [src/navigation.ts], [src/util.ts],
    [src/completion.ts] and [src/server.ts].

    Conventions of the embedding.
    - A JS string is a [string]; one [ascii] stands for one code unit, so
      the model covers texts whose code units are below 256.
    - The three index objects, [docCache] and the [changes] object of a
      rename are dictionaries whose key order nothing reads back except
      [collectGlobalSubjects]: they are [gmap string T], and a lookup is
      an own-property lookup.  A JS object or [Map] whose entries are
      iterated is an association list in insertion order ([JsObject],
      [JsMap]).
    - JS numbers that hold positions are [Z].
    - Collaborators that are not part of the repository (the N3 parser, the
      text-document object of the protocol library, the vocabulary and
      language-utilities packages, the file system, [localeCompare]) are
      type classes; a section takes the ones it uses as context. *)

From Stdlib Require Import ZArith Lia.
From Stdlib Require Import Ascii.
From Stdlib Require String.
From Stdlib Require Import Sorting.Sorted.
From Stdlib Require Import Structures.OrdersEx.
From stdpp Require Import base option list gmap strings.

Local Open Scope Z_scope.

(** ** Positions, ranges, locations (vscode-languageserver types) *)

Record Position := mkPosition { line : Z; character : Z }.
Record Range := mkRange { range_start : Position; range_end : Position }.
Record Location := mkLocation { uri : string; range : Range }.

Global Instance Position_eq_dec : EqDecision Position.
Proof. solve_decision. Defined.
Global Instance Range_eq_dec : EqDecision Range.
Proof. solve_decision. Defined.
Global Instance Location_eq_dec : EqDecision Location.
Proof. solve_decision. Defined.

(** The range literal every extractor builds:
    [{ start: { line, character: start }, end: { line, character: end } }]. *)
Definition lineRange (ln start stop : Z) : Range :=
  mkRange (mkPosition ln start) (mkPosition ln stop).

(** [{ label, range }], the element type of [DocCache.subjects] and
    [DocCache.symbols]; [DocCache.prefixes] holds the same shape with the
    field called [prefix]. *)
Record Entry := mkEntry { label : string; erange : Range }.

Global Instance Entry_eq_dec : EqDecision Entry.
Proof. solve_decision. Defined.

(** Element of the array returned by [collectNamespaceEntries]. *)
Record NamespaceEntry := mkNamespaceEntry
  { prefix : string; iri : string; nrange : Range }.


(** ** Code units and character classes used by the regular expressions *)

Module Chars.

Definition code (c : ascii) : nat := nat_of_ascii c.

Definition between (lo hi : nat) (c : ascii) : bool :=
  (lo <=? code c)%nat && (code c <=? hi)%nat.

Definition isCode (n : nat) (c : ascii) : bool := (code c =? n)%nat.

(** [[A-Za-z]] *)
Definition isAlpha (c : ascii) : bool := between 65 90 c || between 97 122 c.
(** [[0-9]] *)
Definition isDigit (c : ascii) : bool := between 48 57 c.
(** [\w] is [[A-Za-z0-9_]] *)
Definition isWord (c : ascii) : bool := isAlpha c || isDigit c || isCode 95 c.
(** [[\w-]], also written [[A-Za-z0-9_\-]] *)
Definition isWordDash (c : ascii) : bool := isWord c || isCode 45 c.
(** [\s] restricted to code units below 256: tab, line feed, vertical
    tab, form feed, carriage return, space, no-break space. *)
Definition isSpace (c : ascii) : bool :=
  between 9 13 c || isCode 32 c || isCode 160 c.
(** Line terminators, the code units that [.] does not match. *)
Definition isLineTerminator (c : ascii) : bool := isCode 10 c || isCode 13 c.

Definition colon : ascii := ascii_of_nat 58.
Definition LF : ascii := ascii_of_nat 10.
Definition CR : ascii := ascii_of_nat 13.
Definition dquote : ascii := ascii_of_nat 34.
Definition squote : ascii := ascii_of_nat 39.
Definition backslash : ascii := ascii_of_nat 92.

End Chars.

(** ** String helpers (the JS string methods the sources call) *)

Module Str.

Definition len (s : string) : Z := Z.of_nat (String.length s).

(** [s.split(/\r?\n/)]: a line feed, or a carriage return directly
    followed by one, ends a line; a lone carriage return stays in it. *)
Fixpoint splitLines (s : string) : list string :=
  match s with
  | EmptyString => [EmptyString]
  | String c s' =>
      let push :=
        match splitLines s' with
        | l :: ls => String c l :: ls
        | [] => [String c EmptyString]
        end in
      if Chars.isCode 10 c then EmptyString :: splitLines s'
      else if Chars.isCode 13 c then
        match s' with
        | String c' s'' =>
            if Chars.isCode 10 c' then EmptyString :: splitLines s'' else push
        | EmptyString => push
        end
      else push
  end.

(** Longest prefix of [s] whose code units all satisfy [p], and the rest. *)
Fixpoint span (p : ascii -> bool) (s : string) : string * string :=
  match s with
  | EmptyString => (EmptyString, EmptyString)
  | String c s' =>
      if p c then let '(a, b) := span p s' in (String c a, b)
      else (EmptyString, s)
  end.

(** [s.trimStart()], [s.trimEnd()], [s.trim()] *)
Fixpoint trimStart (s : string) : string :=
  match s with
  | EmptyString => EmptyString
  | String c s' => if Chars.isSpace c then trimStart s' else s
  end.

Fixpoint trimEnd (s : string) : string :=
  match s with
  | EmptyString => EmptyString
  | String c s' =>
      match trimEnd s' with
      | EmptyString => if Chars.isSpace c then EmptyString else String c EmptyString
      | t => String c t
      end
  end.

Definition trim (s : string) : string := trimEnd (trimStart s).

(** [s.startsWith(p)] *)
Definition startsWith (p s : string) : bool := String.prefix p s.

Fixpoint indexOfFrom (needle : string) (pos : Z) (s : string) : Z :=
  if String.prefix needle s then pos
  else match s with
       | EmptyString => -1
       | String _ s' => indexOfFrom needle (pos + 1) s'
       end.

(** [s.indexOf(needle)] *)
Definition indexOf (needle s : string) : Z := indexOfFrom needle 0 s.

(** [!s] for a string: the empty string is falsy. *)
Definition isEmpty (s : string) : bool :=
  match s with EmptyString => true | _ => false end.

Fixpoint all (p : ascii -> bool) (s : string) : bool :=
  match s with
  | EmptyString => true
  | String c s' => p c && all p s'
  end.

Fixpoint any (p : ascii -> bool) (s : string) : bool :=
  match s with
  | EmptyString => false
  | String c s' => p c || any p s'
  end.

(** [s.toLowerCase()] on code units below 256: the letters A to Z and the
    capital letters of Latin-1 (192 to 222 without the multiplication sign). *)
Definition lowerChar (c : ascii) : ascii :=
  if Chars.between 65 90 c
     || (Chars.between 192 222 c && negb (Chars.isCode 215 c))
  then ascii_of_nat (Chars.code c + 32) else c.

Fixpoint toLowerCase (s : string) : string :=
  match s with
  | EmptyString => EmptyString
  | String c s' => String (lowerChar c) (toLowerCase s')
  end.

Fixpoint drop (n : nat) (s : string) : string :=
  match n, s with
  | O, _ => s
  | S n', String _ s' => drop n' s'
  | S _, EmptyString => EmptyString
  end.

Fixpoint take (n : nat) (s : string) : string :=
  match n, s with
  | O, _ => EmptyString
  | S n', String c s' => String c (take n' s')
  | S _, EmptyString => EmptyString
  end.

Fixpoint revOnto (acc s : string) : string :=
  match s with
  | EmptyString => acc
  | String c s' => revOnto (String c acc) s'
  end.

Definition rev (s : string) : string := revOnto EmptyString s.

(** [s.substring(a, b)] for [0 <= a], [0 <= b]; the library swaps the
    arguments when [a > b] and clamps them to the length. *)
Definition substring (a b : Z) (s : string) : string :=
  let lo := Z.max 0 (Z.min a b) in
  let hi := Z.max 0 (Z.max a b) in
  take (Z.to_nat (hi - lo)) (drop (Z.to_nat lo) s).

(** [s.slice(a, b)]: a negative index counts from the end, both are
    clamped to the length, and the result is empty unless [a < b]. *)
Definition slice (a b : Z) (s : string) : string :=
  let n := Z.of_nat (String.length s) in
  let from := if a <? 0 then Z.max (n + a) 0 else Z.min a n in
  let to := if b <? 0 then Z.max (n + b) 0 else Z.min b n in
  take (Z.to_nat (to - from)) (drop (Z.to_nat from) s).

(** [s.includes(needle)] *)
Definition includes (needle s : string) : bool := 0 <=? indexOf needle s.

(** [parts.join(sep)] *)
Fixpoint join (sep : string) (parts : list string) : string :=
  match parts with
  | [] => EmptyString
  | [x] => x
  | x :: rest => x +:+ sep +:+ join sep rest
  end.

(** [s.endsWith(p)] *)
Definition endsWith (p s : string) : bool := String.prefix (rev p) (rev s).

(** The last code unit of a string. *)
Fixpoint lastOf (s : string) : option ascii :=
  match s with
  | EmptyString => None
  | String c s' => match lastOf s' with None => Some c | o => o end
  end.


(** [lines.forEach((line, idx) => ...)], collecting what each line pushes. *)
Fixpoint forEachLine {A} (f : Z -> string -> list A) (idx : Z)
    (lines : list string) : list A :=
  match lines with
  | [] => []
  | ln :: rest => f idx ln ++ forEachLine f (idx + 1) rest
  end.

End Str.


(** ** JS objects with string values, in property order

    [Object.entries] lists the properties in the order of their first
    assignment; assigning an existing property keeps its place. *)

Module JsObject.

Definition t := list (string * string).

Fixpoint set (k v : string) (o : t) : t :=
  match o with
  | [] => [(k, v)]
  | (k', v') :: o' =>
      if decide (k = k') then (k, v) :: o' else (k', v') :: set k v o'
  end.

Fixpoint get (k : string) (o : t) : option string :=
  match o with
  | [] => None
  | (k', v') :: o' => if decide (k = k') then Some v' else get k o'
  end.

(** [o[k]] used as a condition: present and not the empty string. *)
Definition truthy (k : string) (o : t) : bool :=
  match get k o with
  | Some v => negb (Str.isEmpty v)
  | None => false
  end.

End JsObject.

(** ** JS [Map] with string keys, in insertion order *)

Module JsMap.

Definition t (V : Type) := list (string * V).

Fixpoint set {V} (k : string) (v : V) (m : t V) : t V :=
  match m with
  | [] => [(k, v)]
  | (k', v') :: m' =>
      if decide (k = k') then (k, v) :: m' else (k', v') :: set k v m'
  end.

Fixpoint get {V} (k : string) (m : t V) : option V :=
  match m with
  | [] => None
  | (k', v') :: m' => if decide (k = k') then Some v' else get k m'
  end.

Definition has {V} (k : string) (m : t V) : bool :=
  match get k m with Some _ => true | None => false end.

Definition delete {V} (k : string) (m : t V) : t V :=
  filter (fun kv => fst kv ≠ k) (m : list (string * V)).

Definition values {V} (m : t V) : list V := snd <$> m.

End JsMap.

(** The contribution record of one document. *)
Record DocCache := mkDocCache
  { prefixes : list Entry;
    subjects : list Entry;
    symbols : list Entry;
    map : JsObject.t }.

(** ** Global regular-expression scans

    [matchAt s] answers whether the pattern matches at the head of [s] and
    with which text.  A global scan ([matchAll], [replace] with the [g]
    flag) tries every position from left to right and resumes after the end
    of a match; [skip] counts the code units of the current match that are
    still to be passed over.  Every pattern of the sources consumes at
    least one code unit. *)

Module Regex.

Fixpoint scanAll (matchAt : string -> option string)
    (skip : nat) (pos : Z) (s : string) : list (Z * string) :=
  match s with
  | EmptyString => []
  | String _ s' =>
      match skip with
      | S k => scanAll matchAt k (pos + 1) s'
      | O =>
          match matchAt s with
          | Some m => (pos, m) :: scanAll matchAt (String.length m - 1) (pos + 1) s'
          | None => scanAll matchAt 0 (pos + 1) s'
          end
      end
  end.

(** [[...s.matchAll(re)]] as the list of (index, matched text). *)
Definition matchAll (matchAt : string -> option string) (s : string)
  : list (Z * string) := scanAll matchAt 0 0 s.

Fixpoint eraseAll (matchAt : string -> option string)
    (skip : nat) (s : string) : string :=
  match s with
  | EmptyString => EmptyString
  | String c s' =>
      match skip with
      | S k => eraseAll matchAt k s'
      | O =>
          match matchAt s with
          | Some m => eraseAll matchAt (String.length m - 1) s'
          | None => String c (eraseAll matchAt 0 s')
          end
      end
  end.

(** [s.replace(re, empty)] for a global [re]. *)
Definition replaceAllEmpty (matchAt : string -> option string) (s : string)
  : string := eraseAll matchAt 0 s.

(** [/([A-Za-z][\w-]*:[\w-]+)/] at the head of [s].  The greedy run
    [[\w-]*] cannot give back a code unit to match [:], so the match is
    decided by the longest run. *)
Definition symbolAt (s : string) : option string :=
  match s with
  | String c s1 =>
      if Chars.isAlpha c then
        let '(run, s2) := Str.span Chars.isWordDash s1 in
        match s2 with
        | String c2 s3 =>
            if Chars.isCode 58 c2 then
              match Str.span Chars.isWordDash s3 with
              | (EmptyString, _) => None
              | (loc, _) => Some (String c (run +:+ String c2 loc))
              end
            else None
        | EmptyString => None
        end
      else None
  | EmptyString => None
  end.

(** The pattern [^([<A-Za-z][^\s>]{0,})] on a trimmed line: a letter or
    [<], then the longest run without white space and without [>]. *)
Definition subjectAt (s : string) : option string :=
  match s with
  | String c s1 =>
      if Chars.isAlpha c || Chars.isCode 60 c then
        Some (String c (fst (Str.span
          (fun x => negb (Chars.isSpace x) && negb (Chars.isCode 62 x)) s1)))
      else None
  | EmptyString => None
  end.

(** The pattern [^@?prefix\s+([A-Za-z][\w-]{0,}):\s{0,}<([^>]+)>] with the
    [i] flag, on a trimmed line; the result is the pair of the two groups. *)
Definition prefixDeclAt (s : string) : option (string * string) :=
  let s0 := match s with
            | String c s' => if Chars.isCode 64 c then s' else s
            | EmptyString => s
            end in
  if negb (String.prefix "prefix" (Str.toLowerCase s0)) then None else
  let '(ws, s1) := Str.span Chars.isSpace (Str.drop 6 s0) in
  if Str.isEmpty ws then None else
  match s1 with
  | String c s2 =>
      if negb (Chars.isAlpha c) then None else
      let '(run, s3) := Str.span Chars.isWordDash s2 in
      match s3 with
      | String c3 s4 =>
          if negb (Chars.isCode 58 c3) then None else
          match snd (Str.span Chars.isSpace s4) with
          | String c5 s6 =>
              if negb (Chars.isCode 60 c5) then None else
              let '(body, s7) := Str.span (fun x => negb (Chars.isCode 62 x)) s6 in
              match body, s7 with
              | String _ _, String _ _ => Some (String c run, body)
              | _, _ => None
              end
          | EmptyString => None
          end
      | EmptyString => None
      end
  | EmptyString => None
  end.

(** The short string alternative, quote [(?:[^quote\\]|\\.){0,}] quote:
    its body and closing quote after the opening quote, [q] being the code
    of the quote.  A unit is one code unit other than the quote and the
    backslash, or a backslash and one code unit that is not a line
    terminator; units are unambiguous, so the greedy loop ends at the
    first quote that no backslash escapes. *)
Fixpoint shortBody (q : nat) (s : string) : option string :=
  match s with
  | EmptyString => None
  | String c s1 =>
      if Chars.isCode 92 c then
        match s1 with
        | String c2 s2 =>
            if Chars.isLineTerminator c2 then None
            else (fun r => String c (String c2 r)) <$> shortBody q s2
        | EmptyString => None
        end
      else if Chars.isCode q c then Some (String c EmptyString)
      else String c <$> shortBody q s1
  end.

Definition triple (q : nat) : string :=
  let c := ascii_of_nat q in String c (String c (String c EmptyString)).

(** The body and closing quotes of the lazy triple-quoted alternative
    after the opening quotes: stop at the first three quotes in a row. *)
Fixpoint longBody (q : nat) (s : string) : option string :=
  match s with
  | EmptyString => None
  | String c s1 =>
      if String.prefix (triple q) s then Some (triple q)
      else if Chars.isCode 92 c then
        match s1 with
        | String c2 s2 =>
            if Chars.isLineTerminator c2 then None
            else (fun r => String c (String c2 r)) <$> longBody q s2
        | EmptyString => None
        end
      else if Chars.isCode q c then None
      else String c <$> longBody q s1
  end.

Definition longAt (q : nat) (s : string) : option string :=
  if String.prefix (triple q) s
  then String.append (triple q) <$> longBody q (Str.drop 3 s)
  else None.

Definition shortAt (q : nat) (s : string) : option string :=
  match s with
  | String c s1 => if Chars.isCode q c then String c <$> shortBody q s1 else None
  | EmptyString => None
  end.

Definition orElse {A} (a b : option A) : option A :=
  match a with Some _ => a | None => b end.

(** The string pattern of [basicDiagnostics]: triple double quotes, triple
    single quotes, double quotes, single quotes, tried in this order. *)
Definition stringAt (s : string) : option string :=
  orElse (longAt 34 s) (orElse (longAt 39 s) (orElse (shortAt 34 s) (shortAt 39 s))).

(** [/<[^>]*>/] *)
Definition iriAt (s : string) : option string :=
  match s with
  | String c s1 =>
      if Chars.isCode 60 c then
        match Str.span (fun x => negb (Chars.isCode 62 x)) s1 with
        | (body, String c2 _) => Some (String c (body +:+ String c2 EmptyString))
        | (_, EmptyString) => None
        end
      else None
  | EmptyString => None
  end.

(** [s.replace(/#.*$/, empty)]: the first [#] with no line terminator after
    it starts the match, which runs to the end of the string. *)
Fixpoint stripComment (s : string) : string :=
  match s with
  | EmptyString => EmptyString
  | String c s' =>
      if Chars.isCode 35 c && Str.all (fun x => negb (Chars.isLineTerminator x)) s'
      then EmptyString
      else String c (stripComment s')
  end.

(** The pattern [([A-Za-z0-9_\-]{0,}):([A-Za-z0-9_\-]{0,})] at the head
    of [s]: the whole match. *)
Definition useAt (s : string) : option string :=
  let '(pref, s1) := Str.span Chars.isWordDash s in
  match s1 with
  | String c s2 =>
      if Chars.isCode 58 c
      then Some (pref +:+ String c (fst (Str.span Chars.isWordDash s2)))
      else None
  | EmptyString => None
  end.

(** Groups 1 and 2 of a match of the pattern above. *)
Definition useGroups (m : string) : string * string :=
  let '(pref, s1) := Str.span Chars.isWordDash m in
  (pref, Str.drop 1 s1).

(** The test of [[.;,\]\)]\s{0,}$]: one of the five code units, then
    only white space up to the end. *)
Definition isTerminator (c : ascii) : bool :=
  Chars.isCode 46 c || Chars.isCode 59 c || Chars.isCode 44 c
  || Chars.isCode 93 c || Chars.isCode 41 c.

Fixpoint endsWithTerminator (s : string) : bool :=
  match s with
  | EmptyString => false
  | String c s' =>
      (isTerminator c && Str.all Chars.isSpace s') || endsWithTerminator s'
  end.

End Regex.

(** ** The workspace index ([src/indexer.ts]) *)

(** The two extractors that call the N3 parser, which is not part of the
    repository, as functions of the text: the parser is taken to answer
    the same text with the same prefixes and quads.
    [collectSubjectEntries] receives the namespace map. *)
Class Extractors := mkExtractors
  { collectNamespaceEntries : string -> list NamespaceEntry;
    collectSubjectEntries : string -> JsObject.t -> list Entry }.

(** The extractors when the N3 parser throws on the text (for instance
    on an undeclared prefix): the [catch] branches of
    [collectNamespaceEntries] and [collectSubjectEntries], line by line. *)
Module Heuristic.

Definition namespaceOfLine (idx : Z) (ln : string) : list NamespaceEntry :=
  match Regex.prefixDeclAt (Str.trim ln) with
  | Some (p, i) =>
      let start := Str.indexOf p ln in
      [mkNamespaceEntry p i (lineRange idx start (start + Str.len p))]
  | None => []
  end.

Definition collectNamespaceEntries (text : string) : list NamespaceEntry :=
  Str.forEachLine namespaceOfLine 0 (Str.splitLines text).

(** [!trimmed || trimmed.startsWith(at) || trimmed.startsWith(hash)] *)
Definition skipped (trimmed : string) : bool :=
  Str.isEmpty trimmed || Str.startsWith "@" trimmed || Str.startsWith "#" trimmed.

Definition subjectOfLine (idx : Z) (ln : string) : list Entry :=
  let trimmed := Str.trim ln in
  if skipped trimmed then [] else
  match Regex.subjectAt trimmed with
  | Some l =>
      let start := Str.indexOf l ln in
      [mkEntry l (lineRange idx start (start + Str.len l))]
  | None => []
  end.

Definition collectSubjectEntries (text : string) (_ : JsObject.t)
  : list Entry :=
  Str.forEachLine subjectOfLine 0 (Str.splitLines text).

Definition extractors : Extractors :=
  mkExtractors collectNamespaceEntries collectSubjectEntries.

End Heuristic.

Module Indexer.

(** The four private fields of [class Indexer] that hold the index. *)
Record t := mk
  { prefixIndex : gmap string (list Location);
    subjectIndex : gmap string (list Location);
    symbolIndex : gmap string (list Location);
    docCache : gmap string DocCache }.

Definition init : t := mk ∅ ∅ ∅ ∅.

(** [this.prefixIndex[word] || []] *)
Definition getPrefixes (ix : t) (word : string) : list Location :=
  default [] (prefixIndex ix !! word).
Definition getSubjects (ix : t) (word : string) : list Location :=
  default [] (subjectIndex ix !! word).
Definition getSymbols (ix : t) (word : string) : list Location :=
  default [] (symbolIndex ix !! word).

(** One turn of a removal loop of [removeFromIndexes]:
    [if (index[l]) { index[l] = index[l].filter(loc => loc.uri !== uri);
                     if (index[l].length === 0) delete index[l] }]. *)
Definition removeLabel (u : string) (index : gmap string (list Location))
    (l : string) : gmap string (list Location) :=
  match index !! l with
  | Some locs =>
      let kept := filter (fun loc => uri loc ≠ u) locs in
      if decide (length kept = 0%nat) then delete l index
      else <[l := kept]> index
  | None => index
  end.

Definition removeEntries (u : string) (es : list Entry)
    (index : gmap string (list Location)) : gmap string (list Location) :=
  foldl (fun ix e => removeLabel u ix (label e)) index es.

(** One turn of an insertion loop of [reindexDocument]:
    [if (!index[l]) index[l] = []; index[l].push({ uri, range })]. *)
Definition pushEntry (u : string) (index : gmap string (list Location))
    (e : Entry) : gmap string (list Location) :=
  <[label e := default [] (index !! label e) ++ [mkLocation u (erange e)]]> index.

Definition pushEntries (u : string) (es : list Entry)
    (index : gmap string (list Location)) : gmap string (list Location) :=
  foldl (pushEntry u) index es.

Definition removeFromIndexes (u : string) (ix : t) : t :=
  match docCache ix !! u with
  | Some cached =>
      mk (removeEntries u (prefixes cached) (prefixIndex ix))
         (removeEntries u (subjects cached) (subjectIndex ix))
         (removeEntries u (symbols cached) (symbolIndex ix))
         (delete u (docCache ix))
  | None =>
      mk (prefixIndex ix) (subjectIndex ix) (symbolIndex ix)
         (delete u (docCache ix))
  end.

(** [collectNamespaceMap(text, prefixes)]: [map[p.prefix] = p.iri] in order. *)
Definition collectNamespaceMap (ps : list NamespaceEntry) : JsObject.t :=
  foldl (fun m p => JsObject.set (prefix p) (iri p) m) [] ps.

(** The entries of one line for [collectSymbolEntries]: one per match,
    [start = m.index], [end = start + label.length]. *)
Definition symbolsOfLine (idx : Z) (ln : string) : list Entry :=
  (fun m => mkEntry (snd m) (lineRange idx (fst m) (fst m + Str.len (snd m))))
    <$> Regex.matchAll Regex.symbolAt ln.

Definition collectSymbolEntries (text : string) : list Entry :=
  Str.forEachLine symbolsOfLine 0 (Str.splitLines text).

Definition reindexDocument `{Extractors} (u text : string) (ix : t) : t :=
  let ix1 := removeFromIndexes u ix in
  let pfx := collectNamespaceEntries text in
  let nsMap := collectNamespaceMap pfx in
  let subj := collectSubjectEntries text nsMap in
  let syms := collectSymbolEntries text in
  let pfxEntries := (fun p => mkEntry (prefix p) (nrange p)) <$> pfx in
  mk (pushEntries u pfxEntries (prefixIndex ix1))
     (pushEntries u subj (subjectIndex ix1))
     (pushEntries u syms (symbolIndex ix1))
     (<[u := mkDocCache pfxEntries subj syms nsMap]> (docCache ix1)).

(** The calls a client of the index can make. *)
Inductive call :=
  | Reindex (u text : string)
  | Remove (u : string).

Definition exec `{Extractors} (ix : t) (c : call) : t :=
  match c with
  | Reindex u text => reindexDocument u text ix
  | Remove u => removeFromIndexes u ix
  end.

(** The index after a sequence of calls on the empty index. *)
Definition run `{Extractors} (cs : list call) : t := foldl exec init cs.


(** The locations of document [u] among those stored under [l]. *)
Definition ofDoc (u : string) (locs : list Location) : list Location :=
  filter (fun loc => uri loc = u) locs.

(** What a removal loop leaves under a label it visits. *)
Definition prune (u : string) (o : option (list Location))
  : option (list Location) :=
  match o with
  | Some locs =>
      let kept := filter (fun loc => uri loc ≠ u) locs in
      if decide (length kept = 0%nat) then None else Some kept
  | None => None
  end.



(** The document a call is about. *)
Definition target (c : call) : string :=
  match c with Reindex u _ => u | Remove u => u end.

End Indexer.

(** ** Text documents and files

    The text-document object of the protocol library and the file system
    behind [toFsPath] and [readFileSafe] of [src/util.ts]. *)

Class TextDocumentApi := mkTextDocumentApi
  { TextDocument : Type;
    getText : TextDocument -> string;
    getTextIn : TextDocument -> Range -> string;
    offsetAt : TextDocument -> Position -> Z;
    positionAt : TextDocument -> Z -> Position }.

Class FileSystem := mkFileSystem
  { toFsPath : string -> string;
    readFileSafe : string -> option string }.

Module Util.

(** [/^([A-Za-z][\w-]{0,}):/] on a token: group 1, or the empty string. *)
Definition extractPrefix (token : string) : string :=
  match token with
  | String c s1 =>
      if Chars.isAlpha c then
        match Str.span Chars.isWordDash s1 with
        | (run, String c2 _) =>
            if Chars.isCode 58 c2 then String c run else EmptyString
        | (_, EmptyString) => EmptyString
        end
      else EmptyString
  | EmptyString => EmptyString
  end.

(** [/[\w:]/.test(ch)] *)
Definition isWordOrColon (c : ascii) : bool := Chars.isWord c || Chars.isCode 58 c.

Section WithDocuments.
Context `{TextDocumentApi}.

Definition currentWordRange (doc : TextDocument) (position : Position) : Range :=
  let text := getText doc in
  let offset := offsetAt doc position in
  let safeOffset := Z.max 0 (Z.min offset (Str.len text)) in
  let before := Str.rev (Str.take (Z.to_nat safeOffset) text) in
  let after := Str.drop (Z.to_nat safeOffset) text in
  let start := safeOffset - Str.len (fst (Str.span isWordOrColon before)) in
  let stop := safeOffset + Str.len (fst (Str.span isWordOrColon after)) in
  mkRange (positionAt doc start) (positionAt doc stop).

(** [text || null] *)
Definition currentWord (doc : TextDocument) (position : Position)
  : option string :=
  let text := getTextIn doc (currentWordRange doc position) in
  if Str.isEmpty text then None else Some text.

(** The trailing match of [/([A-Za-z][\w-]{0,}):[\w-]{0,}$/] in the text of
    the line up to the cursor: group 1 of the leftmost position at which
    the pattern reaches the end of the text. *)
Fixpoint prefixAtEnd (s : string) : string :=
  match s with
  | EmptyString => EmptyString
  | String c s' =>
      let here :=
        if Chars.isAlpha c then
          match Str.span Chars.isWordDash s' with
          | (run, String c2 s2) =>
              if Chars.isCode 58 c2 && Str.all Chars.isWordDash s2
              then Some (String c run) else None
          | (_, EmptyString) => None
          end
        else None in
      match here with
      | Some p => p
      | None => prefixAtEnd s'
      end
  end.

Definition detectPrefixAtPosition (doc : TextDocument) (position : Position)
    (currentToken : string) : string :=
  let direct := extractPrefix currentToken in
  if negb (Str.isEmpty direct) then direct else
  prefixAtEnd
    (getTextIn doc (mkRange (mkPosition (line position) 0) position)).

Context `{FileSystem}.

(** [lines[n] || empty]: out of range, or not an index, gives the empty
    string. *)
Definition lineAt (lines : list string) (n : Z) : string :=
  if n <? 0 then EmptyString else default EmptyString (lines !! Z.to_nat n).

Definition rangeMatchesWord (u : string) (r : Range) (word : string)
    (doc : option TextDocument) : bool :=
  match doc with
  | Some d => bool_decide (getTextIn d r = word)
  | None =>
      if Str.startsWith "file://" u then
        match readFileSafe (toFsPath u) with
        | Some content =>
            if Str.isEmpty content then true else
            let lines := Str.splitLines content in
            let startLine := lineAt lines (line (range_start r)) in
            let snippet :=
              Str.slice (character (range_start r)) (character (range_end r))
                        startLine in
            bool_decide (snippet = word)
        | None => true
        end
      else true
  end.

End WithDocuments.

End Util.

(** ** Navigation ([src/navigation.ts]) *)

Module Navigation.

Record TextEdit := mkTextEdit { trange : Range; newText : string }.

Global Instance TextEdit_eq_dec : EqDecision TextEdit.
Proof. solve_decision. Defined.

Section WithDocuments.
Context `{TextDocumentApi} `{FileSystem}.
(** [this.indexer] and [this.documents]. *)
Variable indexer : Indexer.t.
Variable documents : gmap string TextDocument.

(** [word.replace(/:$/, empty)] for a word that ends with a colon. *)
Definition dropLastColon (word : string) : string :=
  Str.take (String.length word - 1) word.

(** The lists [addEdits] is called on, in call order. *)
Definition candidates (word : string) : list Location :=
  Indexer.getSubjects indexer word
  ++ Indexer.getPrefixes indexer word
  ++ (if Str.endsWith ":" word
      then Indexer.getPrefixes indexer (dropLastColon word) else [])
  ++ Indexer.getSymbols indexer word.

Definition validates (word : string) (loc : Location) : bool :=
  Util.rangeMatchesWord (uri loc) (range loc) word (documents !! uri loc).

(** The candidates that pass the check, in order. *)
Definition validated (word : string) (locs : list Location) : list Location :=
  filter (fun loc => validates word loc = true) locs.

(** One turn of the loop of [addEdits]. *)
Definition addEdit (word newName : string)
    (changes : gmap string (list TextEdit)) (loc : Location)
  : gmap string (list TextEdit) :=
  if validates word loc
  then <[uri loc := default [] (changes !! uri loc)
                    ++ [mkTextEdit (range loc) newName]]> changes
  else changes.

Definition addEdits (word newName : string)
    (changes : gmap string (list TextEdit)) (locs : list Location)
  : gmap string (list TextEdit) :=
  foldl (addEdit word newName) changes locs.

(** [rename(params)]; [None] is [null], [Some changes] is [{ changes }]. *)
Definition rename (u : string) (position : Position) (newName : string)
  : option (gmap string (list TextEdit)) :=
  match documents !! u with
  | None => None
  | Some doc =>
      match Util.currentWord doc position with
      | None => None
      | Some word =>
          let c1 := addEdits word newName ∅ (Indexer.getSubjects indexer word) in
          let c2 := addEdits word newName c1 (Indexer.getPrefixes indexer word) in
          let c3 :=
            if Str.endsWith ":" word
            then addEdits word newName c2
                   (Indexer.getPrefixes indexer (dropLastColon word))
            else c2 in
          let c4 := addEdits word newName c3 (Indexer.getSymbols indexer word) in
          if decide (c4 = ∅) then None else Some c4
      end
  end.

(** [definition(params)] and [references(params)]. *)
Definition definition (u : string) (position : Position) : list Location :=
  match documents !! u with
  | None => []
  | Some doc =>
      match Util.currentWord doc position with
      | None => []
      | Some word =>
          Indexer.getPrefixes indexer word
          ++ (if Str.endsWith ":" word
              then Indexer.getPrefixes indexer (dropLastColon word) else [])
          ++ Indexer.getSubjects indexer word
          ++ Indexer.getSymbols indexer word
      end
  end.

Definition references (u : string) (position : Position) : list Location :=
  match documents !! u with
  | None => []
  | Some doc =>
      match Util.currentWord doc position with
      | None => []
      | Some word => candidates word
      end
  end.


End WithDocuments.

End Navigation.

(** ** The lint pass ([basicDiagnostics] of [src/server.ts]) *)

(** The [prefixes] object of the vocabulary package, which is not part of
    the repository. *)
Class VocabularyPackage := mkVocabularyPackage
  { zazukoPrefixes : JsObject.t }.

Module Lint.

Inductive DiagnosticSeverity := Error | Warning | Information | Hint.

Record Diagnostic := mkDiagnostic
  { severity : DiagnosticSeverity;
    drange : Range;
    message : string;
    source : string }.

Definition defaultPrefixes : JsObject.t :=
  [ ("rdf", "http://www.w3.org/1999/02/22-rdf-syntax-ns#");
    ("rdfs", "http://www.w3.org/2000/01/rdf-schema#");
    ("owl", "http://www.w3.org/2002/07/owl#");
    ("xsd", "http://www.w3.org/2001/XMLSchema#");
    ("sh", "http://www.w3.org/ns/shacl#");
    ("skos", "http://www.w3.org/2004/02/skos/core#");
    ("dcterms", "http://purl.org/dc/terms/");
    ("foaf", "http://xmlns.com/foaf/0.1/") ].

(** [pref && pref.length > 0 ? pref : colon] *)
Definition normalizePrefix (pref : string) : string :=
  if Str.isEmpty pref then ":" else pref.

Definition displayPrefix (pref : string) : string :=
  if Str.isEmpty pref then ":" else pref.

Fixpoint countChars (text : string) (ch : nat) : Z :=
  match text with
  | EmptyString => 0
  | String c s' => (if Chars.isCode ch c then 1 else 0) + countChars s' ch
  end.

Definition buildPrefixMap (ps : list NamespaceEntry) : JsObject.t :=
  foldl (fun m kv => JsObject.set (normalizePrefix (fst kv)) (snd kv) m)
        defaultPrefixes (Indexer.collectNamespaceMap ps).

(** The set [declaredPrefixes], as the list of what is added to it. *)
Definition declaredPrefixes (ps : list NamespaceEntry) : list string :=
  (fun e => normalizePrefix (prefix e)) <$> ps.

Definition sanitize (trimmed : string) : string :=
  Regex.stripComment
    (Regex.replaceAllEmpty Regex.iriAt
       (Regex.replaceAllEmpty Regex.stringAt trimmed)).

Definition missingTerminator (idx : Z) (ln : string) : Diagnostic :=
  mkDiagnostic Warning (lineRange idx 0 (Str.len ln))
    "Turtle statements typically end with '.', ';', or ','"
    "turtle-node-lsp".

(** The range of a use: [start = line.indexOf(match[0])]. *)
Definition useRange (idx : Z) (ln m : string) : Range :=
  let start := Str.indexOf m ln in lineRange idx start (start + Str.len m).

Definition undeclaredPrefix (idx : Z) (ln m : string) : Diagnostic :=
  mkDiagnostic Warning (useRange idx ln m)
    ("Prefix '" +:+ displayPrefix (fst (Regex.useGroups m)) +:+ "' is not declared")
    "turtle-node-lsp".

Definition unknownTerm (idx : Z) (ln m : string) : Diagnostic :=
  mkDiagnostic Warning (useRange idx ln m)
    ("Term '" +:+ snd (Regex.useGroups m) +:+ "' is not defined in the '"
       +:+ fst (Regex.useGroups m) +:+ "' vocabulary.")
    "turtle-node-lsp".

Definition duplicatePrefix (e : NamespaceEntry) : Diagnostic :=
  mkDiagnostic Warning (nrange e)
    ("Prefix '" +:+ displayPrefix (prefix e) +:+ "' is declared multiple times")
    "turtle-node-lsp".

Definition unusedPrefix (e : NamespaceEntry) : Diagnostic :=
  mkDiagnostic Information (nrange e)
    ("Prefix '" +:+ displayPrefix (prefix e) +:+ "' is never used")
    "turtle-node-lsp".

(** The variables the [forEach] callback updates. *)
Record State := mkState
  { bracketDepth : Z;
    parenDepth : Z;
    prefixUsage : gmap string Z;
    diagnostics : list Diagnostic }.

(** [counts[k] = (counts[k] || 0) + 1] *)
Definition bump (k : string) (counts : gmap string Z) : gmap string Z :=
  <[k := default 0 (counts !! k) + 1]> counts.

Section WithCaches.
Context `{VocabularyPackage}.
(** [this.validTermsCache] and the entries of the document. *)
Variable validTermsCache : gmap string (gset string).
Variable namespaceEntries : list NamespaceEntry.

(** The body of [for (const match of uses)].  The call of
    [ensureVocabLoaded] in the last branch suspends at its first [await]
    before it writes to [validTermsCache]; it adds no diagnostic. *)
Definition lintUse (idx : Z) (ln : string)
    (acc : gmap string Z * list Diagnostic) (m : string)
  : gmap string Z * list Diagnostic :=
  let '(pref, suffix) := Regex.useGroups m in
  let normalized := normalizePrefix pref in
  let usage := bump normalized (fst acc) in
  let d1 :=
    if bool_decide (normalized ∈ declaredPrefixes namespaceEntries)
    then snd acc else snd acc ++ [undeclaredPrefix idx ln m] in
  let d2 :=
    if JsObject.truthy normalized (buildPrefixMap namespaceEntries)
       && JsObject.truthy pref zazukoPrefixes
    then match validTermsCache !! pref with
         | Some validTerms =>
             if bool_decide (suffix ∈ validTerms) then d1
             else d1 ++ [unknownTerm idx ln m]
         | None => d1
         end
    else d1 in
  (usage, d2).

Definition lintLine (idx : Z) (ln : string) (st : State) : State :=
  let trimmed := Str.trim ln in
  if Heuristic.skipped trimmed then st else
  let sanitized := sanitize trimmed in
  let depthBefore := bracketDepth st + parenDepth st in
  let openBrackets := countChars sanitized 91 in
  let closeBrackets := countChars sanitized 93 in
  let openParens := countChars sanitized 40 in
  let closeParens := countChars sanitized 41 in
  let depthAfter :=
    Z.max 0 (depthBefore + openBrackets - closeBrackets + openParens - closeParens) in
  let d0 :=
    if (depthBefore =? 0) && (depthAfter =? 0)
       && negb (Regex.endsWithTerminator sanitized)
       && Str.any Chars.isSpace sanitized
    then diagnostics st ++ [missingTerminator idx ln]
    else diagnostics st in
  let uses := snd <$> Regex.matchAll Regex.useAt sanitized in
  let '(usage, d) := foldl (lintUse idx ln) (prefixUsage st, d0) uses in
  mkState (Z.max 0 (bracketDepth st + openBrackets - closeBrackets))
          (Z.max 0 (parenDepth st + openParens - closeParens))
          usage d.

(** [lines.forEach((line, idx) => ...)] *)
Fixpoint lintLines (idx : Z) (lines : list string) (st : State) : State :=
  match lines with
  | [] => st
  | ln :: rest => lintLines (idx + 1) rest (lintLine idx ln st)
  end.

(** The loop over duplicate declarations, with its counter object. *)
Definition lintDuplicate (acc : gmap string Z * list Diagnostic)
    (e : NamespaceEntry) : gmap string Z * list Diagnostic :=
  let seen := bump (normalizePrefix (prefix e)) (fst acc) in
  (seen,
   if 1 <? default 0 (seen !! normalizePrefix (prefix e))
   then snd acc ++ [duplicatePrefix e] else snd acc).

Definition lintUnused (usage : gmap string Z) (ds : list Diagnostic)
    (e : NamespaceEntry) : list Diagnostic :=
  if default 0 (usage !! normalizePrefix (prefix e)) =? 0
  then ds ++ [unusedPrefix e] else ds.

Definition basicDiagnosticsOf (text : string) : list Diagnostic :=
  let st := lintLines 0 (Str.splitLines text) (mkState 0 0 ∅ []) in
  let d1 := snd (foldl lintDuplicate (∅, diagnostics st) namespaceEntries) in
  foldl (lintUnused (prefixUsage st)) d1 namespaceEntries.

(** What one use, one line, and a run of lines add to [diagnostics], as
    lists; [depths] are the two counters before the line. *)
Definition useFindings (idx : Z) (ln m : string) : list Diagnostic :=
  let '(pref, suffix) := Regex.useGroups m in
  (if bool_decide (normalizePrefix pref ∈ declaredPrefixes namespaceEntries)
   then [] else [undeclaredPrefix idx ln m])
  ++
  (if JsObject.truthy (normalizePrefix pref) (buildPrefixMap namespaceEntries)
      && JsObject.truthy pref zazukoPrefixes
   then match validTermsCache !! pref with
        | Some validTerms =>
            if bool_decide (suffix ∈ validTerms) then []
            else [unknownTerm idx ln m]
        | None => []
        end
   else []).

Definition terminatorTest (depths : Z * Z) (sanitized : string) : bool :=
  let depthBefore := fst depths + snd depths in
  let depthAfter :=
    Z.max 0 (depthBefore + countChars sanitized 91 - countChars sanitized 93
             + countChars sanitized 40 - countChars sanitized 41) in
  (depthBefore =? 0) && (depthAfter =? 0)
  && negb (Regex.endsWithTerminator sanitized)
  && Str.any Chars.isSpace sanitized.

Definition lineFindings (depths : Z * Z) (idx : Z) (ln : string)
  : list Diagnostic :=
  if Heuristic.skipped (Str.trim ln) then [] else
  (if terminatorTest depths (sanitize (Str.trim ln))
   then [missingTerminator idx ln] else [])
  ++ concat (useFindings idx ln
               <$> (snd <$> Regex.matchAll Regex.useAt (sanitize (Str.trim ln)))).

Definition depthStep (depths : Z * Z) (ln : string) : Z * Z :=
  let trimmed := Str.trim ln in
  if Heuristic.skipped trimmed then depths else
  let sanitized := sanitize trimmed in
  (Z.max 0 (fst depths + countChars sanitized 91 - countChars sanitized 93),
   Z.max 0 (snd depths + countChars sanitized 40 - countChars sanitized 41)).

Fixpoint linesFindings (depths : Z * Z) (idx : Z) (lines : list string)
  : list Diagnostic :=
  match lines with
  | [] => []
  | ln :: rest =>
      lineFindings depths idx ln
      ++ linesFindings (depthStep depths ln) (idx + 1) rest
  end.

End WithCaches.

Definition basicDiagnostics `{VocabularyPackage} `{Extractors}
    (validTermsCache : gmap string (gset string)) (text : string)
  : list Diagnostic :=
  basicDiagnosticsOf validTermsCache (collectNamespaceEntries text) text.

Global Instance DiagnosticSeverity_eq_dec : EqDecision DiagnosticSeverity.
Proof. solve_decision. Defined.
Global Instance Diagnostic_eq_dec : EqDecision Diagnostic.
Proof. solve_decision. Defined.

(** The matches of the use pattern on the stripped text of a line. *)
Definition usesOf (ln : string) : list string :=
  snd <$> Regex.matchAll Regex.useAt (sanitize (Str.trim ln)).

(** The two depth counters before line [idx]. *)

Definition depthsBefore (lines : list string) (idx : nat) : Z * Z :=
  foldl depthStep (0, 0) (take idx lines).

(** The condition under which the pass reports a missing terminator on
    line [ln], whose predecessors left the counters at [depths]. *)
Definition reportsMissingTerminator (depths : Z * Z) (ln : string) : Prop :=
  let sanitized := sanitize (Str.trim ln) in
  let depthBefore := fst depths + snd depths in
  let depthAfter :=
    Z.max 0 (depthBefore + countChars sanitized 91 - countChars sanitized 93
             + countChars sanitized 40 - countChars sanitized 41) in
  Heuristic.skipped (Str.trim ln) = false ∧
  depthBefore = 0 ∧ depthAfter = 0 ∧
  Regex.endsWithTerminator sanitized = false ∧
  Str.any Chars.isSpace sanitized = true.

(** The condition of the specification: top-level nesting before and after
    the line, no final [.], [;] or [,], and some white space inside. *)
Definition endsWithDotSemiComma (s : string) : bool :=
  match Str.trimEnd s with
  | EmptyString => false
  | t => let last := String.get (String.length t - 1) t in
         bool_decide (last = Some "."%char ∨ last = Some ";"%char
                      ∨ last = Some ","%char)
  end.

Definition specMissingTerminator (depths : Z * Z) (ln : string) : Prop :=
  let sanitized := sanitize (Str.trim ln) in
  let after := depthStep depths ln in
  fst depths + snd depths = 0 ∧ fst after + snd after = 0 ∧
  endsWithDotSemiComma sanitized = false ∧
  Str.any Chars.isSpace sanitized = true.

End Lint.

(** ** Completion ([src/completion.ts]) *)

(** [String.prototype.localeCompare], a function of the JS engine. *)
Class Collation := mkCollation
  { localeCompare : string -> string -> comparison }.

Module Completion.

Inductive CompletionItemKind :=
  | Text | Method | Function_ | Constructor | Field | Variable_ | Class_
  | Interface | Module_ | Property | Unit | Value | Enum | Keyword | Snippet
  | Color | File | Reference | Folder | EnumMember | Constant | Struct
  | Event | Operator | TypeParameter.

Global Instance CompletionItemKind_eq_dec : EqDecision CompletionItemKind.
Proof. solve_decision. Defined.

Record CompletionItem := mkItem
  { label : string;
    kind : option CompletionItemKind;
    detail : option string;
    documentation : option string;
    textEdit : option (string * Range);
    insertText : option string;
    sortText : option string }.

Global Instance CompletionItem_eq_dec : EqDecision CompletionItem.
Proof. solve_decision. Defined.

(** [getCommonCompletionItemsGivenNamespaces(namespaceMap)] of the
    language-utilities package: its [classes] followed by its
    [properties].  A missing [label] is the empty string. *)
Class CommonItems := mkCommonItems
  { getCommonCompletionItems : JsObject.t -> list CompletionItem }.

(** [abbreviateWithPrefixes(value, map)] of [src/util.ts]. *)
Fixpoint abbreviateOver (value : string) (entries : JsObject.t) : string :=
  match entries with
  | [] => value
  | (p, base) :: rest =>
      if Str.startsWith base value
         && (String.length base <? String.length value)%nat
      then p +:+ ":" +:+ Str.drop (String.length base) value
      else abbreviateOver value rest
  end.

Definition abbreviateWithPrefixes (value : string) (m : JsObject.t) : string :=
  if negb (Str.startsWith "http://" value || Str.startsWith "https://" value)
  then value else abbreviateOver value m.

(** [Array.from(new Set(xs))]: the first occurrence of each string. *)
Fixpoint distinct (seen : list string) (xs : list string) : list string :=
  match xs with
  | [] => []
  | x :: rest =>
      if bool_decide (x ∈ seen) then distinct seen rest
      else x :: distinct (x :: seen) rest
  end.

(** [collectSubjectSet(text)] in insertion order. *)
Definition subjectOfLine (ln : string) : list string :=
  let trimmed := Str.trim ln in
  if Heuristic.skipped trimmed then [] else
  match Regex.subjectAt trimmed with
  | Some l => [l]
  | None => []
  end.

Definition collectSubjectSet (text : string) : list string :=
  distinct [] (concat (subjectOfLine <$> Str.splitLines text)).

(** [collectGlobalSubjects(prefixFilter)] of the index.  The keys of
    [subjectIndex] are enumerated in the order of the finite map. *)
Definition collectGlobalSubjects (ix : Indexer.t) (prefixFilter : string)
  : list string :=
  filter (fun l =>
            ¬ (Str.isEmpty prefixFilter = false
               ∧ Str.isEmpty (Util.extractPrefix l) = false
               ∧ Util.extractPrefix l ≠ prefixFilter))
         (fst <$> map_to_list (Indexer.subjectIndex ix)).

Definition keywordItems : list CompletionItem :=
  [ mkItem "@prefix" (Some Keyword) (Some "Declare namespace prefix") None None
           (Some "@prefix ") None;
    mkItem "@base" (Some Keyword) (Some "Set base IRI") None None
           (Some "@base ") None;
    mkItem "a" (Some Keyword) (Some "rdf:type shortcut") None None
           (Some "a ") None;
    mkItem "BASE" (Some Keyword) None None None (Some "BASE ") None;
    mkItem "PREFIX" (Some Keyword) None None None (Some "PREFIX ") None ].

(** The bucket of the [withSort] step. *)
Definition bucketOf (currentPrefix queryLower : string) (item : CompletionItem)
  : string :=
  let labelLower := Str.toLowerCase (label item) in
  let itemPrefix := Util.extractPrefix (label item) in
  if negb (Str.isEmpty currentPrefix) && bool_decide (itemPrefix = currentPrefix)
  then (if Str.startsWith queryLower labelLower then "005" else "010")
  else if Str.isEmpty currentPrefix && Str.startsWith queryLower labelLower
  then "020"
  else if bool_decide (kind item = Some Reference) then "050"
  else if bool_decide (kind item = Some Keyword) then "100"
  else "900".

Definition withSort (currentPrefix queryLower : string) (item : CompletionItem)
  : CompletionItem :=
  mkItem (label item) (kind item) (detail item) (documentation item)
         (textEdit item) (insertText item)
         (Some (bucketOf currentPrefix queryLower item +:+ "_" +:+ label item)).

(** The loop that keeps the first item of every label. *)
Fixpoint dedupe (seen : list string) (items : list CompletionItem)
  : list CompletionItem :=
  match items with
  | [] => []
  | item :: rest =>
      if bool_decide (label item ∈ seen) then dedupe seen rest
      else item :: dedupe (label item :: seen) rest
  end.

(** [a.sortText || empty] *)
Definition sortKey (item : CompletionItem) : string :=
  match sortText item with
  | Some s => s
  | None => EmptyString
  end.

Section WithCollation.
Context `{Collation}.

(** [Array.prototype.sort] with the comparator of [build]: a stable sort. *)
Fixpoint insertSorted (x : CompletionItem) (l : list CompletionItem)
  : list CompletionItem :=
  match l with
  | [] => [x]
  | y :: l' =>
      match localeCompare (sortKey x) (sortKey y) with
      | Gt => y :: insertSorted x l'
      | _ => x :: l
      end
  end.

Fixpoint sort (l : list CompletionItem) : list CompletionItem :=
  match l with
  | [] => []
  | x :: l' => insertSorted x (sort l')
  end.

(** The order the comparator of [build] sorts by. *)
Definition ordered (a b : CompletionItem) : Prop :=
  localeCompare (sortKey a) (sortKey b) ≠ Gt.

(** Steps 6 and after of [build]: sort keys, deduplication, sort. *)
Definition rank (current currentPrefix : string)
    (allItems : list CompletionItem) : list CompletionItem :=
  sort (dedupe [] (withSort currentPrefix (Str.toLowerCase current) <$> allItems)).

Context `{TextDocumentApi} `{CommonItems}.

(** [vocabFromPrefix] after the load it may have awaited has settled:
    [cachedVocabs] is the cache at that moment. *)
Definition vocabFromPrefix (cachedVocabs : JsMap.t (list CompletionItem))
    (currentPrefix : string) (replaceRange : Range) : list CompletionItem :=
  let items :=
    if negb (Str.isEmpty currentPrefix)
    then default [] (JsMap.get currentPrefix cachedVocabs)
    else concat (JsMap.values cachedVocabs) in
  (fun item =>
     mkItem (label item) (kind item) (detail item) (documentation item)
            (Some (label item, replaceRange)) None (sortText item))
    <$> items.

Definition normalizeVocab (replaceRange : Range) (item : CompletionItem)
  : CompletionItem :=
  let l := if negb (Str.isEmpty (label item)) then label item
           else default EmptyString (insertText item) in
  mkItem l (kind item) (detail item) (documentation item)
         (Some (l, replaceRange)) None (sortText item).

(** The candidates of [build], before ranking. *)
Definition allItems (indexer : Indexer.t)
    (cachedVocabs : JsMap.t (list CompletionItem))
    (doc : TextDocument) (position : Position)
    (namespaces : list NamespaceEntry) (namespaceMap : JsObject.t)
  : list CompletionItem :=
  let text := getText doc in
  let subjectSet := collectSubjectSet text in
  let current := default EmptyString (Util.currentWord doc position) in
  let currentPrefix := Util.detectPrefixAtPosition doc position current in
  let replaceRange := Util.currentWordRange doc position in
  let globalSubjects := collectGlobalSubjects indexer currentPrefix in
  let prefixItems :=
    (fun ns =>
       let l := prefix ns +:+ ":" in
       mkItem l (Some Keyword) (Some (iri ns)) None (Some (l, replaceRange))
              None None) <$> namespaces in
  let subjectItems :=
    (fun subject =>
       let display := abbreviateWithPrefixes subject namespaceMap in
       mkItem display (Some Reference) None None
              (Some (display, replaceRange)) None None)
      <$> distinct [] (subjectSet ++ globalSubjects) in
  let vocabItems :=
    (normalizeVocab replaceRange <$> getCommonCompletionItems namespaceMap)
    ++ vocabFromPrefix cachedVocabs currentPrefix replaceRange in
  vocabItems ++ subjectItems ++ prefixItems ++ keywordItems.

Definition build (indexer : Indexer.t)
    (cachedVocabs : JsMap.t (list CompletionItem))
    (doc : TextDocument) (position : Position)
    (namespaces : list NamespaceEntry) (namespaceMap : JsObject.t)
  : list CompletionItem :=
  let current := default EmptyString (Util.currentWord doc position) in
  let currentPrefix := Util.detectPrefixAtPosition doc position current in
  rank current currentPrefix
       (allItems indexer cachedVocabs doc position namespaces namespaceMap).

End WithCollation.

(** The number a bucket stands for. *)
Fixpoint decimalOnto (acc : Z) (s : string) : Z :=
  match s with
  | EmptyString => acc
  | String c s' => decimalOnto (10 * acc + (Z.of_nat (Chars.code c) - 48)) s'
  end.

Definition bucketValue (bucket : string) : Z := decimalOnto 0 bucket.

Definition buckets : list string := ["005"; "010"; "020"; "050"; "100"; "900"].

(** What the ranking needs of [localeCompare]: it is a total preorder, and
    two keys that begin with different buckets compare as the buckets. *)
Definition Lawful (c : Collation) : Prop :=
  (∀ a b, @localeCompare c b a = CompOpp (@localeCompare c a b)) ∧
  (∀ a b d, @localeCompare c a b ≠ Gt → @localeCompare c b d ≠ Gt →
            @localeCompare c a d ≠ Gt) ∧
  (∀ b1 b2 t1 t2, b1 ∈ buckets → b2 ∈ buckets →
                  bucketValue b1 < bucketValue b2 →
                  @localeCompare c (b1 +:+ t1) (b2 +:+ t2) = Lt).

(** Comparison by code units. *)
Definition codeUnitOrder : Collation := mkCollation String_as_OT.compare.

(** The bucket rule (b) as the specification words it: the full label of
    the candidate is a case-insensitive prefix of what is typed. *)
Definition specBucketOf (currentPrefix queryLower : string)
    (item : CompletionItem) : string :=
  let labelLower := Str.toLowerCase (label item) in
  let itemPrefix := Util.extractPrefix (label item) in
  if negb (Str.isEmpty currentPrefix) && bool_decide (itemPrefix = currentPrefix)
  then (if Str.startsWith queryLower labelLower then "005" else "010")
  else if Str.isEmpty currentPrefix && Str.startsWith labelLower queryLower
  then "020"
  else if bool_decide (kind item = Some Reference) then "050"
  else if bool_decide (kind item = Some Keyword) then "100"
  else "900".

End Completion.

(** ** The vocabulary cache ([loadVocabularyIntoCache])

    The JS engine runs one job at a time.  A job here is a call of
    [loadVocabularyIntoCache] up to its first [await], the continuation
    that runs when the awaited fetch settles, or the callback that
    [finally] registered.  The state below is what these jobs share. *)

Module Vocabulary.
Import Completion.

Record Quad := mkQuad { subject : string; predicate : string; object : string }.

(** What [await vocabularies({ only: [prefix] })] gives: the datasets
    object, read at [prefix], or a rejection. *)
Inductive FetchResult :=
  | Loaded (dataset : option (list Quad))
  | Failed (err : string).

Record TermData := mkTermData
  { tkind : CompletionItemKind; docs : list string; tlabel : string }.

Definition rdfType : string := "http://www.w3.org/1999/02/22-rdf-syntax-ns#type".
Definition rdfsComment : string := "http://www.w3.org/2000/01/rdf-schema#comment".
Definition skosDefinition : string := "http://www.w3.org/2004/02/skos/core#definition".
Definition dcDescription : string := "http://purl.org/dc/terms/description".

(** The body of [for (const quad of dataset)]. *)
Definition processQuad (namespaceUri : string) (termData : JsMap.t TermData)
    (quad : Quad) : JsMap.t TermData :=
  if negb (Str.startsWith namespaceUri (subject quad)) then termData else
  let localName := Str.drop (String.length namespaceUri) (subject quad) in
  if Str.isEmpty localName then termData else
  let data := default (mkTermData Property [] localName)
                      (JsMap.get localName termData) in
  let kind' :=
    if bool_decide (predicate quad = rdfType) then
      if Str.includes "Class" (object quad) || Str.includes "Shape" (object quad)
      then Class_
      else if Str.includes "Property" (object quad) then Property
      else tkind data
    else tkind data in
  let docs' :=
    if (bool_decide (predicate quad = rdfsComment)
        || bool_decide (predicate quad = skosDefinition)
        || bool_decide (predicate quad = dcDescription))
       && negb (Str.isEmpty (object quad))
    then docs data ++ [object quad] else docs data in
  JsMap.set localName (mkTermData kind' docs' (tlabel data)) termData.

(** [(CompletionItemKind as any)[data.kind]] for the two kinds in use. *)
Definition kindName (k : CompletionItemKind) : string :=
  match k with
  | Class_ => "Class"
  | _ => "Property"
  end.

Definition paragraphBreak : string :=
  String Chars.LF (String Chars.LF EmptyString).

(** The loop that turns [termData] into completion items; the [data]
    field of an item, which no code reads, is left out. *)
Definition itemOf (p : string) (entry : string * TermData) : CompletionItem :=
  let '(localName, data) := entry in
  let joined := Str.join paragraphBreak (docs data) in
  mkItem (p +:+ ":" +:+ localName) (Some (tkind data))
         (Some (p +:+ " " +:+ kindName (tkind data)))
         (Some (if Str.isEmpty joined
                then "Term from " +:+ p +:+ " vocabulary." else joined))
         None None None.

Definition itemsOf (p namespaceUri : string) (dataset : list Quad)
  : list CompletionItem :=
  itemOf p <$> foldl (processQuad namespaceUri) [] dataset.

Inductive Outcome := Fulfilled | Rejected (err : string).

(** The shared state: the two maps of the engine, the promise counter,
    the external fetches that have not settled yet (each with the load
    promise it belongs to), the [finally] callbacks that are queued, and
    three logs: every call of [vocabularies], every load promise that
    settled, and every call of [console.error]. *)
Record World := mkWorld
  { cachedVocabs : JsMap.t (list CompletionItem);
    loadingPromises : JsMap.t nat;
    nextPromise : nat;
    inflight : list (string * nat);
    cleanups : list string;
    fetchLog : list string;
    settled : list (nat * Outcome);
    errorLog : list (string * string) }.

Definition init : World := mkWorld [] [] 0 [] [] [] [] [].

Inductive Event :=
  | Request (p : string)
  | FetchSettles (p : string) (r : FetchResult)
  | Finally (p : string).

(** The first element of a list that satisfies a test, taken out. *)
Fixpoint takeOut {A} (test : A -> bool) (l : list A) : option (A * list A) :=
  match l with
  | [] => None
  | x :: rest =>
      if test x then Some (x, rest)
      else match takeOut test rest with
           | Some (y, rest') => Some (y, x :: rest')
           | None => None
           end
  end.

Section WithPackage.
Context `{VocabularyPackage}.

(** A call of [loadVocabularyIntoCache(p)] up to its first [await]. *)
Definition request (p : string) (w : World) : World :=
  if JsMap.has p (cachedVocabs w) then w
  else if JsMap.has p (loadingPromises w) then w
  else
    let id := nextPromise w in
    if negb (JsObject.truthy p zazukoPrefixes) then
      mkWorld (cachedVocabs w) (JsMap.set p id (loadingPromises w)) (S id)
              (inflight w) (cleanups w ++ [p]) (fetchLog w)
              (settled w ++ [(id, Fulfilled)]) (errorLog w)
    else
      mkWorld (cachedVocabs w) (JsMap.set p id (loadingPromises w)) (S id)
              (inflight w ++ [(p, id)]) (cleanups w) (fetchLog w ++ [p])
              (settled w) (errorLog w).

(** The promise a call of [loadVocabularyIntoCache(p)] in state [w]
    resolves with: none when the key is cached, the stored promise when a
    load is registered, else the promise it creates. *)
Definition returned (p : string) (w : World) : option nat :=
  if JsMap.has p (cachedVocabs w) then None
  else match JsMap.get p (loadingPromises w) with
       | Some id => Some id
       | None => Some (nextPromise w)
       end.

(** The statements of the [try] block after the [await]: they throw when
    the fetch was rejected. *)
Definition tryBlock (p : string) (r : FetchResult) (w : World)
  : World + string :=
  match r with
  | Failed err => inr err
  | Loaded dataset =>
      match dataset, JsObject.get p zazukoPrefixes with
      | Some quads, Some namespaceUri =>
          if Str.isEmpty namespaceUri then inl w else
          inl (mkWorld (JsMap.set p (itemsOf p namespaceUri quads) (cachedVocabs w))
                       (loadingPromises w) (nextPromise w) (inflight w)
                       (cleanups w) (fetchLog w) (settled w) (errorLog w))
      | _, _ => inl w
      end
  end.

(** [try { ... } catch (err) { console.error(..., err) }], and the way the
    load promise settles after it. *)
Definition tryCatch (p : string) (r : FetchResult) (w : World)
  : World * Outcome :=
  match tryBlock p r w with
  | inl w' => (w', Fulfilled)
  | inr err =>
      (mkWorld (cachedVocabs w) (loadingPromises w) (nextPromise w)
               (inflight w) (cleanups w) (fetchLog w) (settled w)
               (errorLog w ++ [("Error loading vocabulary " +:+ p +:+ ":", err)]),
       Fulfilled)
  end.

(** The continuation of the load of [p] when its fetch settles. *)
Definition fetchSettles (p : string) (r : FetchResult) (w : World)
  : option World :=
  match takeOut (fun f => bool_decide (fst f = p)) (inflight w) with
  | None => None
  | Some ((_, id), rest) =>
      let '(w1, outcome) := tryCatch p r w in
      Some (mkWorld (cachedVocabs w1) (loadingPromises w1) (nextPromise w1)
                    rest (cleanups w1 ++ [p]) (fetchLog w1)
                    (settled w1 ++ [(id, outcome)]) (errorLog w1))
  end.

(** The callback [() => this.loadingPromises.delete(prefix)]. *)
Definition finally (p : string) (w : World) : option World :=
  match takeOut (fun q => bool_decide (q = p)) (cleanups w) with
  | None => None
  | Some (_, rest) =>
      Some (mkWorld (cachedVocabs w) (JsMap.delete p (loadingPromises w))
                    (nextPromise w) (inflight w) rest (fetchLog w)
                    (settled w) (errorLog w))
  end.

Definition step (w : World) (e : Event) : option World :=
  match e with
  | Request p => Some (request p w)
  | FetchSettles p r => fetchSettles p r w
  | Finally p => finally p w
  end.

(** The jobs of a trace, in order; [None] when a job of the trace cannot
    run at its place. *)
Fixpoint run (w : World) (es : list Event) : option World :=
  match es with
  | [] => Some w
  | e :: rest =>
      match step w e with
      | Some w' => run w' rest
      | None => None
      end
  end.

End WithPackage.

(** The number of external fetches for key [p] that have not settled. *)
Definition pendingFetches (p : string) (w : World) : nat :=
  length (filter (fun f => fst f = p) (inflight w)).

Definition queuedCleanups (p : string) (w : World) : nat :=
  length (filter (fun q => q = p) (cleanups w)).

(** The fetches and callbacks of a key, and its entry in
    [loadingPromises], go together. *)
Definition singleFlight (w : World) : Prop :=
  ∀ p, (pendingFetches p w + queuedCleanups p w ≤ 1)%nat ∧
       ((0 < pendingFetches p w + queuedCleanups p w)%nat →
        JsMap.has p (loadingPromises w) = true).

(** A key with a fetch in flight is a key of the package and is not
    cached. *)
Definition pendingUncached `{VocabularyPackage} (w : World) : Prop :=
  ∀ p id, (p, id) ∈ inflight w →
          JsMap.has p (cachedVocabs w) = false ∧
          JsObject.truthy p zazukoPrefixes = true.

End Vocabulary.

(** ** More of the index: the namespace-map query and the trace view *)

Module IndexerQueries.
Import Indexer.


(** The record [reindexDocument] stores for a text. *)
Definition recordOf `{Extractors} (text : string) : DocCache :=
  let pfx := collectNamespaceEntries text in
  let nsMap := collectNamespaceMap pfx in
  mkDocCache ((fun p => mkEntry (prefix p) (nrange p)) <$> pfx)
             (collectSubjectEntries text nsMap)
             (collectSymbolEntries text) nsMap.




(** A prefix label as the patterns of the sources spell it: a letter, then
    letters, digits, underscores and dashes. *)
Definition isName (p : string) : bool :=
  match p with
  | String c r => Chars.isAlpha c && Str.all Chars.isWordDash r
  | EmptyString => false
  end.

(** The text between two character offsets of a line, as
    [rangeMatchesWord] reads it from a file. *)
Definition textAt (lines : list string) (r : Range) : string :=
  Str.slice (character (range_start r)) (character (range_end r))
            (Util.lineAt lines (line (range_start r))).

(** [m] occurs in [s]: it starts [s] after some number of code units. *)
Definition occurs (m s : string) : Prop :=
  ∃ k, String.prefix m (Str.drop k s) = true.


(** Range [a] ends before range [b] starts, in document order. *)
Definition before (a b : Range) : Prop :=
  line (range_end a) < line (range_start b)
  ∨ (line (range_end a) = line (range_start b)
     ∧ character (range_end a) ≤ character (range_start b)).

(** The three entry lists of a contribution record, as label entries. *)
Definition entriesOf (dc : DocCache) : list Entry :=
  prefixes dc ++ subjects dc ++ symbols dc.

End IndexerQueries.

(** ** On-type formatting (the handler in [src/server.ts]) *)

Module Formatting.

(** [prevLineText.replace(/#.{0,}$/, empty).trimEnd()] *)
Definition cleanPrevLine (prevLineText : string) : string :=
  Str.trimEnd (Regex.stripComment prevLineText).

(** [newIndent]: empty when the cleaned line ends with a full stop, else
    group 1 of [/^(\s{0,})/] on the previous line. *)
Definition newIndent (prevLineText : string) : string :=
  if Str.endsWith "." (cleanPrevLine prevLineText) then EmptyString
  else fst (Str.span Chars.isSpace prevLineText).

(** [Number.MAX_VALUE] *)
Definition maxValue : Z := 2 ^ 1024 - 2 ^ 971.

Section WithDocuments.
Context `{TextDocumentApi}.
Variable documents : gmap string TextDocument.

Definition prevLineRange (position : Position) : Range :=
  mkRange (mkPosition (line position - 1) 0)
          (mkPosition (line position - 1) maxValue).

Definition onDocumentOnTypeFormatting (u : string) (position : Position)
    (insertSpaces : bool) (tabSize : Z) : list Navigation.TextEdit :=
  match documents !! u with
  | None => []
  | Some doc =>
      if line position =? 0 then [] else
      let prevLineText := getTextIn doc (prevLineRange position) in
      [Navigation.mkTextEdit
         (lineRange (line position) 0 (if insertSpaces then tabSize else 999))
         (newIndent prevLineText)]
  end.

End WithDocuments.

End Formatting.

(** ** More of the diagnostics: the declaration findings *)

Module LintQueries.
Import Lint.

(** The entries whose normalized prefix an earlier entry, or [seen],
    already had. *)
Fixpoint repeated (seen : list string) (es : list NamespaceEntry)
  : list NamespaceEntry :=
  match es with
  | [] => []
  | e :: rest =>
      let k := normalizePrefix (prefix e) in
      (if bool_decide (k ∈ seen) then [e] else []) ++ repeated (k :: seen) rest
  end.



(** How often a key occurs in a list. *)
Definition occurrences (k : string) (l : list string) : Z :=
  Z.of_nat (length (filter (fun x => x = k) l)).

(** The last declaration of a normalized prefix. *)
Definition lastDeclared (k : string) (es : list NamespaceEntry)
  : option NamespaceEntry :=
  last (filter (fun e => normalizePrefix (prefix e) = k) es).

End LintQueries.

(** ** More of the vocabulary cache: what its states never lose *)

Module VocabularyQueries.
Import Vocabulary.

(** A key that is marked as loading has a job left that will unmark it. *)
Definition tokenBacked (w : World) : Prop :=
  ∀ p, JsMap.has p (loadingPromises w) = true →
       (0 < pendingFetches p w + queuedCleanups p w)%nat.

(** Every fetch that has not settled was logged. *)
Definition inflightLogged (w : World) : Prop :=
  ∀ p id, (p, id) ∈ inflight w → p ∈ fetchLog w.

(** Every cache entry is what a fetched dataset of a package key gives. *)
Definition cacheFromFetch `{VocabularyPackage} (w : World) : Prop :=
  ∀ p items,
    JsMap.get p (cachedVocabs w) = Some items →
    ∃ ns quads,
      JsObject.get p zazukoPrefixes = Some ns ∧ Str.isEmpty ns = false ∧
      items = itemsOf p ns quads ∧ p ∈ fetchLog w.

(** The number of calls of [vocabularies] for one key. *)
Definition fetchesOf (p : string) (w : World) : nat :=
  length (filter (fun q => q = p) (fetchLog w)).

(** The keys of a term map. *)
Definition keys {V} (m : JsMap.t V) : list string := fst <$> m.

End VocabularyQueries.

(** ** A plain text document

    An instance of the text-document interface over a string, after the
    full-text document of the protocol library: line starts follow a line
    feed, a carriage return, or a carriage return and line feed pair;
    positions beyond a line or beyond the text are clamped. *)

Module PlainDocument.

Fixpoint lineOffsetsFrom (pos : Z) (s : string) : list Z :=
  match s with
  | EmptyString => []
  | String c s' =>
      if Chars.isCode 13 c then
        match s' with
        | String c' s'' =>
            if Chars.isCode 10 c' then (pos + 2) :: lineOffsetsFrom (pos + 2) s''
            else (pos + 1) :: lineOffsetsFrom (pos + 1) s'
        | EmptyString => [pos + 1]
        end
      else if Chars.isCode 10 c then (pos + 1) :: lineOffsetsFrom (pos + 1) s'
      else lineOffsetsFrom (pos + 1) s'
  end.

Definition lineOffsets (s : string) : list Z := 0 :: lineOffsetsFrom 0 s.

Definition offsetAt (s : string) (p : Position) : Z :=
  let offs := lineOffsets s in
  if Z.of_nat (length offs) <=? line p then Str.len s
  else if line p <? 0 then 0
  else
    let lineOffset := default 0 (offs !! Z.to_nat (line p)) in
    if character p <=? 0 then lineOffset
    else
      let nextLineOffset := default (Str.len s) (offs !! S (Z.to_nat (line p))) in
      Z.min (lineOffset + character p) nextLineOffset.

(** The last line start at or before [offset], with its index. *)
Fixpoint lineOf (offset : Z) (idx : Z) (cur : Z) (offs : list Z) : Z * Z :=
  match offs with
  | [] => (idx, cur)
  | o :: rest => if o <=? offset then lineOf offset (idx + 1) o rest else (idx, cur)
  end.

Definition positionAt (s : string) (offset : Z) : Position :=
  let o := Z.max 0 (Z.min offset (Str.len s)) in
  let '(idx, start) := lineOf o (-1) 0 (lineOffsets s) in
  mkPosition idx (o - start).

Definition getTextIn (s : string) (r : Range) : string :=
  Str.substring (offsetAt s (range_start r)) (offsetAt s (range_end r)) s.

Definition api : TextDocumentApi :=
  mkTextDocumentApi string (fun s => s) getTextIn offsetAt positionAt.

End PlainDocument.

(** ** Sample documents *)

Module Samples.

Definition docA : string := "file:///a.ttl".
Definition docB : string := "file:///b.ttl".

Definition twice : string := "ex:a ex:b ex:a .".

Definition bobKnows : string := "ex:Bob foaf:knows ex:Alice .".

Definition bracketed : string := "ex:a ex:b [ ex:c ex:d ]".

Definition usesRdf : string := "ex:s rdf:type ex:o .".

(** A file system on which no file can be read. *)
Definition noFiles : FileSystem :=
  mkFileSystem (fun u => Str.drop 7 u) (fun _ => None).

(** Two indexed documents with the same text, the first one open. *)
Definition twoBobs : Indexer.t :=
  @Indexer.run Heuristic.extractors
    [Indexer.Reindex docA bobKnows; Indexer.Reindex docB bobKnows].

Definition onlyAOpen : gmap string string := {[ docA := bobKnows ]}.

(** A document whose second line is being typed, the cursor behind the
    three letters typed so far, and the index after the document changed. *)
Definition typingPre : string :=
  "ex:Bob ex:knows ex:Alice ." +:+ String Chars.LF "PRE".

Definition afterPre : Position := mkPosition 1 3.

Definition typingIndexed : Indexer.t :=
  @Indexer.run Heuristic.extractors [Indexer.Reindex docA typingPre].

(** The first scenario of the specification: [foaf] is declared, [ex] is
    not, and the statement has no terminator. *)
Definition scenario1 : string :=
  "@prefix foaf: <http://xmlns.com/foaf/0.1/> ." +:+ String Chars.LF
    "ex:Bob foaf:knows ex:Alice".

(** No common items from the language-utilities package. *)
Definition noCommonItems : Completion.CommonItems :=
  Completion.mkCommonItems (fun _ => []).

(** A few entries of the [prefixes] object of the vocabulary package. *)
Definition package : VocabularyPackage :=
  mkVocabularyPackage
    [ ("rdf", "http://www.w3.org/1999/02/22-rdf-syntax-ns#");
      ("rdfs", "http://www.w3.org/2000/01/rdf-schema#");
      ("foaf", "http://xmlns.com/foaf/0.1/") ].

End Samples.

Module MoreSamples.

(** A file system that holds one readable file. *)
Definition oneFile : FileSystem :=
  mkFileSystem (fun u => Str.drop 7 u)
    (fun p => if decide (p = "/a.ttl") then Some Samples.bobKnows else None).

(** The jobs of one successful load of [foaf]. *)
Definition personQuad : Vocabulary.Quad :=
  Vocabulary.mkQuad "http://xmlns.com/foaf/0.1/Person" Vocabulary.rdfType
    "http://www.w3.org/2000/01/rdf-schema#Class".

Definition foafLoaded : list Vocabulary.Event :=
  [ Vocabulary.Request "foaf";
    Vocabulary.FetchSettles "foaf" (Vocabulary.Loaded (Some [personQuad]));
    Vocabulary.Finally "foaf" ].

(** An open document whose first line ends with a comment. *)
Definition commented : string :=
  "  ex:a ex:b ex:c . # done" +:+ String Chars.LF "x".

Definition commentedOpen : gmap string string := {[ Samples.docA := commented ]}.

End MoreSamples.

(** * Proofs: the workspace index *)

Module IndexerFacts.
Import Indexer.


Lemma prune_idemp u o : prune u (prune u o) = prune u o.
Proof.
  destruct o as [locs|]; simpl; [|done].
  case_decide as Hk; simpl; [done|].
  rewrite list_filter_filter.
  assert (Heq : filter (λ x : Location, uri x ≠ u ∧ uri x ≠ u) locs
                = filter (λ loc, uri loc ≠ u) locs).
  { apply list_filter_iff. tauto. }
  rewrite Heq. by case_decide.
Qed.


Lemma prune_default u o :
  default [] (prune u o) = filter (fun loc => uri loc ≠ u) (default [] o).
Proof.
  destruct o as [locs|]; simpl; [|done].
  case_decide as Hk; simpl; [|done].
  symmetry. by apply nil_length_inv.
Qed.

Lemma lookup_removeLabel u index l l' :
  removeLabel u index l' !! l
  = if decide (l = l') then prune u (index !! l) else index !! l.
Proof.
  unfold removeLabel, prune.
  destruct (decide (l = l')) as [->|Hne].
  - destruct (index !! l') as [locs|] eqn:E; simpl; [|by rewrite E].
    case_decide; [apply lookup_delete_eq | apply lookup_insert_eq].
  - destruct (index !! l') as [locs|]; simpl; [|done].
    case_decide; [by apply lookup_delete_ne | by apply lookup_insert_ne].
Qed.

Lemma lookup_removeEntries u es index l :
  removeEntries u es index !! l
  = if decide (l ∈ label <$> es) then prune u (index !! l) else index !! l.
Proof.
  unfold removeEntries. revert index.
  induction es as [|e es IH]; intros index.
  - rewrite decide_False; [done | apply not_elem_of_nil].
  - rewrite fmap_cons. simpl. rewrite IH, lookup_removeLabel.
    destruct (decide (l = label e)) as [->|Hne].
    + rewrite prune_idemp.
      rewrite (decide_True _ _ (list_elem_of_here (label e) (label <$> es))).
      by case_decide.
    + destruct (decide (l ∈ label <$> es)) as [Hin|Hnin].
      * by rewrite decide_True by (by apply list_elem_of_further).
      * rewrite decide_False; [done|].
        intros [?|?]%elem_of_cons; done.
Qed.

Lemma lookup_pushEntry u index e l :
  pushEntry u index e !! l
  = if decide (label e = l)
    then Some (default [] (index !! l) ++ [mkLocation u (erange e)])
    else index !! l.
Proof.
  unfold pushEntry. case_decide as Heq.
  - subst l. apply lookup_insert_eq.
  - by apply lookup_insert_ne.
Qed.

Lemma lookup_pushEntries u es index l :
  pushEntries u es index !! l
  = match filter (fun e => label e = l) es with
    | [] => index !! l
    | fs => Some (default [] (index !! l)
                  ++ ((fun e => mkLocation u (erange e)) <$> fs))
    end.
Proof.
  unfold pushEntries. revert index.
  induction es as [|e es IH]; intros index; simpl; [done|].
  rewrite IH, lookup_pushEntry.
  rewrite filter_cons.
  destruct (decide (label e = l)) as [Heq|Hne]; simpl.
  - destruct (filter _ es) as [|f fs]; simpl; [done|].
    by rewrite <- app_assoc.
  - done.
Qed.

Lemma default_pushEntries u es index l :
  default [] (pushEntries u es index !! l)
  = default [] (index !! l)
    ++ ((fun e => mkLocation u (erange e))
          <$> filter (fun e => label e = l) es).
Proof.
  rewrite lookup_pushEntries.
  destruct (filter _ es); simpl; [by rewrite app_nil_r | done].
Qed.



Lemma ofDoc_app u xs ys : ofDoc u (xs ++ ys) = ofDoc u xs ++ ofDoc u ys.
Proof. apply filter_app. Qed.


Lemma ofDoc_other u u' (es : list Entry) :
  u ≠ u' → ofDoc u' ((fun e => mkLocation u (erange e)) <$> es) = [].
Proof.
  intros Hne. unfold ofDoc. induction es as [|e es IH]; [done|].
  rewrite fmap_cons, filter_cons_False; [done|]. simpl. done.
Qed.


Lemma ofDoc_kept u u' locs :
  u ≠ u' → ofDoc u' (filter (fun loc => uri loc ≠ u) locs) = ofDoc u' locs.
Proof.
  intros Hne. unfold ofDoc. rewrite list_filter_filter.
  apply list_filter_iff. intros x. split; [tauto|].
  intros ->. split; [done|]. congruence.
Qed.


(** The frame of one index: the entries of another document stay, in
    order, through a removal loop and through an insertion loop. *)
Lemma ofDoc_removeEntries u u' es index l :
  u ≠ u' →
  ofDoc u' (default [] (removeEntries u es index !! l))
  = ofDoc u' (default [] (index !! l)).
Proof.
  intros Hne. rewrite lookup_removeEntries.
  case_decide; [|done]. rewrite prune_default. by apply ofDoc_kept.
Qed.

Lemma ofDoc_pushEntries u u' es index l :
  u ≠ u' →
  ofDoc u' (default [] (pushEntries u es index !! l))
  = ofDoc u' (default [] (index !! l)).
Proof.
  intros Hne. rewrite default_pushEntries, ofDoc_app.
  rewrite ofDoc_other by done. by rewrite app_nil_r.
Qed.














Lemma docCache_removeFromIndexes u ix :
  docCache (removeFromIndexes u ix) = delete u (docCache ix).
Proof. unfold removeFromIndexes. by destruct (docCache ix !! u). Qed.








End IndexerFacts.

(** ** Facts on global scans and on the symbol extractor *)

Module ScanFacts.

Lemma scanAll_ge matchAt skip pos s :
  Forall (fun m => pos <= fst m) (Regex.scanAll matchAt skip pos s).
Proof.
  revert skip pos. induction s as [|c s IH]; intros skip pos; simpl.
  - constructor.
  - assert (Hmono : ∀ k, Forall (fun m => pos <= fst m)
                            (Regex.scanAll matchAt k (pos + 1) s)).
    { intros k. eapply Forall_impl; [apply IH|]. simpl. intros; lia. }
    destruct skip; [|apply Hmono].
    destruct (matchAt _); [|apply Hmono].
    constructor; [simpl; lia | apply Hmono].
Qed.


Lemma symbolsOfLine_line idx ln :
  Forall (fun e => line (range_start (erange e)) = idx)
         (Indexer.symbolsOfLine idx ln).
Proof.
  unfold Indexer.symbolsOfLine. apply Forall_fmap, Forall_forall.
  intros m _. done.
Qed.


Lemma forEachLine_symbols_ge idx lines :
  Forall (fun e => idx <= line (range_start (erange e)))
         (Str.forEachLine Indexer.symbolsOfLine idx lines).
Proof.
  revert idx. induction lines as [|ln lines IH]; intros idx; simpl.
  - constructor.
  - apply Forall_app. split.
    + eapply Forall_impl; [apply symbolsOfLine_line|]. simpl. intros; lia.
    + eapply Forall_impl; [apply IH|]. simpl. intros; lia.
Qed.


End ScanFacts.


(** * The workspace index: the specified properties *)

Module IndexerSpec.
Import Indexer IndexerFacts.



(** C10.  A call about document [d] leaves the contribution record of any
    other document [d'] unchanged, and under every label of every global
    index the locations of [d'] are the same list as before, in the same
    order.  This holds on any index state. *)
Theorem C10_other_documents_untouched `{Extractors}
    (ix : t) (c : call) (d' : string) :
  target c ≠ d' →
  docCache (exec ix c) !! d' = docCache ix !! d' ∧
  ∀ l, ofDoc d' (getPrefixes (exec ix c) l) = ofDoc d' (getPrefixes ix l) ∧
       ofDoc d' (getSubjects (exec ix c) l) = ofDoc d' (getSubjects ix l) ∧
       ofDoc d' (getSymbols (exec ix c) l) = ofDoc d' (getSymbols ix l).
Proof.
  intros Hne.
  assert (Hrem : ∀ u ix0, u ≠ d' →
    docCache (removeFromIndexes u ix0) !! d' = docCache ix0 !! d' ∧
    ∀ l, ofDoc d' (getPrefixes (removeFromIndexes u ix0) l)
           = ofDoc d' (getPrefixes ix0 l) ∧
         ofDoc d' (getSubjects (removeFromIndexes u ix0) l)
           = ofDoc d' (getSubjects ix0 l) ∧
         ofDoc d' (getSymbols (removeFromIndexes u ix0) l)
           = ofDoc d' (getSymbols ix0 l)).
  { intros u ix0 Hu. split.
    - rewrite docCache_removeFromIndexes. by apply lookup_delete_ne.
    - intros l. unfold getPrefixes, getSubjects, getSymbols, removeFromIndexes.
      destruct (docCache ix0 !! u); simpl; [|done].
      by rewrite !ofDoc_removeEntries. }
  destruct c as [u text|u]; simpl in *; [|by apply Hrem].
  destruct (Hrem u ix Hne) as [Hdc Hl]. split.
  - unfold reindexDocument. simpl. by rewrite lookup_insert_ne.
  - intros l. destruct (Hl l) as (Hp & Hs & Hy).
    rewrite <- Hp, <- Hs, <- Hy.
    unfold getPrefixes, getSubjects, getSymbols, reindexDocument. simpl.
    by rewrite !ofDoc_pushEntries.
Qed.

Lemma C10_other_documents_untouched_witness :
  let ix := @run Heuristic.extractors
              [Reindex Samples.docA Samples.twice;
               Reindex Samples.docB Samples.bobKnows] in
  let c := Reindex Samples.docA Samples.bobKnows in
  target c ≠ Samples.docB ∧
  @docCache (@exec Heuristic.extractors ix c) !! Samples.docB
    = docCache ix !! Samples.docB.
Proof.
  intros ix c.
  assert (Hne : target c ≠ Samples.docB) by (vm_compute; discriminate).
  split; [exact Hne|].
  exact (proj1 (@C10_other_documents_untouched Heuristic.extractors
                  ix c Samples.docB Hne)).
Defined.



End IndexerSpec.


(** * The lint pass: facts *)

Module StrFacts.

Lemma append_length a b :
  String.length (a +:+ b) = (String.length a + String.length b)%nat.
Proof. induction a as [|c a IH]; simpl; [done | by rewrite IH]. Qed.

Lemma append_same_length a b s t :
  String.length a = String.length b → a +:+ s = b +:+ t → a = b ∧ s = t.
Proof.
  revert b. induction a as [|c a IH]; intros [|c' b] Hl He; simpl in *;
    try discriminate; [done|].
  injection He as -> He. injection Hl as Hl.
  destruct (IH b Hl He) as [-> ->]. done.
Qed.

Lemma append_cancel_r a b s : a +:+ s = b +:+ s → a = b.
Proof.
  intros He. apply (append_same_length a b s s); [|done].
  apply (f_equal String.length) in He. rewrite !append_length in He. lia.
Qed.

Lemma lastOf_append a s :
  Str.lastOf s ≠ None → Str.lastOf (a +:+ s) = Str.lastOf s.
Proof.
  intros Hs. induction a as [|c a IH]; simpl; [done|].
  rewrite IH. by destruct (Str.lastOf s).
Qed.

End StrFacts.

Module LintFacts.
Import Lint.

Section WithCaches.
Context `{VocabularyPackage}.
Variable validTermsCache : gmap string (gset string).
Variable namespaceEntries : list NamespaceEntry.

Local Abbreviation lintUse := (lintUse validTermsCache namespaceEntries).
Local Abbreviation lintLine := (lintLine validTermsCache namespaceEntries).
Local Abbreviation lintLines := (lintLines validTermsCache namespaceEntries).
Local Abbreviation useFindings := (useFindings validTermsCache namespaceEntries).
Local Abbreviation lineFindings := (lineFindings validTermsCache namespaceEntries).
Local Abbreviation linesFindings := (linesFindings validTermsCache namespaceEntries).

Lemma lintUse_snd idx ln acc m :
  snd (lintUse idx ln acc m) = snd acc ++ useFindings idx ln m.
Proof.
  unfold Lint.lintUse, Lint.useFindings.
  destruct (Regex.useGroups m) as [pref suffix]. simpl.
  case_bool_decide; simpl.
  - destruct (_ && _); [|by rewrite app_nil_r].
    destruct (validTermsCache !! pref); [|by rewrite app_nil_r].
    case_bool_decide; [by rewrite app_nil_r | done].
  - destruct (_ && _); [|done].
    destruct (validTermsCache !! pref); [|done].
    case_bool_decide; [done | by rewrite <- app_assoc].
Qed.

Lemma foldl_lintUse_snd idx ln acc ms :
  snd (foldl (lintUse idx ln) acc ms)
  = snd acc ++ concat (useFindings idx ln <$> ms).
Proof.
  revert acc. induction ms as [|m ms IH]; intros acc; simpl.
  - by rewrite app_nil_r.
  - by rewrite IH, lintUse_snd, <- app_assoc.
Qed.

Lemma lintLine_diagnostics idx ln st :
  diagnostics (lintLine idx ln st)
  = diagnostics st ++ lineFindings (bracketDepth st, parenDepth st) idx ln.
Proof.
  unfold Lint.lintLine, Lint.lineFindings.
  destruct (Heuristic.skipped _); [by rewrite app_nil_r|].
  match goal with
  | |- context [foldl ?f ?a ?l] =>
      pose proof (foldl_lintUse_snd idx ln a l) as Hf;
      destruct (foldl f a l) as [usage d]
  end.
  simpl in *. subst d. unfold terminatorTest. simpl.
  destruct (_ && _ && _ && _); simpl; [by rewrite <- app_assoc | done].
Qed.

Lemma lintLine_depths idx ln st :
  (bracketDepth (lintLine idx ln st), parenDepth (lintLine idx ln st))
  = depthStep (bracketDepth st, parenDepth st) ln.
Proof.
  unfold Lint.lintLine, depthStep.
  destruct (Heuristic.skipped _); [done|].
  by destruct (foldl _ _ _).
Qed.

Lemma lintLines_diagnostics idx lines st :
  diagnostics (lintLines idx lines st)
  = diagnostics st ++ linesFindings (bracketDepth st, parenDepth st) idx lines.
Proof.
  revert idx st. induction lines as [|ln lines IH]; intros idx st; simpl.
  - by rewrite app_nil_r.
  - by rewrite IH, lintLine_diagnostics, lintLine_depths, <- app_assoc.
Qed.

Lemma foldl_lintDuplicate_snd acc es :
  ∃ dups, snd (foldl lintDuplicate acc es) = snd acc ++ dups ∧
          Forall (fun d => ∃ e, d = duplicatePrefix e) dups.
Proof.
  revert acc. induction es as [|e es IH]; intros acc; simpl.
  - exists []. by rewrite app_nil_r.
  - destruct (IH (lintDuplicate acc e)) as (dups & Heq & Hd).
    rewrite Heq. unfold lintDuplicate. simpl. destruct (_ <? _).
    + exists (duplicatePrefix e :: dups). rewrite <- app_assoc. split; [done|].
      constructor; [by exists e | done].
    + by exists dups.
Qed.

Lemma foldl_lintUnused usage ds es :
  ∃ unused, foldl (lintUnused usage) ds es = ds ++ unused ∧
            Forall (fun d => ∃ e, d = unusedPrefix e) unused.
Proof.
  revert ds. induction es as [|e es IH]; intros ds; simpl.
  - exists []. by rewrite app_nil_r.
  - destruct (IH (lintUnused usage ds e)) as (unused & Heq & Hd).
    rewrite Heq. unfold lintUnused. destruct (_ =? _).
    + exists (unusedPrefix e :: unused). rewrite <- app_assoc. split; [done|].
      constructor; [by exists e | done].
    + by exists unused.
Qed.

(** The diagnostics are the findings of the lines, then findings about the
    declarations. *)
Lemma basicDiagnosticsOf_split text :
  ∃ decls,
    basicDiagnosticsOf validTermsCache namespaceEntries text
    = linesFindings (0, 0) 0 (Str.splitLines text) ++ decls ∧
    Forall (fun d => ∃ e, d = duplicatePrefix e ∨ d = unusedPrefix e) decls.
Proof.
  unfold basicDiagnosticsOf.
  set (st := Lint.lintLines _ _ _ _ _).
  destruct (foldl_lintDuplicate_snd (∅, diagnostics st) namespaceEntries)
    as (dups & Hd & Hdups).
  destruct (foldl_lintUnused (prefixUsage st)
              (snd (foldl lintDuplicate (∅, diagnostics st) namespaceEntries))
              namespaceEntries) as (unused & Hu & Hunused).
  exists (dups ++ unused). split.
  - rewrite Hu, Hd. unfold st. rewrite lintLines_diagnostics. simpl.
    by rewrite <- app_assoc.
  - apply Forall_app. split; (eapply Forall_impl; [eassumption|]);
      simpl; intros d [e ->]; exists e; auto.
Qed.

(** Membership in the findings of a run of lines, by line. *)
Lemma elem_of_linesFindings d depths idx lines :
  d ∈ linesFindings depths idx lines ↔
  ∃ (i : nat) ln, lines !! i = Some ln ∧
       d ∈ lineFindings (foldl depthStep depths (take i lines))
                        (idx + Z.of_nat i) ln.
Proof.
  revert depths idx. induction lines as [|l0 lines IH]; intros depths idx; simpl.
  - split; [by intros ?%elem_of_nil | by intros (i & ln & ? & _)].
  - rewrite elem_of_app, IH. split.
    + intros [Hd | (i & ln & Hl & Hd)].
      * exists 0%nat, l0. simpl. rewrite Z.add_0_r. done.
      * exists (S i), ln. split; [done|].
        rewrite Nat2Z.inj_succ. simpl.
        by replace (idx + Z.succ (Z.of_nat i)) with (idx + 1 + Z.of_nat i) by lia.
    + intros ([|i] & ln & Hl & Hd).
      * left. simpl in Hl, Hd. injection Hl as ->. by rewrite Z.add_0_r in Hd.
      * right. exists i, ln. split; [done|].
        rewrite Nat2Z.inj_succ in Hd. simpl in Hd.
        by replace (idx + 1 + Z.of_nat i) with (idx + Z.succ (Z.of_nat i)) by lia.
Qed.

End WithCaches.

End LintFacts.


(** * The lint pass: the specified properties *)

Module LintSpec.
Import Lint LintFacts.

Lemma elem_of_concat {A} (x : A) (ls : list (list A)) :
  x ∈ concat ls ↔ ∃ l, x ∈ l ∧ l ∈ ls.
Proof.
  induction ls as [|l ls IH]; simpl.
  - split; [by intros ?%elem_of_nil | by intros (l & _ & ?%elem_of_nil)].
  - rewrite elem_of_app, IH. split.
    + intros [Hx | (l' & Hx & Hl)].
      * exists l. split; [done | by left].
      * exists l'. split; [done | by right].
    + intros (l' & Hx & [->|Hl]%elem_of_cons); [by left|].
      right. by exists l'.
Qed.

Lemma useFindings_elem `{VocabularyPackage} vt ns idx ln m d :
  d ∈ useFindings vt ns idx ln m →
  (d = undeclaredPrefix idx ln m ∧
   normalizePrefix (fst (Regex.useGroups m)) ∉ declaredPrefixes ns)
  ∨ d = unknownTerm idx ln m.
Proof.
  unfold useFindings. destruct (Regex.useGroups m) as [pref suffix]. simpl.
  intros [Hd|Hd]%elem_of_app.
  - case_bool_decide; [by apply elem_of_nil in Hd|].
    apply list_elem_of_singleton in Hd. by left.
  - right. destruct (_ && _); [|by apply elem_of_nil in Hd].
    destruct (vt !! pref); [|by apply elem_of_nil in Hd].
    case_bool_decide; [by apply elem_of_nil in Hd|].
    by apply list_elem_of_singleton in Hd.
Qed.

Lemma undeclared_in_useFindings `{VocabularyPackage} vt ns idx ln m :
  normalizePrefix (fst (Regex.useGroups m)) ∉ declaredPrefixes ns →
  undeclaredPrefix idx ln m ∈ useFindings vt ns idx ln m.
Proof.
  unfold useFindings. destruct (Regex.useGroups m) as [pref suffix]. simpl.
  intros Hn. rewrite bool_decide_eq_false_2 by done.
  apply elem_of_app. left. by apply list_elem_of_singleton.
Qed.

Lemma elem_of_lineFindings `{VocabularyPackage} vt ns depths idx ln d :
  d ∈ lineFindings vt ns depths idx ln ↔
  Heuristic.skipped (Str.trim ln) = false ∧
  ((d = missingTerminator idx ln ∧
    terminatorTest depths (sanitize (Str.trim ln)) = true)
   ∨ ∃ m, m ∈ usesOf ln ∧ d ∈ useFindings vt ns idx ln m).
Proof.
  unfold lineFindings, usesOf.
  destruct (Heuristic.skipped _).
  - split; [by intros ?%elem_of_nil | by intros [? _]].
  - rewrite elem_of_app. split.
    + intros [Hd|Hd]; (split; [done|]).
      * left. destruct (terminatorTest _ _); [|by apply elem_of_nil in Hd].
        by apply list_elem_of_singleton in Hd.
      * right. apply elem_of_concat in Hd as (fs & Hd & Hfs).
        apply list_elem_of_fmap in Hfs as (m & -> & Hm). by exists m.
    + intros [_ [[-> Ht]|(m & Hm & Hd)]].
      * left. rewrite Ht. by apply list_elem_of_singleton.
      * right. apply elem_of_concat. eexists. split; [exact Hd|].
        by apply list_elem_of_fmap_2.
Qed.

Lemma terminatorTest_reports depths ln :
  Heuristic.skipped (Str.trim ln) = false →
  terminatorTest depths (sanitize (Str.trim ln)) = true ↔
  reportsMissingTerminator depths ln.
Proof.
  intros Hs. unfold terminatorTest, reportsMissingTerminator.
  rewrite !andb_true_iff, !Z.eqb_eq, negb_true_iff. tauto.
Qed.

Lemma reports_not_skipped depths ln :
  reportsMissingTerminator depths ln → Heuristic.skipped (Str.trim ln) = false.
Proof. by intros [? _]. Qed.

(** C6, as the code has it.  The pass reports a missing terminator on a
    line exactly when: the trimmed line is not empty and starts with
    neither [@] nor [#]; the two depth counters add up to 0 before the
    line; 0 is also the maximum of 0 and that sum plus the opening minus
    the closing brackets and parentheses of the line; the line does not
    end, white space aside, with one of [. ; , ] )]; and it contains white
    space.  Counts and tests read the trimmed line after quoted strings,
    bracketed IRIs and the line comment have been removed. *)
Theorem C6_missing_terminator_reported `{VocabularyPackage} `{Extractors}
    (validTermsCache : gmap string (gset string)) (text : string)
    (idx : nat) (ln : string) :
  Str.splitLines text !! idx = Some ln →
  (missingTerminator (Z.of_nat idx) ln ∈ basicDiagnostics validTermsCache text
   ↔ reportsMissingTerminator (depthsBefore (Str.splitLines text) idx) ln).
Proof.
  intros Hln. unfold basicDiagnostics.
  destruct (basicDiagnosticsOf_split validTermsCache
              (collectNamespaceEntries text) text) as (decls & -> & Hdecls).
  rewrite elem_of_app, elem_of_linesFindings. split.
  - intros [(i & ln' & Hi & Hd) | Hd].
    + apply elem_of_lineFindings in Hd as [Hs [[Heq Ht] | (m & Hm & Hd)]].
      * apply (f_equal (fun d => line (range_start (drange d)))) in Heq.
        simpl in Heq. assert (i = idx) as -> by lia.
        rewrite Hln in Hi. injection Hi as <-.
        by apply terminatorTest_reports.
      * apply useFindings_elem in Hd as [[Heq _] | Heq]; discriminate Heq.
    + rewrite Forall_forall in Hdecls. apply Hdecls in Hd as [e [Heq|Heq]];
        discriminate Heq.
  - intros Hr. left. exists idx, ln. split; [done|].
    apply elem_of_lineFindings. split; [by eapply reports_not_skipped|].
    left. split; [done|].
    apply terminatorTest_reports; [by eapply reports_not_skipped | done].
Qed.

Lemma C6_missing_terminator_reported_witness :
  missingTerminator 0 "ex:a ex:b"
  ∈ @basicDiagnostics Samples.package Heuristic.extractors ∅ "ex:a ex:b".
Proof.
  apply (@C6_missing_terminator_reported Samples.package Heuristic.extractors
           ∅ "ex:a ex:b" 0%nat "ex:a ex:b").
  - reflexivity.
  - vm_compute. repeat split.
Defined.

(** C6, as stated, fails: a top-level line that ends with a closing
    bracket has no final [.], [;] or [,] and contains white space, yet the
    pass reports nothing about its terminator. *)
Lemma C6_counterexample :
  Str.splitLines Samples.bracketed !! 0%nat = Some Samples.bracketed ∧
  specMissingTerminator
    (depthsBefore (Str.splitLines Samples.bracketed) 0) Samples.bracketed ∧
  missingTerminator 0 Samples.bracketed
  ∉ @basicDiagnostics Samples.package Heuristic.extractors ∅ Samples.bracketed.
Proof.
  split; [reflexivity|]. split; [vm_compute; repeat split|].
  apply (bool_decide_unpack _). vm_compute. exact I.
Qed.

Lemma undeclared_message_inj a b :
  "Prefix '" +:+ displayPrefix a +:+ "' is not declared"
  = "Prefix '" +:+ displayPrefix b +:+ "' is not declared" →
  normalizePrefix a = normalizePrefix b.
Proof.
  intros He. injection He as He.
  change (displayPrefix a +:+ "' is not declared"
          = displayPrefix b +:+ "' is not declared") in He.
  by apply StrFacts.append_cancel_r in He.
Qed.

Lemma undeclared_not_duplicate a b :
  "Prefix '" +:+ a +:+ "' is not declared"
  ≠ "Prefix '" +:+ b +:+ "' is declared multiple times".
Proof.
  intros He. injection He as He.
  change (a +:+ "' is not declared" = b +:+ "' is declared multiple times") in He.
  apply (f_equal Str.lastOf) in He.
  rewrite !StrFacts.lastOf_append in He by done. discriminate He.
Qed.

(** C7, as the code has it.  For every match [m] of the use pattern on a
    processed line, the pass reports the prefix of [m] as undeclared
    exactly when that prefix (the colon standing for the empty prefix) is
    not among the prefixes the document itself declares.  The well-known
    default prefixes are not consulted by this check. *)
Theorem C7_undeclared_prefix_reported `{VocabularyPackage} `{Extractors}
    (validTermsCache : gmap string (gset string)) (text : string)
    (idx : nat) (ln m : string) :
  Str.splitLines text !! idx = Some ln →
  Heuristic.skipped (Str.trim ln) = false →
  m ∈ usesOf ln →
  (undeclaredPrefix (Z.of_nat idx) ln m ∈ basicDiagnostics validTermsCache text
   ↔ normalizePrefix (fst (Regex.useGroups m))
       ∉ declaredPrefixes (collectNamespaceEntries text)).
Proof.
  intros Hln Hs Hm. unfold basicDiagnostics.
  destruct (basicDiagnosticsOf_split validTermsCache
              (collectNamespaceEntries text) text) as (decls & -> & Hdecls).
  rewrite elem_of_app, elem_of_linesFindings. split.
  - intros [(i & ln' & Hi & Hd) | Hd].
    + apply elem_of_lineFindings in Hd as [_ [[Heq _] | (m' & Hm' & Hd)]];
        [discriminate Heq|].
      apply useFindings_elem in Hd as [[Heq Hn] | Heq]; [|discriminate Heq].
      apply (f_equal message) in Heq. apply undeclared_message_inj in Heq.
      by rewrite Heq.
    + rewrite Forall_forall in Hdecls. apply Hdecls in Hd as [e [Heq|Heq]].
      * apply (f_equal message) in Heq.
        by apply undeclared_not_duplicate in Heq.
      * discriminate Heq.
  - intros Hn. left. exists idx, ln. split; [done|].
    apply elem_of_lineFindings. split; [done|]. right. exists m.
    split; [done|]. by apply undeclared_in_useFindings.
Qed.

Lemma C7_undeclared_prefix_reported_witness :
  undeclaredPrefix 0 Samples.usesRdf "ex:s"
  ∈ @basicDiagnostics Samples.package Heuristic.extractors ∅ Samples.usesRdf.
Proof.
  apply (@C7_undeclared_prefix_reported Samples.package Heuristic.extractors
           ∅ Samples.usesRdf 0%nat Samples.usesRdf "ex:s").
  - reflexivity.
  - reflexivity.
  - apply (bool_decide_unpack _). vm_compute. exact I.
  - apply (bool_decide_unpack _). vm_compute. exact I.
Defined.

(** C7, as stated, fails: [rdf] is one of the well-known default prefixes,
    and a use of [rdf:type] in a document that does not declare [rdf] is
    reported as undeclared. *)
Lemma C7_counterexample :
  JsObject.get "rdf" defaultPrefixes
    = Some "http://www.w3.org/1999/02/22-rdf-syntax-ns#" ∧
  "rdf:type" ∈ usesOf Samples.usesRdf ∧
  undeclaredPrefix 0 Samples.usesRdf "rdf:type"
  ∈ @basicDiagnostics Samples.package Heuristic.extractors ∅ Samples.usesRdf.
Proof.
  split; [reflexivity|].
  split; apply (bool_decide_unpack _); vm_compute; exact I.
Qed.

End LintSpec.


(** * Navigation: rename *)

Module NavigationSpec.
Import Navigation.

Section WithDocuments.
Context `{TextDocumentApi} `{FileSystem}.
Variable indexer : Indexer.t.
Variable documents : gmap string TextDocument.

Local Abbreviation validates := (validates documents).
Local Abbreviation addEdit := (addEdit documents).
Local Abbreviation addEdits := (addEdits documents).

Local Abbreviation validated := (validated documents).

Lemma lookup_addEdit word newName changes loc u :
  addEdit word newName changes loc !! u
  = if decide (uri loc = u ∧ validates word loc = true)
    then Some (default [] (changes !! u) ++ [mkTextEdit (range loc) newName])
    else changes !! u.
Proof.
  unfold Navigation.addEdit. destruct (Navigation.validates _ _ _) eqn:Hv.
  - destruct (decide (uri loc = u)) as [<-|Hne].
    + rewrite decide_True by done. apply lookup_insert_eq.
    + rewrite decide_False by tauto. by apply lookup_insert_ne.
  - rewrite decide_False; [done|]. intros [_ ?]. done.
Qed.

Lemma lookup_addEdits word newName changes locs u :
  addEdits word newName changes locs !! u
  = match filter (fun loc => uri loc = u) (validated word locs) with
    | [] => changes !! u
    | fs => Some (default [] (changes !! u)
                  ++ ((fun loc => mkTextEdit (range loc) newName) <$> fs))
    end.
Proof.
  unfold Navigation.addEdits, validated. revert changes.
  induction locs as [|loc locs IH]; intros changes; simpl; [done|].
  rewrite IH, lookup_addEdit. rewrite (filter_cons _ loc).
  destruct (decide (Navigation.validates documents word loc = true)) as [Hv|Hv].
  - rewrite (filter_cons _ loc).
    destruct (decide (uri loc = u)) as [Hu|Hu].
    + rewrite decide_True by done. simpl.
      destruct (filter _ (filter _ locs)); simpl; [done|].
      by rewrite <- app_assoc.
    + by rewrite decide_False by tauto.
  - by rewrite decide_False by tauto.
Qed.

Lemma addEdits_app word newName changes l1 l2 :
  addEdits word newName (addEdits word newName changes l1) l2
  = addEdits word newName changes (l1 ++ l2).
Proof. unfold Navigation.addEdits. by rewrite foldl_app. Qed.

Lemma rename_unfold u position newName doc word :
  documents !! u = Some doc →
  Util.currentWord doc position = Some word →
  rename indexer documents u position newName
  = let plan := addEdits word newName ∅ (candidates indexer word) in
    if decide (plan = ∅) then None else Some plan.
Proof.
  intros Hd Hw. unfold rename, candidates. rewrite Hd, Hw. simpl.
  rewrite <- !addEdits_app.
  destruct (Str.endsWith ":" word); [done|].
  by unfold Navigation.addEdits at 2.
Qed.


Lemma default_addEdits word newName locs u :
  default [] (addEdits word newName ∅ locs !! u)
  = (fun loc => mkTextEdit (range loc) newName)
      <$> filter (fun loc => uri loc = u) (validated word locs).
Proof.
  rewrite lookup_addEdits, lookup_empty.
  by destruct (filter _ (validated word locs)).
Qed.

End WithDocuments.




End NavigationSpec.


(** * Completion: ranking *)

Module CompletionFacts.
Import Completion.

Lemma codeUnitOrder_lawful : Lawful codeUnitOrder.
Proof.
  assert (Hanti : ∀ a b, String_as_OT.compare b a
                         = CompOpp (String_as_OT.compare a b)).
  { intros a b.
    destruct (String_as_OT.compare_spec a b) as [Hab|Hab|Hab];
      destruct (String_as_OT.compare_spec b a) as [Hba|Hba|Hba];
      simpl; try done; unfold String_as_OT.eq in *; subst;
      try (by exfalso; eapply (StrictOrder_Irreflexive (R := String_as_OT.lt)); eauto).
    - exfalso. eapply (StrictOrder_Irreflexive (R := String_as_OT.lt)).
      eapply (StrictOrder_Transitive (R := String_as_OT.lt)); eauto.
    - exfalso. eapply (StrictOrder_Irreflexive (R := String_as_OT.lt)).
      eapply (StrictOrder_Transitive (R := String_as_OT.lt)); eauto. }
  split; [exact Hanti|]. split.
  - intros a b d Hab Hbd. simpl in *.
    assert (Hle : ∀ x y, String_as_OT.compare x y ≠ Gt →
                         x = y ∨ String_as_OT.lt x y).
    { intros x y Hxy.
      destruct (String_as_OT.compare_spec x y) as [Hs|Hs|Hs]; [by left|by right|done]. }
    apply Hle in Hab as [->|Hab]; [done|].
    apply Hle in Hbd as [<-|Hbd].
    + unfold String_as_OT.lt in Hab. by rewrite Hab.
    + assert (Had : String_as_OT.lt a d)
        by (eapply (StrictOrder_Transitive (R := String_as_OT.lt)); eauto).
      unfold String_as_OT.lt in Had. by rewrite Had.
  - intros b1 b2 t1 t2 Hb1 Hb2 Hlt. unfold buckets in *.
    repeat (apply elem_of_cons in Hb1 as [->|Hb1]);
      [..|by apply elem_of_nil in Hb1];
      repeat (apply elem_of_cons in Hb2 as [->|Hb2]);
      try (by apply elem_of_nil in Hb2);
      try (vm_compute in Hlt; discriminate Hlt);
      reflexivity.
Qed.

Section WithCollation.
Context `{Collation}.
Hypothesis lawful : Lawful H.

Lemma ordered_total a b : ¬ ordered a b → ordered b a.
Proof.
  destruct lawful as (Hanti & _ & _). unfold ordered. intros Hn.
  rewrite Hanti. destruct (localeCompare (sortKey a) (sortKey b)); try done.
  exfalso. by apply Hn.
Qed.

Lemma ordered_trans a b d : ordered a b → ordered b d → ordered a d.
Proof. destruct lawful as (_ & Htrans & _). apply Htrans. Qed.

Lemma insertSorted_elem x l y :
  y ∈ insertSorted x l ↔ y = x ∨ y ∈ l.
Proof.
  induction l as [|z l IH]; simpl.
  - rewrite list_elem_of_singleton. split; [auto|]. intros [?|?%elem_of_nil]; done.
  - destruct (localeCompare _ _); rewrite ?elem_of_cons, ?IH; tauto.
Qed.

Lemma insertSorted_sorted x l :
  StronglySorted ordered l → StronglySorted ordered (insertSorted x l).
Proof.
  induction 1 as [|z l Hl IH Hz]; simpl.
  - repeat constructor.
  - destruct (localeCompare (sortKey x) (sortKey z)) eqn:E.
    + constructor; [by constructor|]. constructor; [unfold ordered; by rewrite E|].
      eapply Forall_impl; [exact Hz|]. intros y Hy. simpl in Hy.
      eapply ordered_trans; [|exact Hy]. unfold ordered. by rewrite E.
    + constructor; [by constructor|]. constructor; [unfold ordered; by rewrite E|].
      eapply Forall_impl; [exact Hz|]. intros y Hy. simpl in Hy.
      eapply ordered_trans; [|exact Hy]. unfold ordered. by rewrite E.
    + constructor; [exact IH|]. apply Forall_forall. intros y Hy.
      apply insertSorted_elem in Hy as [->|Hy].
      * apply ordered_total. unfold ordered. rewrite E. tauto.
      * rewrite Forall_forall in Hz. by apply Hz.
Qed.

Lemma sort_sorted l : StronglySorted ordered (sort l).
Proof.
  induction l as [|x l IH]; simpl; [constructor|].
  by apply insertSorted_sorted.
Qed.

Lemma sort_elem l y : y ∈ sort l ↔ y ∈ l.
Proof.
  induction l as [|x l IH]; simpl; [done|].
  rewrite insertSorted_elem, elem_of_cons, IH. tauto.
Qed.

Lemma sorted_lookup (l : list CompletionItem) i j a b :
  StronglySorted ordered l →
  l !! i = Some a → l !! j = Some b → (i < j)%nat → ordered a b.
Proof.
  intros Hs. revert i j. induction Hs as [|z l Hl IH Hz]; intros i j Hi Hj Hlt.
  - done.
  - destruct i as [|i]; destruct j as [|j]; simpl in *; try lia.
    + injection Hi as ->. rewrite Forall_forall in Hz.
      apply Hz. by eapply list_elem_of_lookup_2.
    + eapply IH; eauto. lia.
Qed.

End WithCollation.

Lemma dedupe_elem seen items it :
  it ∈ dedupe seen items → it ∈ items.
Proof.
  revert seen. induction items as [|x items IH]; intros seen; simpl; [done|].
  case_bool_decide.
  - intros ?%IH. by right.
  - intros [->|?%IH]%elem_of_cons; [by left | by right].
Qed.

Lemma dedupe_NoDup seen items :
  NoDup (dedupe seen items) .
Proof.
  assert (Hseen : ∀ seen items it, it ∈ dedupe seen items → label it ∉ seen).
  { clear. intros seen items. revert seen.
    induction items as [|x items IH]; intros seen it; simpl.
    - by intros ?%elem_of_nil.
    - case_bool_decide as Hx.
      + apply IH.
      + intros [->|Hin]%elem_of_cons; [done|].
        apply IH in Hin. intros Hs. apply Hin. by right. }
  revert seen. induction items as [|x items IH]; intros seen; simpl.
  - constructor.
  - case_bool_decide; [apply IH|].
    constructor; [|apply IH].
    intros Hin. apply Hseen in Hin. apply Hin. by left.
Qed.

Lemma bucketOf_withSort cp q cp' q' it :
  bucketOf cp q (withSort cp' q' it) = bucketOf cp q it.
Proof. done. Qed.

Lemma bucketOf_in_buckets cp q it : bucketOf cp q it ∈ buckets.
Proof.
  unfold bucketOf, buckets.
  repeat (match goal with |- context [if ?b then _ else _] => destruct b end);
    apply (bool_decide_unpack _); vm_compute; exact I.
Qed.

End CompletionFacts.

Module CompletionSpec.
Import Completion CompletionFacts.

(** C4, as the code has it.  Every candidate [build] returns carries the
    sort key [bucket_label].  With an active prefix, a candidate whose
    label has that prefix gets bucket 005 when its lower-cased label
    starts with the lower-cased typed word, else 010.  Without an active
    prefix, a candidate whose lower-cased label starts with the
    lower-cased typed word gets 020.  Every other candidate gets 050 when
    it is a subject reference, 100 when it is a keyword, else 900.  In the
    returned list a candidate of a smaller bucket stands before every
    candidate of a larger one. *)
Theorem C4_completion_buckets_rank `{Collation} `{TextDocumentApi} `{CommonItems}
    (indexer : Indexer.t) (cachedVocabs : JsMap.t (list CompletionItem))
    (doc : TextDocument) (position : Position)
    (namespaces : list NamespaceEntry) (namespaceMap : JsObject.t) :
  Lawful H →
  let current := default EmptyString (Util.currentWord doc position) in
  let currentPrefix := Util.detectPrefixAtPosition doc position current in
  let queryLower := Str.toLowerCase current in
  let out := build indexer cachedVocabs doc position namespaces namespaceMap in
  (∀ it, it ∈ out →
     sortText it
     = Some (bucketOf currentPrefix queryLower it +:+ "_" +:+ label it)) ∧
  (∀ it,
     let typedMatches := Str.startsWith queryLower (Str.toLowerCase (label it)) in
     let byKind :=
       if bool_decide (kind it = Some Reference) then "050"
       else if bool_decide (kind it = Some Keyword) then "100" else "900" in
     (Str.isEmpty currentPrefix = false →
      Util.extractPrefix (label it) = currentPrefix →
      bucketOf currentPrefix queryLower it
      = if typedMatches then "005" else "010") ∧
     (Str.isEmpty currentPrefix = false →
      Util.extractPrefix (label it) ≠ currentPrefix →
      bucketOf currentPrefix queryLower it = byKind) ∧
     (Str.isEmpty currentPrefix = true →
      bucketOf currentPrefix queryLower it
      = if typedMatches then "020" else byKind)) ∧
  (∀ i j a b,
     out !! i = Some a → out !! j = Some b →
     bucketValue (bucketOf currentPrefix queryLower a)
       < bucketValue (bucketOf currentPrefix queryLower b) →
     (i < j)%nat).
Proof.
  intros Hlaw current currentPrefix queryLower out.
  assert (Hkey : ∀ it, it ∈ out →
            sortText it
            = Some (bucketOf currentPrefix queryLower it +:+ "_" +:+ label it)).
  { intros it Hin. unfold out, build, rank in Hin.
    apply sort_elem, dedupe_elem in Hin.
    apply list_elem_of_fmap in Hin as (it0 & -> & _). done. }
  split; [exact Hkey|]. split.
  - intros it. unfold bucketOf. simpl. split; [|split].
    + intros -> ->. simpl. by rewrite bool_decide_eq_true_2.
    + intros -> Hne. simpl. by rewrite bool_decide_eq_false_2.
    + intros ->. simpl. done.
  - intros i j a b Hi Hj Hlt.
    destruct (decide (i < j)%nat) as [|Hge]; [done|]. exfalso.
    assert (Ka := Hkey a ltac:(by eapply list_elem_of_lookup_2)).
    assert (Kb := Hkey b ltac:(by eapply list_elem_of_lookup_2)).
    pose proof Hlaw as (Hanti & Htrans & Hdigits).
    pose proof (Hdigits _ _ ("_" +:+ label a) ("_" +:+ label b)
                  (bucketOf_in_buckets currentPrefix queryLower a)
                  (bucketOf_in_buckets currentPrefix queryLower b) Hlt) as Hab.
    destruct (decide (i = j)) as [->|Hne].
    + rewrite Hi in Hj. injection Hj as ->. lia.
    + assert (Hji : (j < i)%nat) by lia.
      pose proof (sorted_lookup out j i b a (sort_sorted Hlaw _) Hj Hi Hji)
        as Hord.
      unfold ordered, sortKey in Hord. rewrite Ka, Kb in Hord.
      rewrite Hanti, Hab in Hord. by apply Hord.
Qed.

Lemma C4_completion_buckets_rank_witness :
  let out := @build codeUnitOrder PlainDocument.api Samples.noCommonItems
               Samples.typingIndexed [] Samples.typingPre Samples.afterPre []
               Lint.defaultPrefixes in
  Lawful codeUnitOrder ∧
  ∀ it, it ∈ out →
    sortText it = Some (bucketOf "" "pre" it +:+ "_" +:+ label it).
Proof.
  intros out. split; [exact codeUnitOrder_lawful|].
  exact (proj1 (@C4_completion_buckets_rank codeUnitOrder PlainDocument.api
                  Samples.noCommonItems Samples.typingIndexed [] Samples.typingPre
                  Samples.afterPre [] Lint.defaultPrefixes
                  codeUnitOrder_lawful)).
Defined.

(** C4, as stated, fails on its rule for requests without an active
    prefix.  With [PRE] typed, the label of the keyword [PREFIX] is not a
    prefix of what is typed, so by the stated rule it ranks as a syntax
    keyword, after the subject reference [ex:Bob]; [build] gives it
    bucket 020 and returns it before [ex:Bob]. *)
Lemma C4_counterexample :
  let out := @build codeUnitOrder PlainDocument.api Samples.noCommonItems
               Samples.typingIndexed [] Samples.typingPre Samples.afterPre []
               Lint.defaultPrefixes in
  let keyword := mkItem "PREFIX" (Some Keyword) None None None
                        (Some "PREFIX ") (Some "020_PREFIX") in
  let reference := mkItem "ex:Bob" (Some Reference) None None
                          (Some ("ex:Bob", lineRange 1 0 3)) None
                          (Some "050_ex:Bob") in
  Util.currentWord (H := PlainDocument.api) Samples.typingPre Samples.afterPre
    = Some "PRE" ∧
  Str.startsWith (Str.toLowerCase "PREFIX") (Str.toLowerCase "PRE") = false ∧
  specBucketOf "" "pre" keyword = "100" ∧
  specBucketOf "" "pre" reference = "050" ∧
  out !! 1%nat = Some keyword ∧
  out !! 2%nat = Some reference.
Proof. vm_compute. repeat split. Qed.

End CompletionSpec.


(** * The vocabulary cache: facts *)

Module JsMapFacts.

Lemma get_set_eq {V} k (v : V) m : JsMap.get k (JsMap.set k v m) = Some v.
Proof.
  induction m as [|[k' v'] m IH]; simpl.
  - by rewrite decide_True.
  - destruct (decide (k = k')) as [->|Hne]; simpl.
    + by rewrite decide_True.
    + by rewrite decide_False.
Qed.

Lemma get_set_ne {V} k k' (v : V) m :
  k ≠ k' → JsMap.get k' (JsMap.set k v m) = JsMap.get k' m.
Proof.
  intros Hne. induction m as [|[k0 v0] m IH]; simpl.
  - by rewrite decide_False by congruence.
  - destruct (decide (k = k0)) as [->|Hne0]; simpl.
    + by rewrite !decide_False by congruence.
    + destruct (decide (k' = k0)); [done | exact IH].
Qed.

Lemma get_delete_eq {V} k (m : JsMap.t V) : JsMap.get k (JsMap.delete k m) = None.
Proof.
  unfold JsMap.delete. induction m as [|[k' v'] m IH]; [done|].
  destruct (decide (k' = k)) as [->|Hne].
  - by rewrite filter_cons_False by (simpl; intros Hk; by apply Hk).
  - rewrite filter_cons_True by done. simpl.
    by rewrite decide_False by congruence.
Qed.

Lemma get_delete_ne {V} k k' (m : JsMap.t V) :
  k ≠ k' → JsMap.get k' (JsMap.delete k m) = JsMap.get k' m.
Proof.
  intros Hne. unfold JsMap.delete. induction m as [|[k0 v0] m IH]; [done|].
  destruct (decide (k0 = k)) as [->|Hne0].
  - rewrite filter_cons_False by (simpl; intros Hk; by apply Hk). simpl.
    by rewrite decide_False by congruence.
  - rewrite filter_cons_True by done. simpl.
    destruct (decide (k' = k0)); [done | exact IH].
Qed.

Lemma has_set_eq {V} k (v : V) m : JsMap.has k (JsMap.set k v m) = true.
Proof. unfold JsMap.has. by rewrite get_set_eq. Qed.

Lemma has_set_ne {V} k k' (v : V) m :
  k ≠ k' → JsMap.has k' (JsMap.set k v m) = JsMap.has k' m.
Proof. intros. unfold JsMap.has. by rewrite get_set_ne. Qed.

Lemma has_delete_eq {V} k (m : JsMap.t V) : JsMap.has k (JsMap.delete k m) = false.
Proof. unfold JsMap.has. by rewrite get_delete_eq. Qed.

Lemma has_delete_ne {V} k k' (m : JsMap.t V) :
  k ≠ k' → JsMap.has k' (JsMap.delete k m) = JsMap.has k' m.
Proof. intros. unfold JsMap.has. by rewrite get_delete_ne. Qed.

End JsMapFacts.

Module VocabularyFacts.
Import Vocabulary JsMapFacts.

Lemma takeOut_Some {A} (test : A → bool) l x rest :
  takeOut test l = Some (x, rest) → test x = true ∧ l ≡ₚ x :: rest.
Proof.
  revert x rest. induction l as [|y l IH]; intros x rest; simpl; [done|].
  destruct (test y) eqn:Ey.
  - intros [= <- <-]. done.
  - destruct (takeOut test l) as [[z rest']|]; [|done].
    intros [= <- <-]. destruct (IH z rest' eq_refl) as [Hz Hp].
    split; [done|]. rewrite Hp. apply Permutation_swap.
Qed.

Lemma takeOut_None {A} (test : A → bool) l :
  takeOut test l = None → Forall (fun x => test x = false) l.
Proof.
  induction l as [|y l IH]; simpl; [constructor|].
  destruct (test y) eqn:Ey; [done|].
  destruct (takeOut test l) as [[z rest']|]; [done|].
  intros _. constructor; [done | by apply IH].
Qed.

Lemma takeOut_is_Some {A} (test : A → bool) l x :
  x ∈ l → test x = true → is_Some (takeOut test l).
Proof.
  intros Hin Hx. destruct (takeOut test l) eqn:E; [done|].
  apply takeOut_None in E. rewrite Forall_forall in E.
  apply E in Hin. congruence.
Qed.

Lemma count_perm {A} (P : A → Prop) `{∀ x, Decision (P x)} l l' :
  l ≡ₚ l' → length (filter P l) = length (filter P l').
Proof. intros Hp. by rewrite Hp. Qed.

Lemma count_app {A} (P : A → Prop) `{∀ x, Decision (P x)} l l' :
  length (filter P (l ++ l')) = (length (filter P l) + length (filter P l'))%nat.
Proof. by rewrite filter_app, length_app. Qed.

Lemma count_pos_elem {A} (P : A → Prop) `{∀ x, Decision (P x)} l :
  (0 < length (filter P l))%nat ↔ ∃ x, x ∈ l ∧ P x.
Proof.
  split.
  - destruct (filter P l) as [|x fs] eqn:E; simpl; [lia|]. intros _.
    assert (Hx : x ∈ filter P l) by (rewrite E; by left).
    apply list_elem_of_filter in Hx as [? ?]. by exists x.
  - intros (x & Hin & Hx).
    assert (Hf : x ∈ filter P l) by (by apply list_elem_of_filter).
    destruct (filter P l); [by apply elem_of_nil in Hf | simpl; lia].
Qed.

Section WithPackage.
Context `{VocabularyPackage}.

Lemma singleFlight_init : singleFlight init.
Proof. intros p. unfold pendingFetches, queuedCleanups. simpl. split; lia. Qed.

Lemma pendingUncached_init : pendingUncached init.
Proof. intros p id Hin. by apply elem_of_nil in Hin. Qed.

Lemma singleFlight_request p w : singleFlight w → singleFlight (request p w).
Proof.
  intros HJ. unfold request.
  destruct (JsMap.has p (cachedVocabs w)); [done|].
  destruct (JsMap.has p (loadingPromises w)) eqn:Hl; [done|].
  assert (Hzero : (pendingFetches p w + queuedCleanups p w = 0)%nat).
  { destruct (HJ p) as [_ Hhas].
    destruct (decide (0 < pendingFetches p w + queuedCleanups p w)%nat) as [Hpos|];
      [|lia]. apply Hhas in Hpos. congruence. }
  destruct (negb _); intros q; unfold pendingFetches, queuedCleanups in *;
    simpl; rewrite ?count_app; simpl;
    destruct (HJ q) as [Hle Hhas]; unfold pendingFetches, queuedCleanups in *.
  - destruct (decide (p = q)) as [->|Hne].
    + rewrite filter_cons_True by done. simpl. split; [lia|].
      intros _. apply has_set_eq.
    + rewrite filter_cons_False by done. simpl. rewrite Nat.add_0_r.
      split; [done|]. intros Hpos. rewrite has_set_ne by done. by apply Hhas.
  - destruct (decide (p = q)) as [->|Hne].
    + rewrite filter_cons_True by done. simpl. split; [lia|].
      intros _. apply has_set_eq.
    + rewrite filter_cons_False by done. simpl. rewrite Nat.add_0_r.
      split; [done|]. intros Hpos. rewrite has_set_ne by done. by apply Hhas.
Qed.

Lemma tryCatch_frame p r w :
  loadingPromises (fst (tryCatch p r w)) = loadingPromises w ∧
  inflight (fst (tryCatch p r w)) = inflight w ∧
  cleanups (fst (tryCatch p r w)) = cleanups w ∧
  fetchLog (fst (tryCatch p r w)) = fetchLog w ∧
  nextPromise (fst (tryCatch p r w)) = nextPromise w ∧
  settled (fst (tryCatch p r w)) = settled w ∧
  snd (tryCatch p r w) = Fulfilled.
Proof.
  unfold tryCatch, tryBlock. destruct r as [[quads|]|err]; simpl; try done.
  destruct (JsObject.get p zazukoPrefixes) as [ns|]; simpl; [|done].
  by destruct (Str.isEmpty ns).
Qed.

Lemma tryCatch_cached p r w q :
  q ≠ p →
  JsMap.has q (cachedVocabs (fst (tryCatch p r w))) = JsMap.has q (cachedVocabs w).
Proof.
  intros Hne. unfold tryCatch, tryBlock.
  destruct r as [[quads|]|err]; simpl; try done.
  destruct (JsObject.get p zazukoPrefixes) as [ns|]; simpl; [|done].
  destruct (Str.isEmpty ns); simpl; [done|]. by apply has_set_ne.
Qed.

Lemma fetchSettles_unfold p r w w' :
  fetchSettles p r w = Some w' →
  ∃ id rest,
    takeOut (fun f => bool_decide (fst f = p)) (inflight w) = Some ((p, id), rest) ∧
    inflight w ≡ₚ (p, id) :: rest ∧
    w' = mkWorld (cachedVocabs (fst (tryCatch p r w))) (loadingPromises w)
                 (nextPromise w) rest (cleanups w ++ [p]) (fetchLog w)
                 (settled w ++ [(id, Fulfilled)])
                 (errorLog (fst (tryCatch p r w))).
Proof.
  unfold fetchSettles.
  destruct (takeOut _ (inflight w)) as [[[q id] rest]|] eqn:E; [|done].
  destruct (takeOut_Some _ _ _ _ E) as [Hq Hp]. simpl in Hq.
  apply bool_decide_eq_true in Hq as ->.
  destruct (tryCatch_frame p r w) as (Hl & Hi & Hc & Hf & Hn & Hs & Ho).
  destruct (tryCatch p r w) as [w1 o]. simpl in *. subst o.
  intros [= <-]. exists id, rest. rewrite Hl, Hc, Hf, Hn, Hs. done.
Qed.

Lemma singleFlight_fetchSettles p r w w' :
  fetchSettles p r w = Some w' → singleFlight w → singleFlight w'.
Proof.
  intros Hs HJ. apply fetchSettles_unfold in Hs as (id & rest & _ & Hp & ->).
  intros q. destruct (HJ q) as [Hle Hhas].
  unfold pendingFetches, queuedCleanups in *. simpl.
  rewrite (count_perm _ _ _ Hp) in Hle, Hhas. rewrite count_app. simpl.
  destruct (decide (p = q)) as [->|Hne].
  - rewrite filter_cons_True in Hle, Hhas by done.
    rewrite (filter_cons_True (λ q0, q0 = q)) by done. simpl in *.
    split; [lia|]. intros _. apply Hhas. lia.
  - rewrite filter_cons_False in Hle, Hhas by done.
    rewrite (filter_cons_False (λ q0, q0 = q)) by done. simpl.
    rewrite Nat.add_0_r. done.
Qed.

Lemma finally_unfold p w w' :
  finally p w = Some w' →
  ∃ rest,
    cleanups w ≡ₚ p :: rest ∧
    w' = mkWorld (cachedVocabs w) (JsMap.delete p (loadingPromises w))
                 (nextPromise w) (inflight w) rest (fetchLog w)
                 (settled w) (errorLog w).
Proof.
  unfold finally.
  destruct (takeOut _ (cleanups w)) as [[q rest]|] eqn:E; [|done].
  destruct (takeOut_Some _ _ _ _ E) as [Hq Hp].
  apply bool_decide_eq_true in Hq as ->.
  intros [= <-]. by exists rest.
Qed.

Lemma singleFlight_finally p w w' :
  finally p w = Some w' → singleFlight w → singleFlight w'.
Proof.
  intros Hs HJ. apply finally_unfold in Hs as (rest & Hp & ->).
  intros q. destruct (HJ q) as [Hle Hhas].
  unfold pendingFetches, queuedCleanups in *. simpl.
  rewrite (count_perm (λ q0, q0 = q) _ _ Hp) in Hle, Hhas.
  destruct (decide (p = q)) as [->|Hne].
  - rewrite filter_cons_True in Hle, Hhas by done. simpl in *.
    split; [lia|]. intros Hpos. lia.
  - rewrite filter_cons_False in Hle, Hhas by done.
    split; [done|]. intros Hpos. rewrite has_delete_ne by done. by apply Hhas.
Qed.

Lemma singleFlight_step w e w' :
  step w e = Some w' → singleFlight w → singleFlight w'.
Proof.
  destruct e as [p|p r|p]; simpl.
  - intros [= <-]. apply singleFlight_request.
  - apply singleFlight_fetchSettles.
  - apply singleFlight_finally.
Qed.

Lemma pendingUncached_step w e w' :
  step w e = Some w' → singleFlight w → pendingUncached w → pendingUncached w'.
Proof.
  intros Hs HJ HU. destruct e as [p|p r|p]; simpl in Hs.
  - injection Hs as <-. unfold request.
    destruct (JsMap.has p (cachedVocabs w)) eqn:Hc; [done|].
    destruct (JsMap.has p (loadingPromises w)); [done|].
    destruct (JsObject.truthy p zazukoPrefixes) eqn:Ht; simpl; [|exact HU].
    intros q id. simpl. intros [Hin|Hin]%elem_of_app.
    + by apply (HU q id).
    + apply list_elem_of_singleton in Hin. injection Hin as -> ->. done.
  - apply fetchSettles_unfold in Hs as (id & rest & _ & Hp & ->).
    intros q id'. simpl. intros Hin.
    assert (Hin' : (q, id') ∈ inflight w) by (rewrite Hp; by right).
    destruct (HU q id' Hin') as [Hc Ht]. split; [|done].
    destruct (decide (q = p)) as [->|Hne]; [|by rewrite tryCatch_cached].
    exfalso. destruct (HJ p) as [Hle _]. unfold pendingFetches in Hle.
    rewrite (count_perm _ _ _ Hp) in Hle.
    rewrite filter_cons_True in Hle by done. simpl in Hle.
    assert (Hpos : (0 < length (filter (λ f : string * nat, f.1 = p) rest))%nat).
    { apply count_pos_elem. by exists (p, id'). }
    lia.
  - apply finally_unfold in Hs as (rest & _ & ->). exact HU.
Qed.

Lemma reachable_invariants es w w' :
  run w es = Some w' →
  singleFlight w → pendingUncached w →
  singleFlight w' ∧ pendingUncached w'.
Proof.
  revert w. induction es as [|e es IH]; intros w; simpl.
  - intros [= <-]. done.
  - destruct (step w e) as [w1|] eqn:Es; [|done].
    intros Hr HJ HU. apply (IH w1 Hr).
    + by eapply singleFlight_step.
    + by eapply pendingUncached_step.
Qed.

(** Further requests for a key that has a load registered change nothing. *)
Lemma request_attached p w :
  JsMap.has p (cachedVocabs w) = false →
  JsMap.has p (loadingPromises w) = true →
  request p w = w.
Proof. intros Hc Hl. unfold request. by rewrite Hc, Hl. Qed.

Lemma run_requests_attached p w n :
  JsMap.has p (cachedVocabs w) = false →
  JsMap.has p (loadingPromises w) = true →
  run w (replicate n (Request p)) = Some w.
Proof.
  intros Hc Hl. induction n as [|n IH]; simpl; [done|].
  by rewrite request_attached.
Qed.

End WithPackage.

End VocabularyFacts.

(** * The vocabulary cache: the specified properties *)

Module VocabularySpec.
Import Vocabulary JsMapFacts VocabularyFacts.

(** C5.  In every state the engine can reach, whatever the order of
    requests, fetch settlements and [finally] callbacks, each key has at
    most one external fetch that has not settled.  From such a state, any
    number of requests in a row for a key of the package that is neither
    cached nor loading issue exactly one fetch; the first request stores
    the load promise, and every later one finds the state unchanged and
    resolves with that stored promise. *)
Theorem C5_single_flight_per_key `{VocabularyPackage}
    (es : list Event) (w : World) :
  run init es = Some w →
  (∀ q, (pendingFetches q w ≤ 1)%nat) ∧
  (∀ p,
     JsMap.has p (cachedVocabs w) = false →
     JsMap.has p (loadingPromises w) = false →
     JsObject.truthy p zazukoPrefixes = true →
     ∃ w1,
       (∀ n, run w (replicate (S n) (Request p)) = Some w1) ∧
       fetchLog w1 = fetchLog w ++ [p] ∧
       pendingFetches p w1 = 1%nat ∧
       JsMap.get p (loadingPromises w1) = Some (nextPromise w) ∧
       returned p w = Some (nextPromise w) ∧
       returned p w1 = Some (nextPromise w)).
Proof.
  intros Hr.
  destruct (reachable_invariants es init w Hr singleFlight_init
              pendingUncached_init) as [HJ HU].
  split.
  - intros q. destruct (HJ q) as [Hle _]. lia.
  - intros p Hc Hl Ht. exists (request p w).
    assert (Hreq : request p w
              = mkWorld (cachedVocabs w)
                        (JsMap.set p (nextPromise w) (loadingPromises w))
                        (S (nextPromise w)) (inflight w ++ [(p, nextPromise w)])
                        (cleanups w) (fetchLog w ++ [p]) (settled w) (errorLog w)).
    { unfold request. by rewrite Hc, Hl, Ht. }
    split; [|split; [|split; [|split; [|split]]]].
    + intros n. simpl. apply run_requests_attached.
      * by rewrite Hreq.
      * rewrite Hreq. simpl. apply has_set_eq.
    + by rewrite Hreq.
    + rewrite Hreq. unfold pendingFetches. simpl. rewrite count_app. simpl.
      rewrite filter_cons_True by done. simpl.
      destruct (HJ p) as [_ Hhas].
      destruct (decide (0 < pendingFetches p w + queuedCleanups p w)%nat)
        as [Hpos|Hz].
      * apply Hhas in Hpos. congruence.
      * unfold pendingFetches in Hz. lia.
    + rewrite Hreq. simpl. apply get_set_eq.
    + unfold returned. rewrite Hc. unfold JsMap.has in Hl.
      by destruct (JsMap.get p (loadingPromises w)).
    + unfold returned. rewrite Hreq. simpl. rewrite Hc. by rewrite get_set_eq.
Qed.

Lemma C5_single_flight_per_key_witness :
  ∃ w1,
    (∀ n, @run Samples.package init (replicate (S n) (Request "foaf")) = Some w1) ∧
    fetchLog w1 = ["foaf"] ∧ pendingFetches "foaf" w1 = 1%nat.
Proof.
  destruct (@C5_single_flight_per_key Samples.package [] init eq_refl)
    as [_ Hn].
  destruct (Hn "foaf" eq_refl eq_refl eq_refl) as (w1 & Hrun & Hlog & Hp & _).
  exists w1. split; [exact Hrun|]. split; [exact Hlog | exact Hp].
Defined.

(** C9.  When the fetch of a load in flight is rejected, the continuation
    and the [finally] callback run; afterwards the cache is as it was, so
    it has no entry for the key, and the key has left [loadingPromises];
    the error went to the log and nowhere else, the load promise being
    fulfilled; a completion request that awaited the load reads no items
    for the key; and the next request for the key issues a new fetch. *)
Theorem C9_failed_load_reverts_to_unloaded `{VocabularyPackage}
    (es : list Event) (w : World) (p : string) (id : nat) (err : string)
    (replaceRange : Range) :
  run init es = Some w →
  (p, id) ∈ inflight w →
  ∃ w1 w2,
    fetchSettles p (Failed err) w = Some w1 ∧
    finally p w1 = Some w2 ∧
    cachedVocabs w2 = cachedVocabs w ∧
    JsMap.has p (cachedVocabs w2) = false ∧
    JsMap.has p (loadingPromises w2) = false ∧
    errorLog w2
      = errorLog w ++ [("Error loading vocabulary " +:+ p +:+ ":", err)] ∧
    settled w2 = settled w ++ [(id, Fulfilled)] ∧
    (Str.isEmpty p = false →
     Completion.vocabFromPrefix (cachedVocabs w2) p replaceRange = []) ∧
    fetchLog (request p w2) = fetchLog w ++ [p] ∧
    pendingFetches p (request p w2) = 1%nat.
Proof.
  intros Hr Hin.
  destruct (reachable_invariants es init w Hr singleFlight_init
              pendingUncached_init) as [HJ HU].
  destruct (HU p id Hin) as [Hc Ht].
  destruct (takeOut_is_Some (fun f : string * nat => bool_decide (fst f = p))
              (inflight w) (p, id) Hin) as [[[q id'] rest] E];
    [by apply bool_decide_eq_true|].
  destruct (takeOut_Some _ _ _ _ E) as [Hq Hp]. simpl in Hq.
  apply bool_decide_eq_true in Hq as ->.
  assert (Hrest : filter (λ f : string * nat, f.1 = p) rest = []).
  { destruct (HJ p) as [Hle _]. unfold pendingFetches in Hle.
    rewrite (count_perm _ _ _ Hp) in Hle.
    rewrite filter_cons_True in Hle by done. simpl in Hle.
    apply nil_length_inv. lia. }
  assert (id' = id) as ->.
  { rewrite Hp in Hin. apply elem_of_cons in Hin as [[= ->]|Hin]; [done|].
    exfalso. assert (Hf : (p, id) ∈ filter (λ f : string * nat, f.1 = p) rest)
      by (by apply list_elem_of_filter).
    rewrite Hrest in Hf. by apply elem_of_nil in Hf. }
  assert (Hcl : filter (λ q, q = p) (cleanups w) = []).
  { destruct (HJ p) as [Hle _]. unfold pendingFetches, queuedCleanups in Hle.
    rewrite (count_perm _ _ _ Hp) in Hle.
    rewrite filter_cons_True in Hle by done. simpl in Hle.
    apply nil_length_inv. lia. }
  assert (Htake : takeOut (λ q, bool_decide (q = p)) (cleanups w ++ [p])
                  = Some (p, cleanups w)).
  { clear -Hcl. induction (cleanups w) as [|c cs IH]; simpl.
    - by rewrite bool_decide_eq_true_2.
    - destruct (decide (c = p)) as [->|Hne].
      + by rewrite filter_cons_True in Hcl.
      + rewrite filter_cons_False in Hcl by done.
        rewrite bool_decide_eq_false_2 by done. by rewrite (IH Hcl). }
  eexists _, _. split; [|split].
  - unfold fetchSettles. rewrite E. simpl. reflexivity.
  - unfold finally. simpl. rewrite Htake. reflexivity.
  - simpl. split; [done|]. split; [done|].
    split; [apply has_delete_eq|]. split; [done|]. split; [done|].
    split; [|split].
    + intros Hne. unfold Completion.vocabFromPrefix. rewrite Hne. simpl.
      unfold JsMap.has in Hc. by destruct (JsMap.get p (cachedVocabs w)).
    + unfold request. simpl. rewrite Hc, has_delete_eq, Ht. done.
    + unfold request. simpl. rewrite Hc, has_delete_eq, Ht. simpl.
      unfold pendingFetches. simpl. rewrite count_app, Hrest. simpl.
      by rewrite filter_cons_True.
Qed.

Lemma C9_failed_load_reverts_to_unloaded_witness :
  let w := @request Samples.package "foaf" init in
  ∃ w1 w2,
    @fetchSettles Samples.package "foaf" (Failed "network down") w = Some w1 ∧
    finally "foaf" w1 = Some w2 ∧
    cachedVocabs w2 = [] ∧
    JsMap.has "foaf" (loadingPromises w2) = false ∧
    fetchLog (@request Samples.package "foaf" w2) = ["foaf"; "foaf"].
Proof.
  intros w.
  destruct (@C9_failed_load_reverts_to_unloaded Samples.package
              [Request "foaf"] w "foaf" 0%nat "network down" (lineRange 0 0 0)
              eq_refl)
    as (w1 & w2 & H1 & H2 & Hc & _ & Hl & _ & _ & _ & Hf & _).
  { apply (bool_decide_unpack _). vm_compute. exact I. }
  exists w1, w2. split; [exact H1|]. split; [exact H2|].
  split; [exact Hc|]. split; [exact Hl | exact Hf].
Defined.

End VocabularySpec.


(** * The scenarios of the specification, run on the model *)

Module Scenarios.
Import Samples.

(** Scenario 1: the line without terminator is reported, [ex] is reported
    as undeclared, [foaf] is not. *)
Example scenario1_messages :
  Lint.message
    <$> @Lint.basicDiagnostics package Heuristic.extractors ∅ scenario1
  = [ "Turtle statements typically end with '.', ';', or ','";
      "Prefix 'ex' is not declared";
      "Prefix 'ex' is not declared" ].
Proof. vm_compute. reflexivity. Qed.

(** Scenario 4: after the only document that mentions a label is closed,
    a lookup of the label is empty. *)
Example scenario4_closed_document :
  let ix := @Indexer.run Heuristic.extractors
              [Indexer.Reindex docA bobKnows; Indexer.Remove docA] in
  Indexer.getSubjects ix "ex:Bob" = [] ∧ Indexer.getSymbols ix "ex:Bob" = [] ∧
  ix = Indexer.init.
Proof. vm_compute. repeat split. Qed.

(** Scenario 5.  Of two open documents, the one whose text at the range
    was changed behind the back of the index gets no edit. *)
Example scenario5_stale_location :
  let documents : gmap string string :=
    {[ docA := bobKnows; docB := "ex:Rob foaf:knows ex:Alice ." ]} in
  (fun plan => (plan !! docA, plan !! docB))
    <$> @Navigation.rename PlainDocument.api noFiles twoBobs documents
          docA (mkPosition 0 2) "ex:Robert"
  = Some (Some [Navigation.mkTextEdit (lineRange 0 0 6) "ex:Robert";
                Navigation.mkTextEdit (lineRange 0 0 6) "ex:Robert"],
          None).
Proof. vm_compute. reflexivity. Qed.

(** The check reads the old range only: a name that was lengthened to
    [ex:Bobby] still shows [ex:Bob] there and keeps its edits. *)
Example scenario5_lengthened_name :
  let documents : gmap string string :=
    {[ docA := bobKnows; docB := "ex:Bobby foaf:knows ex:Alice ." ]} in
  (fun plan => plan !! docB)
    <$> @Navigation.rename PlainDocument.api noFiles twoBobs documents
          docA (mkPosition 0 2) "ex:Robert"
  = Some (Some [Navigation.mkTextEdit (lineRange 0 0 6) "ex:Robert";
                Navigation.mkTextEdit (lineRange 0 0 6) "ex:Robert"]).
Proof. vm_compute. reflexivity. Qed.

(** The stripping of a line: strings, IRIs and the comment go, and the
    bracket inside the string is not counted. *)
Example sanitize_line :
  let ln := "ex:a ex:b " +:+ String Chars.dquote
              ("[ <x> # y" +:+ String Chars.dquote " , <http://e/#f> ; # (") in
  Lint.sanitize ln = "ex:a ex:b  ,  ; " ∧
  Lint.countChars (Lint.sanitize ln) 91 = 0.
Proof. vm_compute. split; reflexivity. Qed.

Example splitLines_crlf :
  Str.splitLines ("a" +:+ String Chars.CR (String Chars.LF
                    ("b" +:+ String Chars.CR ("c" +:+ String Chars.LF ""))))
  = ["a"; "b" +:+ String Chars.CR "c"; ""].
Proof. reflexivity. Qed.

End Scenarios.


(** * More of the workspace index *)

Module IndexerMoreFacts.
Import Indexer IndexerFacts IndexerQueries.











End IndexerMoreFacts.

Module IndexerMore.
Import Indexer IndexerFacts IndexerQueries IndexerMoreFacts.









End IndexerMore.


(** * Facts on strings, spans and scans *)

Module SpanFacts.

Lemma app_cons c a b : String c a +:+ b = String c (a +:+ b).
Proof. reflexivity. Qed.

Lemma app_nil b : EmptyString +:+ b = b.
Proof. reflexivity. Qed.

Lemma prefix_take m s : String.prefix m s = true → Str.take (String.length m) s = m.
Proof.
  revert s. induction m as [|c m IH]; intros [|c' s]; simpl; try done.
  destruct (ascii_dec c c') as [->|]; [|done].
  intros Hp. by rewrite IH.
Qed.

Lemma prefix_append m s : String.prefix m (m +:+ s) = true.
Proof.
  induction m as [|c m IH]; [by destruct s|].
  rewrite app_cons. simpl. by destruct (ascii_dec c c).
Qed.

Lemma prefix_split m s : String.prefix m s = true → ∃ rest, s = m +:+ rest.
Proof.
  revert s. induction m as [|c m IH]; intros s.
  - intros _. by exists s.
  - destruct s as [|c' s]; simpl; [done|].
    destruct (ascii_dec c c') as [->|]; [|done].
    intros [rest ->]%IH. exists rest. by rewrite app_cons.
Qed.

Lemma prefix_trans a b s :
  String.prefix a b = true → String.prefix b s = true → String.prefix a s = true.
Proof.
  intros [r1 ->]%prefix_split [r2 ->]%prefix_split.
  assert (Hassoc : ∀ x, (x +:+ r1) +:+ r2 = x +:+ (r1 +:+ r2)).
  { intros x. induction x as [|c x IH]; [done|].
    change (String c ((x +:+ r1) +:+ r2) = String c (x +:+ (r1 +:+ r2))).
    by rewrite IH. }
  rewrite Hassoc. apply prefix_append.
Qed.

Lemma prefix_length m s :
  String.prefix m s = true → (String.length m ≤ String.length s)%nat.
Proof.
  intros [rest ->]%prefix_split. rewrite StrFacts.append_length. lia.
Qed.

Lemma drop_length n s :
  String.length (Str.drop n s) = (String.length s - n)%nat.
Proof.
  revert s. induction n as [|n IH]; intros s; simpl; [lia|].
  destruct s as [|c s]; simpl; [done | apply IH].
Qed.

Lemma drop_drop n k s : Str.drop n (Str.drop k s) = Str.drop (k + n) s.
Proof.
  revert s. induction k as [|k IH]; intros s; simpl; [done|].
  destruct s as [|c s]; [by destruct n | apply IH].
Qed.

Lemma drop_append a s : Str.drop (String.length a) (a +:+ s) = s.
Proof. induction a as [|c a IH]; [done | rewrite app_cons; exact IH]. Qed.

Lemma startsWith_drop_eq base value :
  Str.startsWith base value = true →
  value = base +:+ Str.drop (String.length base) value.
Proof.
  unfold Str.startsWith. intros [rest ->]%prefix_split.
  by rewrite drop_append.
Qed.

Lemma take_drop n s : Str.take n s +:+ Str.drop n s = s.
Proof.
  revert s. induction n as [|n IH]; intros s; simpl; [done|].
  destruct s as [|c s]; simpl; [done | rewrite app_cons; f_equal; apply IH].
Qed.

(** The slice that starts where a text is found is that text. *)
Lemma slice_found m s (n : nat) :
  String.prefix m (Str.drop n s) = true →
  Str.slice (Z.of_nat n) (Z.of_nat n + Str.len m) s = m.
Proof.
  intros Hp. pose proof (prefix_length _ _ Hp) as Hl.
  rewrite drop_length in Hl. unfold Str.slice, Str.len.
  destruct m as [|c m].
  - simpl. rewrite Z.add_0_r.
    replace (Z.to_nat _) with 0%nat; [done|].
    destruct (Z.of_nat n <? 0) eqn:E; lia.
  - simpl in Hl.
    assert (Hn : (n < String.length s)%nat) by lia.
    rewrite (proj2 (Z.ltb_ge _ _)) by lia.
    rewrite (proj2 (Z.ltb_ge _ _)) by lia.
    rewrite !Z.min_l by (simpl; lia).
    replace (Z.to_nat (Z.of_nat n + Z.of_nat (String.length (String c m))
                       - Z.of_nat n)) with (String.length (String c m)) by lia.
    rewrite Nat2Z.id. by apply prefix_take.
Qed.

Lemma span_spec p s a b :
  Str.span p s = (a, b) →
  s = a +:+ b ∧ Str.all p a = true ∧
  match b with String c _ => p c = false | EmptyString => True end.
Proof.
  revert a b. induction s as [|c s IH]; intros a b; simpl.
  - intros [= <- <-]. done.
  - destruct (p c) eqn:Ec.
    + destruct (Str.span p s) as [a' b'] eqn:Es. intros [= <- <-].
      destruct (IH a' b' eq_refl) as (-> & Ha & Hb).
      rewrite app_cons. simpl. by rewrite Ec, Ha.
    + intros [= <- <-]. rewrite app_nil. simpl. by rewrite Ec.
Qed.

Lemma span_append p a c rest :
  Str.all p a = true → p c = false →
  Str.span p (a +:+ String c rest) = (a, String c rest).
Proof.
  intros Ha Hc. induction a as [|x a IH].
  - rewrite app_nil. simpl. by rewrite Hc.
  - simpl in Ha. apply andb_true_iff in Ha as [Hx Ha].
    rewrite app_cons. simpl. by rewrite Hx, (IH Ha).
Qed.


Lemma indexOfFrom_found needle pos s (k : nat) :
  String.prefix needle (Str.drop k s) = true →
  ∃ n : nat, Str.indexOfFrom needle pos s = pos + Z.of_nat n ∧ (n ≤ k)%nat ∧
             String.prefix needle (Str.drop n s) = true.
Proof.
  revert pos k. induction s as [|c s IH]; intros pos k Hp.
  - exists 0%nat. assert (Hk : Str.drop k EmptyString = EmptyString) by (by destruct k).
    rewrite Hk in Hp.
    change (Str.indexOfFrom needle pos EmptyString)
      with (if String.prefix needle EmptyString then pos else -1).
    rewrite Hp. split; [lia|]. split; [lia | done].
  - change (Str.indexOfFrom needle pos (String c s))
      with (if String.prefix needle (String c s) then pos
            else Str.indexOfFrom needle (pos + 1) s).
    destruct (String.prefix needle (String c s)) eqn:E.
    + exists 0%nat. split; [lia|]. split; [lia | done].
    + destruct k as [|k]; cbn [Str.drop] in Hp; [congruence|].
      destruct (IH (pos + 1) k Hp) as (n & Hn & Hle & Hpn).
      exists (S n). split; [lia|]. split; [lia | done].
Qed.

Lemma indexOf_found needle s (k : nat) :
  String.prefix needle (Str.drop k s) = true →
  ∃ n : nat, Str.indexOf needle s = Z.of_nat n ∧ (n ≤ k)%nat ∧
             String.prefix needle (Str.drop n s) = true.
Proof.
  intros Hp. destruct (indexOfFrom_found needle 0 s k Hp) as (n & Hn & Hle & Hpn).
  exists n. unfold Str.indexOf. rewrite Hn. split; [lia | done].
Qed.

Lemma trimStart_suffix s : ∃ k, Str.trimStart s = Str.drop k s.
Proof.
  induction s as [|c s [k IH]]; simpl.
  - by exists 0%nat.
  - destruct (Chars.isSpace c); [by exists (S k) | by exists 0%nat].
Qed.

Lemma trimEnd_prefix s : String.prefix (Str.trimEnd s) s = true.
Proof.
  induction s as [|c s IH]; simpl; [done|].
  destruct (Str.trimEnd s) as [|c' t] eqn:E.
  - destruct (Chars.isSpace c); simpl; [done|].
    destruct (ascii_dec c c); [by destruct s | done].
  - simpl. destruct (ascii_dec c c); [exact IH | done].
Qed.

(** A text that starts the trimmed line occurs in the line. *)
Lemma trim_occurs m ln :
  String.prefix m (Str.trim ln) = true →
  ∃ k, String.prefix m (Str.drop k ln) = true.
Proof.
  intros Hp. unfold Str.trim in Hp.
  destruct (trimStart_suffix ln) as [k Hk]. exists k. rewrite <- Hk.
  eapply prefix_trans; [exact Hp | apply trimEnd_prefix].
Qed.

(** Every match of a global scan is found at its index. *)
Lemma scanAll_found matchAt :
  (∀ s m, matchAt s = Some m → String.prefix m s = true) →
  ∀ s skip (pos : nat),
    Forall (fun pm => ∃ n : nat, fst pm = Z.of_nat pos + Z.of_nat n ∧
                       String.prefix (snd pm) (Str.drop n s) = true)
           (Regex.scanAll matchAt skip (Z.of_nat pos) s).
Proof.
  intros Hm. induction s as [|c s IH]; intros skip pos; simpl; [constructor|].
  assert (Hshift : ∀ k,
    Forall (fun pm => ∃ n : nat, fst pm = Z.of_nat pos + Z.of_nat n ∧
                       String.prefix (snd pm) (Str.drop n (String c s)) = true)
           (Regex.scanAll matchAt k (Z.of_nat pos + 1) s)).
  { intros k. replace (Z.of_nat pos + 1) with (Z.of_nat (S pos)) by lia.
    eapply Forall_impl; [apply IH|]. intros pm (n & Hn & Hp).
    exists (S n). split; [lia | done]. }
  destruct skip; [|apply Hshift].
  destruct (matchAt (String c s)) as [m|] eqn:E; [|apply Hshift].
  constructor; [|apply Hshift].
  exists 0%nat. split; [simpl; lia | exact (Hm _ _ E)].
Qed.

Lemma matchAll_found matchAt s pm :
  (∀ s m, matchAt s = Some m → String.prefix m s = true) →
  pm ∈ Regex.matchAll matchAt s →
  ∃ n : nat, fst pm = Z.of_nat n ∧ String.prefix (snd pm) (Str.drop n s) = true.
Proof.
  intros Hm Hin. pose proof (scanAll_found matchAt Hm s 0 0) as Hf.
  rewrite Forall_forall in Hf. destruct (Hf pm Hin) as (n & Hn & Hp).
  exists n. split; [simpl in Hn; lia | done].
Qed.

Lemma matchAll_matches matchAt s pm :
  pm ∈ Regex.matchAll matchAt s → ∃ t, matchAt t = Some (snd pm).
Proof.
  unfold Regex.matchAll. generalize 0%nat at 1. generalize 0.
  induction s as [|c s IH]; intros pos skip; simpl; [by intros ?%elem_of_nil|].
  destruct skip; [|apply IH].
  destruct (matchAt (String c s)) as [m|] eqn:E; [|apply IH].
  intros [->|Hin]%elem_of_cons; [by exists (String c s) | by eapply IH].
Qed.

Lemma elem_of_forEachLine {A} (f : Z → string → list A) idx lines x :
  x ∈ Str.forEachLine f idx lines ↔
  ∃ (i : nat) ln, lines !! i = Some ln ∧ x ∈ f (idx + Z.of_nat i) ln.
Proof.
  revert idx. induction lines as [|l0 lines IH]; intros idx; simpl.
  - split; [by intros ?%elem_of_nil | by intros (i & ln & ? & _)].
  - rewrite elem_of_app, IH. split.
    + intros [Hx | (i & ln & Hl & Hx)].
      * exists 0%nat, l0. simpl. rewrite Z.add_0_r. done.
      * exists (S i), ln. split; [done|].
        by replace (idx + Z.of_nat (S i)) with (idx + 1 + Z.of_nat i) by lia.
    + intros ([|i] & ln & Hl & Hx).
      * left. simpl in Hl. injection Hl as ->. by rewrite Z.add_0_r in Hx.
      * right. exists i, ln. split; [done|].
        by replace (idx + 1 + Z.of_nat i) with (idx + Z.of_nat (S i)) by lia.
Qed.

Lemma lineAt_lookup lines (i : nat) ln :
  lines !! i = Some ln → Util.lineAt lines (Z.of_nat i) = ln.
Proof.
  intros Hl. unfold Util.lineAt. rewrite (proj2 (Z.ltb_ge _ _)) by lia.
  by rewrite Nat2Z.id, Hl.
Qed.

End SpanFacts.


(** * What the indexed ranges point at *)

Module IndexedTextFacts.
Import SpanFacts IndexerQueries.

Lemma prefix_app_same a b c :
  String.prefix b c = true → String.prefix (a +:+ b) (a +:+ c) = true.
Proof.
  intros Hp. induction a as [|x a IH]; [done|].
  rewrite !app_cons. simpl. by destruct (ascii_dec x x).
Qed.

Lemma prefix_cons c a b :
  String.prefix (String c a) (String c b) = String.prefix a b.
Proof. simpl. by destruct (ascii_dec c c). Qed.

Lemma colon_not_wordDash c : Chars.isCode 58 c = true → Chars.isWordDash c = false.
Proof.
  unfold Chars.isCode. intros Hc%Nat.eqb_eq.
  unfold Chars.isWordDash, Chars.isWord, Chars.isAlpha, Chars.isDigit,
    Chars.between, Chars.isCode. rewrite Hc. reflexivity.
Qed.

Lemma isCode_eq n c : Chars.isCode n c = true → c = ascii_of_nat n.
Proof.
  unfold Chars.isCode, Chars.code. intros Hc%Nat.eqb_eq.
  by rewrite <- Hc, ascii_nat_embedding.
Qed.

(** The shape of a match of the symbol pattern. *)
Lemma symbolAt_shape s m :
  Regex.symbolAt s = Some m →
  String.prefix m s = true ∧
  ∃ p loc, m = p +:+ ":" +:+ loc ∧ isName p = true ∧ loc ≠ EmptyString ∧
           Str.all Chars.isWordDash loc = true.
Proof.
  destruct s as [|c s1]; [done|]. unfold Regex.symbolAt.
  destruct (Chars.isAlpha c) eqn:Ec; [|done].
  destruct (Str.span Chars.isWordDash s1) as [run s2] eqn:E1.
  apply span_spec in E1 as (-> & Hrun & _).
  destruct s2 as [|c2 s3]; [done|].
  destruct (Chars.isCode 58 c2) eqn:E2; [|done].
  destruct (Str.span Chars.isWordDash s3) as [loc rest] eqn:E3.
  apply span_spec in E3 as (-> & Hloc & _).
  destruct loc as [|l0 loc]; [done|]. intros [= <-].
  apply isCode_eq in E2 as ->. split.
  - rewrite prefix_cons. apply prefix_app_same.
    rewrite prefix_cons. apply prefix_append.
  - exists (String c run), (String l0 loc). split; [done|].
    split; [simpl; by rewrite Ec, Hrun|]. done.
Qed.

Lemma extractPrefix_name p rest :
  isName p = true → Util.extractPrefix (p +:+ ":" +:+ rest) = p.
Proof.
  destruct p as [|c run]; [done|]. simpl.
  intros [Hc Hrun]%andb_true_iff. rewrite Hc.
  change (":" +:+ rest) with (String (ascii_of_nat 58) rest).
  rewrite (span_append _ run (ascii_of_nat 58) rest Hrun eq_refl). done.
Qed.

Lemma extractPrefix_inv t p :
  Util.extractPrefix t = p → p ≠ EmptyString →
  isName p = true ∧ ∃ rest, t = p +:+ ":" +:+ rest.
Proof.
  destruct t as [|c s1]; simpl; [by intros <- |].
  destruct (Chars.isAlpha c) eqn:Ec; [|by intros <-].
  destruct (Str.span Chars.isWordDash s1) as [run s2] eqn:E1.
  apply span_spec in E1 as (-> & Hrun & _).
  destruct s2 as [|c2 s3]; [by intros <-|].
  destruct (Chars.isCode 58 c2) eqn:E2; [|by intros <-].
  intros <- _. apply isCode_eq in E2 as ->. split.
  - simpl. by rewrite Ec, Hrun.
  - by exists s3.
Qed.

Lemma subjectAt_prefix s m : Regex.subjectAt s = Some m → String.prefix m s = true.
Proof.
  destruct s as [|c s1]; [done|]. unfold Regex.subjectAt.
  destruct (Chars.isAlpha c || Chars.isCode 60 c); [|done].
  destruct (Str.span _ s1) as [a b] eqn:E. intros [= <-].
  apply span_spec in E as (-> & _ & _). cbn [fst].
  rewrite prefix_cons. apply prefix_append.
Qed.

(** The text that a one-line range selects when its label is found at
    its start. *)
Lemma textAt_found lines (i n : nat) ln m :
  lines !! i = Some ln → String.prefix m (Str.drop n ln) = true →
  textAt lines (lineRange (Z.of_nat i) (Z.of_nat n) (Z.of_nat n + Str.len m)) = m.
Proof.
  intros Hl Hp. unfold textAt, lineRange. simpl.
  rewrite (lineAt_lookup _ _ _ Hl). by apply slice_found.
Qed.

Lemma textAt_indexOf lines (i : nat) ln m :
  lines !! i = Some ln → String.prefix m (Str.trim ln) = true →
  0 ≤ Str.indexOf m ln ∧
  textAt lines (lineRange (Z.of_nat i) (Str.indexOf m ln)
                          (Str.indexOf m ln + Str.len m)) = m.
Proof.
  intros Hl Hp. destruct (trim_occurs _ _ Hp) as [k Hk].
  destruct (indexOf_found _ _ _ Hk) as (n & -> & _ & Hn).
  split; [lia|]. by eapply textAt_found.
Qed.

Lemma symbolAt_prefix s m : Regex.symbolAt s = Some m → String.prefix m s = true.
Proof. by intros [? _]%symbolAt_shape. Qed.

Lemma symbol_entry text e :
  e ∈ Indexer.collectSymbolEntries text →
  ∃ (i n : nat) ln t,
    Str.splitLines text !! i = Some ln ∧
    Regex.symbolAt t = Some (label e) ∧
    String.prefix (label e) (Str.drop n ln) = true ∧
    erange e = lineRange (Z.of_nat i) (Z.of_nat n) (Z.of_nat n + Str.len (label e)).
Proof.
  unfold Indexer.collectSymbolEntries. rewrite elem_of_forEachLine.
  intros (i & ln & Hl & He). unfold Indexer.symbolsOfLine in He.
  apply list_elem_of_fmap in He as ([pos m] & -> & Hm).
  destruct (matchAll_found _ _ _ symbolAt_prefix Hm) as (n & Hn & Hp).
  destruct (matchAll_matches _ _ _ Hm) as [t Ht].
  simpl in *. subst pos. exists i, n, ln, t. by rewrite Z.add_0_l.
Qed.

Lemma symbol_textAt text e :
  e ∈ Indexer.collectSymbolEntries text →
  textAt (Str.splitLines text) (erange e) = label e.
Proof.
  intros (i & n & ln & t & Hl & _ & Hp & ->)%symbol_entry.
  by eapply textAt_found.
Qed.

Lemma subject_entry text m e :
  e ∈ Heuristic.collectSubjectEntries text m →
  ∃ (i : nat) ln,
    Str.splitLines text !! i = Some ln ∧
    Heuristic.skipped (Str.trim ln) = false ∧
    Regex.subjectAt (Str.trim ln) = Some (label e) ∧
    erange e = lineRange (Z.of_nat i) (Str.indexOf (label e) ln)
                         (Str.indexOf (label e) ln + Str.len (label e)).
Proof.
  unfold Heuristic.collectSubjectEntries. rewrite elem_of_forEachLine.
  intros (i & ln & Hl & He). unfold Heuristic.subjectOfLine in He.
  destruct (Heuristic.skipped (Str.trim ln)) eqn:Es; [by apply elem_of_nil in He|].
  destruct (Regex.subjectAt (Str.trim ln)) as [l|] eqn:E;
    [|by apply elem_of_nil in He].
  apply list_elem_of_singleton in He as ->. simpl.
  exists i, ln. by rewrite Z.add_0_l.
Qed.

Lemma subject_textAt text m e :
  e ∈ Heuristic.collectSubjectEntries text m →
  textAt (Str.splitLines text) (erange e) = label e.
Proof.
  intros (i & ln & Hl & _ & Hs & ->)%subject_entry.
  by apply textAt_indexOf, subjectAt_prefix.
Qed.

Lemma occurs_drop m j s : occurs m (Str.drop j s) → occurs m s.
Proof. intros [k Hk]. exists (j + k)%nat. by rewrite <- drop_drop. Qed.

Lemma prefix_drop_app m k a r :
  String.prefix m (Str.drop k a) = true →
  String.prefix m (Str.drop k (a +:+ r)) = true.
Proof.
  revert a. induction k as [|k IH]; intros a Hp.
  - simpl in *. eapply prefix_trans; [exact Hp | apply prefix_append].
  - destruct a as [|c a].
    + simpl in Hp. destruct m; [by destruct (Str.drop _ _) | done].
    + rewrite app_cons. simpl. apply IH. exact Hp.
Qed.

Lemma occurs_trim m ln : occurs m (Str.trim ln) → occurs m ln.
Proof.
  unfold Str.trim. intros [k Hk].
  destruct (trimStart_suffix ln) as [j Hj]. rewrite Hj in Hk.
  apply (occurs_drop m j). exists k.
  destruct (prefix_split _ _ (trimEnd_prefix (Str.drop j ln))) as [r Hr].
  rewrite Hr. by apply prefix_drop_app.
Qed.

(** The two groups of a fallback prefix declaration. *)
Lemma prefixDeclAt_shape s p i :
  Regex.prefixDeclAt s = Some (p, i) →
  isName p = true ∧ occurs p s ∧ i ≠ EmptyString ∧
  Str.all (fun x => negb (Chars.isCode 62 x)) i = true.
Proof.
  unfold Regex.prefixDeclAt.
  set (s0 := match s with
             | String c s' => if Chars.isCode 64 c then s' else s
             | EmptyString => s
             end).
  assert (Hs0 : ∃ j, s0 = Str.drop j s).
  { subst s0. destruct s as [|c s']; [by exists 0%nat|].
    destruct (Chars.isCode 64 c); [by exists 1%nat | by exists 0%nat]. }
  destruct Hs0 as [j Hj]. clearbody s0.
  destruct (negb (String.prefix "prefix" (Str.toLowerCase s0))); [done|].
  destruct (Str.span Chars.isSpace (Str.drop 6 s0)) as [ws s1] eqn:E1.
  apply span_spec in E1 as (E1 & _ & _).
  destruct (Str.isEmpty ws); [done|].
  destruct s1 as [|c s2]; [done|].
  destruct (negb (Chars.isAlpha c)) eqn:Ec; [done|].
  destruct (Str.span Chars.isWordDash s2) as [run s3] eqn:E2.
  apply span_spec in E2 as (-> & Hrun & _).
  destruct s3 as [|c3 s4]; [done|].
  destruct (negb (Chars.isCode 58 c3)); [done|].
  destruct (snd (Str.span Chars.isSpace s4)) as [|c5 s6]; [done|].
  destruct (negb (Chars.isCode 60 c5)); [done|].
  destruct (Str.span _ s6) as [body s7] eqn:E3.
  apply span_spec in E3 as (_ & Hbody & _).
  destruct body as [|b0 body]; [done|]. destruct s7; [done|].
  intros [= <- <-]. apply negb_false_iff in Ec.
  split; [simpl; by rewrite Ec, Hrun|]. split; [|done].
  apply (occurs_drop _ j). rewrite <- Hj.
  apply (occurs_drop _ 6). rewrite E1.
  exists (String.length ws). rewrite drop_append, prefix_cons.
  apply prefix_append.
Qed.

Lemma namespace_entry text e :
  e ∈ Heuristic.collectNamespaceEntries text →
  ∃ (i : nat) ln,
    Str.splitLines text !! i = Some ln ∧
    Regex.prefixDeclAt (Str.trim ln) = Some (prefix e, iri e) ∧
    nrange e = lineRange (Z.of_nat i) (Str.indexOf (prefix e) ln)
                         (Str.indexOf (prefix e) ln + Str.len (prefix e)).
Proof.
  unfold Heuristic.collectNamespaceEntries. rewrite elem_of_forEachLine.
  intros (i & ln & Hl & He). unfold Heuristic.namespaceOfLine in He.
  destruct (Regex.prefixDeclAt (Str.trim ln)) as [[p ir]|] eqn:E;
    [|by apply elem_of_nil in He].
  apply list_elem_of_singleton in He as ->. simpl.
  exists i, ln. by rewrite Z.add_0_l.
Qed.

Lemma namespace_textAt text e :
  e ∈ Heuristic.collectNamespaceEntries text →
  0 ≤ character (range_start (nrange e)) ∧
  textAt (Str.splitLines text) (nrange e) = prefix e.
Proof.
  intros (i & ln & Hl & Hd & ->)%namespace_entry.
  apply prefixDeclAt_shape in Hd as (_ & Hocc%occurs_trim & _).
  destruct Hocc as [k Hk].
  destruct (indexOf_found _ _ _ Hk) as (n & -> & _ & Hn).
  split; [simpl; lia|]. by eapply textAt_found.
Qed.

End IndexedTextFacts.


Module IndexedText.
Import SpanFacts IndexerQueries IndexedTextFacts.

(** X7. Every entry that [collectSymbolEntries] builds lies on one line of
    the text, starts at a non-negative column, is as long as its label,
    and the text of that line between its two columns is the label. *)
Theorem X7_symbol_range_covers_label (text : string) (e : Entry) :
  e ∈ Indexer.collectSymbolEntries text →
  ∃ (i n : nat),
    (i < length (Str.splitLines text))%nat ∧
    erange e = lineRange (Z.of_nat i) (Z.of_nat n) (Z.of_nat n + Str.len (label e)) ∧
    textAt (Str.splitLines text) (erange e) = label e.
Proof.
  intros He. pose proof (symbol_textAt _ _ He) as Ht.
  destruct (symbol_entry _ _ He) as (i & n & ln & t & Hl & _ & _ & Hr).
  exists i, n. split; [by eapply lookup_lt_Some|]. done.
Qed.

Lemma X7_symbol_range_covers_label_witness :
  ∃ (i n : nat),
    (i < length (Str.splitLines Samples.bobKnows))%nat ∧
    erange (mkEntry "foaf:knows" (lineRange 0 7 17))
      = lineRange (Z.of_nat i) (Z.of_nat n) (Z.of_nat n + Str.len "foaf:knows") ∧
    textAt (Str.splitLines Samples.bobKnows) (lineRange 0 7 17) = "foaf:knows".
Proof.
  apply (X7_symbol_range_covers_label Samples.bobKnows
           (mkEntry "foaf:knows" (lineRange 0 7 17))).
  vm_compute. apply list_elem_of_further, list_elem_of_here.
Defined.

(** X8. Every symbol label is a prefix name, a colon and a non-empty
    local part of word characters and dashes; [extractPrefix] gives back
    that prefix name, so it is never empty on a symbol label. *)
Theorem X8_symbol_label_is_prefixed_name (text : string) (e : Entry) :
  e ∈ Indexer.collectSymbolEntries text →
  ∃ p loc,
    label e = p +:+ ":" +:+ loc ∧ isName p = true ∧ loc ≠ EmptyString ∧
    Str.all Chars.isWordDash loc = true ∧
    Util.extractPrefix (label e) = p.
Proof.
  intros (i & n & ln & t & _ & Ht & _ & _)%symbol_entry.
  apply symbolAt_shape in Ht as (_ & p & loc & Hm & Hp & Hloc & Hall).
  exists p, loc. rewrite Hm. repeat split; try done.
  by apply extractPrefix_name.
Qed.

Lemma X8_symbol_label_is_prefixed_name_witness :
  ∃ p loc,
    "foaf:knows" = p +:+ ":" +:+ loc ∧ isName p = true ∧ loc ≠ EmptyString ∧
    Str.all Chars.isWordDash loc = true ∧
    Util.extractPrefix "foaf:knows" = p.
Proof.
  apply (X8_symbol_label_is_prefixed_name Samples.bobKnows
           (mkEntry "foaf:knows" (lineRange 0 7 17))).
  vm_compute. apply list_elem_of_further, list_elem_of_here.
Defined.

(** X9. When the text does not parse, every subject entry is taken from a
    line that is not blank, not a directive and not a comment; its label
    starts the trimmed line with a letter or an opening angle bracket and
    runs up to white space or a closing bracket, and its range selects
    exactly the label on that line. *)
Theorem X9_fallback_subject_entry (text : string) (m : JsObject.t) (e : Entry) :
  e ∈ Heuristic.collectSubjectEntries text m →
  ∃ (i : nat) ln c rest,
    Str.splitLines text !! i = Some ln ∧
    Heuristic.skipped (Str.trim ln) = false ∧
    String.prefix (label e) (Str.trim ln) = true ∧
    label e = String c rest ∧
    (Chars.isAlpha c || Chars.isCode 60 c) = true ∧
    Str.all (fun x => negb (Chars.isSpace x) && negb (Chars.isCode 62 x)) rest = true ∧
    line (range_start (erange e)) = Z.of_nat i ∧
    0 ≤ character (range_start (erange e)) ∧
    textAt (Str.splitLines text) (erange e) = label e.
Proof.
  intros He. pose proof (subject_textAt _ _ _ He) as Ht.
  destruct (subject_entry _ _ _ He) as (i & ln & Hl & Hsk & Hs & Hr).
  pose proof (subjectAt_prefix _ _ Hs) as Hp.
  destruct (textAt_indexOf _ _ _ _ Hl Hp) as [Hge _].
  unfold Regex.subjectAt in Hs.
  destruct (Str.trim ln) as [|c s1] eqn:Etrim; [done|].
  destruct (Chars.isAlpha c || Chars.isCode 60 c) eqn:Ec; [|done].
  destruct (Str.span _ s1) as [a b] eqn:E.
  apply span_spec in E as (_ & Ha & _). simpl in Hs.
  injection Hs as Hs.
  exists i, ln, c, a.
  split; [done|]. split; [by rewrite Etrim|]. split; [by rewrite Etrim|].
  split; [done|]. split; [done|]. split; [done|].
  split; [by rewrite Hr|]. split; [by rewrite Hr|]. done.
Qed.

Lemma X9_fallback_subject_entry_witness :
  ∃ (i : nat) ln c rest,
    Str.splitLines Samples.bobKnows !! i = Some ln ∧
    Heuristic.skipped (Str.trim ln) = false ∧
    String.prefix "ex:Bob" (Str.trim ln) = true ∧
    "ex:Bob" = String c rest ∧
    (Chars.isAlpha c || Chars.isCode 60 c) = true ∧
    Str.all (fun x => negb (Chars.isSpace x) && negb (Chars.isCode 62 x)) rest = true ∧
    0 = Z.of_nat i ∧ 0 ≤ 0 ∧
    textAt (Str.splitLines Samples.bobKnows) (lineRange 0 0 6) = "ex:Bob".
Proof.
  apply (X9_fallback_subject_entry Samples.bobKnows []
           (mkEntry "ex:Bob" (lineRange 0 0 6))).
  vm_compute. apply list_elem_of_here.
Defined.

(** X10. When the text does not parse, every prefix entry carries a prefix
    name, a non-empty IRI without a closing angle bracket, and a range
    that selects exactly the prefix name on its line. *)
Theorem X10_fallback_prefix_entry (text : string) (e : NamespaceEntry) :
  e ∈ Heuristic.collectNamespaceEntries text →
  isName (prefix e) = true ∧
  iri e ≠ EmptyString ∧
  Str.all (fun x => negb (Chars.isCode 62 x)) (iri e) = true ∧
  0 ≤ character (range_start (nrange e)) ∧
  textAt (Str.splitLines text) (nrange e) = prefix e.
Proof.
  intros He. destruct (namespace_textAt _ _ He) as [Hge Ht].
  destruct (namespace_entry _ _ He) as (i & ln & _ & Hd & _).
  apply prefixDeclAt_shape in Hd as (Hn & _ & Hi & Hall). done.
Qed.

Lemma X10_fallback_prefix_entry_witness :
  isName "foaf" = true ∧
  "http://xmlns.com/foaf/0.1/" ≠ EmptyString ∧
  Str.all (fun x => negb (Chars.isCode 62 x)) "http://xmlns.com/foaf/0.1/" = true ∧
  0 ≤ 8 ∧
  textAt (Str.splitLines Samples.scenario1) (lineRange 0 8 12) = "foaf".
Proof.
  apply (X10_fallback_prefix_entry Samples.scenario1
           (mkNamespaceEntry "foaf" "http://xmlns.com/foaf/0.1/" (lineRange 0 8 12))).
  vm_compute. apply list_elem_of_here.
Defined.

(** X11. A file that still holds the text it was indexed from confirms
    every entry of its record: the check that rename and the lookups run
    against the file on disk accepts each prefix, subject and symbol entry
    under its own label. *)
Theorem X11_unchanged_file_confirms_entries `{TextDocumentApi} `{FileSystem}
    (u text : string) (e : Entry) :
  readFileSafe (toFsPath u) = Some text →
  e ∈ entriesOf (@recordOf Heuristic.extractors text) →
  Util.rangeMatchesWord u (erange e) (label e) None = true.
Proof.
  intros Hread He. unfold Util.rangeMatchesWord.
  destruct (Str.startsWith "file://" u); [|done]. rewrite Hread.
  destruct (Str.isEmpty text); [done|].
  apply bool_decide_eq_true. change (textAt (Str.splitLines text) (erange e) = label e).
  unfold entriesOf, recordOf in He. simpl in He.
  apply elem_of_app in He as [He|He]; [|apply elem_of_app in He as [He|He]].
  - apply list_elem_of_fmap in He as (p & -> & Hp). simpl.
    by apply namespace_textAt.
  - by eapply subject_textAt.
  - by apply symbol_textAt.
Qed.

Lemma X11_unchanged_file_confirms_entries_witness :
  @Util.rangeMatchesWord PlainDocument.api MoreSamples.oneFile
    Samples.docA (lineRange 0 18 26) "ex:Alice" None = true.
Proof.
  apply (@X11_unchanged_file_confirms_entries PlainDocument.api MoreSamples.oneFile
           Samples.docA Samples.bobKnows (mkEntry "ex:Alice" (lineRange 0 18 26))).
  - reflexivity.
  - vm_compute. do 3 apply list_elem_of_further. apply list_elem_of_here.
Defined.

(** X12. [extractPrefix] returns a non-empty result exactly on tokens that
    start with a prefix name directly followed by a colon, and then it
    returns that name. *)
Theorem X12_extractPrefix_characterised (token p : string) :
  Util.extractPrefix token = p ∧ p ≠ EmptyString ↔
  isName p = true ∧ ∃ rest, token = p +:+ ":" +:+ rest.
Proof.
  split.
  - intros [Hp Hne]. by apply extractPrefix_inv.
  - intros [Hn [rest ->]]. split; [by apply extractPrefix_name|].
    by destruct p.
Qed.

End IndexedText.


(** * Subjects that are symbols too *)

Module OverlapFacts.
Import SpanFacts IndexerQueries IndexedTextFacts.

















End OverlapFacts.


(** * Navigation: lookups and the rename plan *)

Module NavigationMore.
Import SpanFacts IndexerQueries IndexedTextFacts OverlapFacts Navigation.

(** X13. [definition] and [references] answer with the same locations,
    each as many times, in a different order. *)
Theorem X13_definition_references_same_locations `{TextDocumentApi}
    (indexer : Indexer.t) (documents : gmap string TextDocument)
    (u : string) (position : Position) :
  definition indexer documents u position
  ≡ₚ references indexer documents u position.
Proof.
  unfold definition, references, candidates.
  destruct (documents !! u) as [doc|]; [|done].
  destruct (Util.currentWord doc position) as [word|]; [|done].
  set (P := Indexer.getPrefixes indexer word).
  set (C := if Str.endsWith ":" word
            then Indexer.getPrefixes indexer (dropLastColon word) else []).
  rewrite (app_assoc P C), (app_assoc P C).
  apply Permutation_app_swap_app.
Qed.

(** X14. A rename plan binds no document to an empty edit list; every
    edit of the plan carries the new name and sits at a location that
    [references] returns for the same position. *)
Theorem X14_rename_edits_within_references `{TextDocumentApi} `{FileSystem}
    (indexer : Indexer.t) (documents : gmap string TextDocument)
    (u : string) (position : Position) (newName : string)
    (plan : gmap string (list TextEdit)) :
  rename indexer documents u position newName = Some plan →
  ∀ u',
    plan !! u' ≠ Some [] ∧
    ∀ ed, ed ∈ default [] (plan !! u') →
          newText ed = newName ∧
          mkLocation u' (trange ed) ∈ references indexer documents u position.
Proof.
  intros Hr u'.
  destruct (documents !! u) as [doc|] eqn:Hd;
    [|by unfold rename in Hr; rewrite Hd in Hr].
  destruct (Util.currentWord doc position) as [word|] eqn:Hw;
    [|by unfold rename in Hr; rewrite Hd, Hw in Hr].
  rewrite (NavigationSpec.rename_unfold indexer documents u position newName
             doc word Hd Hw) in Hr.
  simpl in Hr. case_decide; [done|]. injection Hr as <-. split.
  - rewrite NavigationSpec.lookup_addEdits, lookup_empty.
    destruct (filter _ _); [done|]. simpl. discriminate.
  - intros ed. rewrite NavigationSpec.default_addEdits.
    intros (loc & -> & Hloc)%list_elem_of_fmap.
    apply list_elem_of_filter in Hloc as [Hu Hloc].
    apply list_elem_of_filter in Hloc as [_ Hloc].
    split; [done|]. unfold references. rewrite Hd, Hw.
    destruct loc as [lu lr]. simpl in *. by subst.
Qed.

Lemma X14_rename_edits_within_references_witness :
  ∃ plan,
    @rename PlainDocument.api Samples.noFiles Samples.twoBobs Samples.onlyAOpen
      Samples.docA (mkPosition 0 2) "ex:Robert" = Some plan ∧
    ∀ u',
      plan !! u' ≠ Some [] ∧
      ∀ ed, ed ∈ default [] (plan !! u') →
            newText ed = "ex:Robert" ∧
            mkLocation u' (trange ed)
            ∈ @references PlainDocument.api Samples.twoBobs Samples.onlyAOpen
                Samples.docA (mkPosition 0 2).
Proof.
  destruct (@rename PlainDocument.api Samples.noFiles Samples.twoBobs
              Samples.onlyAOpen Samples.docA (mkPosition 0 2) "ex:Robert")
    as [plan|] eqn:E.
  - exists plan. split; [reflexivity|].
    exact (@X14_rename_edits_within_references PlainDocument.api Samples.noFiles
             Samples.twoBobs Samples.onlyAOpen Samples.docA (mkPosition 0 2)
             "ex:Robert" plan E).
  - exfalso. vm_compute in E. discriminate E.
Defined.



End NavigationMore.


(** * Completion: candidates, deduplication and order *)

Module CompletionMoreFacts.
Import SpanFacts IndexerQueries IndexedTextFacts Completion CompletionFacts.

Lemma elem_of_distinct seen xs x :
  x ∈ distinct seen xs ↔ x ∈ xs ∧ x ∉ seen.
Proof.
  revert seen. induction xs as [|y xs IH]; intros seen; simpl.
  - split; [by intros ?%elem_of_nil | by intros [?%elem_of_nil _]].
  - case_bool_decide as Hy.
    + rewrite IH, elem_of_cons. split; [tauto|].
      intros [[->|?] Hn]; [done | tauto].
    + rewrite elem_of_cons, IH, !elem_of_cons. split.
      * intros [->|[? Hn]]; [tauto|]. split; [tauto|]. intros ?. apply Hn. by right.
      * intros [[->|Hx] Hn]; [by left|].
        destruct (decide (x = y)) as [->|Hne]; [by left|].
        right. split; [done|]. intros [?|?]; done.
Qed.

Lemma distinct_NoDup seen xs : NoDup (distinct seen xs).
Proof.
  revert seen. induction xs as [|y xs IH]; intros seen; simpl; [constructor|].
  case_bool_decide; [apply IH|].
  constructor; [|apply IH].
  rewrite elem_of_distinct. intros [_ Hn]. apply Hn. by left.
Qed.

Lemma dedupe_labels seen items :
  label <$> dedupe seen items = distinct seen (label <$> items).
Proof.
  revert seen. induction items as [|x items IH]; intros seen; simpl; [done|].
  case_bool_decide; [apply IH|]. simpl. by rewrite IH.
Qed.

(** What [dedupe] keeps is the first item of its label. *)
Lemma dedupe_first seen items it :
  it ∈ dedupe seen items →
  ∃ i, items !! i = Some it ∧
       ∀ j x, (j < i)%nat → items !! j = Some x → label x ≠ label it.
Proof.
  revert seen. induction items as [|y items IH]; intros seen; simpl.
  - by intros ?%elem_of_nil.
  - assert (Hlater : ∀ seen', label y ∈ seen' → it ∈ dedupe seen' items →
              ∃ i, (y :: items) !! i = Some it ∧
                   ∀ j x, (j < i)%nat → (y :: items) !! j = Some x →
                          label x ≠ label it).
    { intros seen' Hy Hin.
      assert (Hne : label y ≠ label it).
      { intros Heq. assert (Hl : label it ∈ label <$> dedupe seen' items)
          by (apply list_elem_of_fmap; by exists it).
        rewrite dedupe_labels, elem_of_distinct in Hl.
        destruct Hl as [_ Hn]. apply Hn. by rewrite <- Heq. }
      destruct (IH seen' Hin) as (i & Hi & Hfirst).
      exists (S i). split; [done|]. intros [|j] x Hj Hx; simpl in Hx.
      - by injection Hx as <-.
      - apply (Hfirst j x); [lia | done]. }
    case_bool_decide as Hy.
    + by apply Hlater.
    + intros [->|Hin]%elem_of_cons.
      * exists 0%nat. split; [done|]. intros j x Hj. lia.
      * apply (Hlater (label y :: seen)); [by left | done].
Qed.

Section WithCollation.
Context `{Collation}.

Lemma insertSorted_perm x l : insertSorted x l ≡ₚ x :: l.
Proof.
  induction l as [|y l IH]; simpl; [done|].
  destruct (localeCompare _ _); [done | done |].
  rewrite IH. apply Permutation_swap.
Qed.

Lemma sort_perm l : sort l ≡ₚ l.
Proof.
  induction l as [|x l IH]; simpl; [done|].
  by rewrite insertSorted_perm, IH.
Qed.

End WithCollation.

Lemma abbreviateOver_spec value entries :
  (abbreviateOver value entries = value ∧
   ∀ p base, (p, base) ∈ entries →
     ¬ (Str.startsWith base value = true
        ∧ (String.length base < String.length value)%nat))
  ∨ ∃ i p base,
      entries !! i = Some (p, base) ∧
      Str.startsWith base value = true ∧
      (String.length base < String.length value)%nat ∧
      abbreviateOver value entries
      = p +:+ ":" +:+ Str.drop (String.length base) value ∧
      ∀ j q b, (j < i)%nat → entries !! j = Some (q, b) →
        ¬ (Str.startsWith b value = true
           ∧ (String.length b < String.length value)%nat).
Proof.
  induction entries as [|[p base] rest IH]; simpl.
  - left. split; [done|]. by intros p base ?%elem_of_nil.
  - destruct (Str.startsWith base value) eqn:Es;
      [destruct (String.length base <? String.length value)%nat eqn:El|]; simpl.
    + right. exists 0%nat, p, base. apply Nat.ltb_lt in El.
      repeat split; try done. intros j q b Hj. lia.
    + apply Nat.ltb_ge in El. destruct IH as [[Heq Hno]|(i & q & b & Hi & Hs & Hl & Heq & Hfirst)].
      * left. split; [done|]. intros q b [[= -> ->]|Hin]%elem_of_cons.
        -- intros [_ ?]. lia.
        -- exact (Hno q b Hin).
      * right. exists (S i), q, b. repeat split; try done.
        intros [|j] q' b' Hj Hq; simpl in Hq.
        -- injection Hq as <- <-. intros [_ ?]. lia.
        -- apply (Hfirst j q' b'); [lia|done].
    + destruct IH as [[Heq Hno]|(i & q & b & Hi & Hs & Hl & Heq & Hfirst)].
      * left. split; [done|]. intros q b [[= -> ->]|Hin]%elem_of_cons.
        -- rewrite Es. by intros [? _].
        -- exact (Hno q b Hin).
      * right. exists (S i), q, b. repeat split; try done.
        intros [|j] q' b' Hj Hq; simpl in Hq.
        -- injection Hq as <- <-. rewrite Es. by intros [? _].
        -- apply (Hfirst j q' b'); [lia|done].
Qed.

End CompletionMoreFacts.


Module CompletionMore.
Import SpanFacts IndexerQueries IndexedTextFacts.
Import Completion CompletionFacts CompletionMoreFacts.

Lemma build_labels `{Collation} `{TextDocumentApi} `{CommonItems}
    (indexer : Indexer.t) (cachedVocabs : JsMap.t (list CompletionItem))
    (doc : TextDocument) (position : Position)
    (namespaces : list NamespaceEntry) (namespaceMap : JsObject.t) :
  label <$> build indexer cachedVocabs doc position namespaces namespaceMap
  ≡ₚ distinct [] (label <$> allItems indexer cachedVocabs doc position
                              namespaces namespaceMap).
Proof.
  unfold build, rank. rewrite sort_perm, dedupe_labels.
  rewrite <- list_fmap_compose.
  by rewrite (list_fmap_ext (label ∘ withSort _ _) label _ (fun _ _ _ => eq_refl)).
Qed.

Lemma build_keys `{Collation} `{TextDocumentApi} `{CommonItems}
    (indexer : Indexer.t) (cachedVocabs : JsMap.t (list CompletionItem))
    (doc : TextDocument) (position : Position)
    (namespaces : list NamespaceEntry) (namespaceMap : JsObject.t) it :
  let current := default EmptyString (Util.currentWord doc position) in
  let currentPrefix := Util.detectPrefixAtPosition doc position current in
  it ∈ build indexer cachedVocabs doc position namespaces namespaceMap →
  sortKey it
  = bucketOf currentPrefix (Str.toLowerCase current) it +:+ "_" +:+ label it.
Proof.
  intros current currentPrefix Hin. unfold build, rank in Hin.
  apply sort_elem, dedupe_elem in Hin.
  apply list_elem_of_fmap in Hin as (it0 & -> & _). done.
Qed.

(** X16. [build] returns one item for every label among its candidates:
    the labels of the result are pairwise different, they are exactly the
    labels of the candidates, and the item returned for a label is the
    first candidate of that label, with its sort key attached. *)
Theorem X16_build_one_item_per_label `{Collation} `{TextDocumentApi} `{CommonItems}
    (indexer : Indexer.t) (cachedVocabs : JsMap.t (list CompletionItem))
    (doc : TextDocument) (position : Position)
    (namespaces : list NamespaceEntry) (namespaceMap : JsObject.t) :
  let current := default EmptyString (Util.currentWord doc position) in
  let currentPrefix := Util.detectPrefixAtPosition doc position current in
  let cands := allItems indexer cachedVocabs doc position namespaces namespaceMap in
  let out := build indexer cachedVocabs doc position namespaces namespaceMap in
  NoDup (label <$> out) ∧
  (∀ l, l ∈ label <$> out ↔ l ∈ label <$> cands) ∧
  (∀ it', it' ∈ out →
     ∃ i it, cands !! i = Some it ∧
             it' = withSort currentPrefix (Str.toLowerCase current) it ∧
             ∀ j x, (j < i)%nat → cands !! j = Some x → label x ≠ label it).
Proof.
  intros current currentPrefix cands out.
  set (ws := withSort currentPrefix (Str.toLowerCase current)).
  pose proof (build_labels indexer cachedVocabs doc position namespaces
                namespaceMap) as Hperm.
  fold out cands in Hperm.
  split; [|split].
  - rewrite Hperm. apply distinct_NoDup.
  - intros l. rewrite Hperm, elem_of_distinct. split; [tauto|].
    intros ?. split; [done | by intros ?%elem_of_nil].
  - intros it' Hin. unfold out, build, rank in Hin.
    apply (proj1 (sort_elem _ _)) in Hin.
    fold current currentPrefix ws cands in Hin.
    destruct (dedupe_first _ _ _ Hin) as (i & Hi & Hfirst).
    rewrite list_lookup_fmap in Hi.
    destruct (cands !! i) as [it|] eqn:Ei; [|done]. injection Hi as <-.
    exists i, it. split; [done|]. split; [done|].
    intros j x Hj Hx. apply (Hfirst j (ws x) Hj).
    by rewrite list_lookup_fmap, Hx.
Qed.

(** X17. Under a lawful collation the list that [build] returns is sorted
    by sort key, and no two of its items have the same sort key. *)
Theorem X17_build_sorted_by_key `{Collation} `{TextDocumentApi} `{CommonItems}
    (indexer : Indexer.t) (cachedVocabs : JsMap.t (list CompletionItem))
    (doc : TextDocument) (position : Position)
    (namespaces : list NamespaceEntry) (namespaceMap : JsObject.t) :
  Lawful H →
  let out := build indexer cachedVocabs doc position namespaces namespaceMap in
  ∀ i j a b,
    out !! i = Some a → out !! j = Some b → (i < j)%nat →
    localeCompare (sortKey a) (sortKey b) ≠ Gt ∧ sortKey a ≠ sortKey b.
Proof.
  intros Hlaw out i j a b Hi Hj Hlt. split.
  - exact (sorted_lookup out i j a b (sort_sorted Hlaw _) Hi Hj Hlt).
  - rewrite (build_keys indexer cachedVocabs doc position namespaces namespaceMap a),
      (build_keys indexer cachedVocabs doc position namespaces namespaceMap b)
      by (by eapply list_elem_of_lookup_2).
    set (cp := Util.detectPrefixAtPosition doc position _).
    set (q := Str.toLowerCase _).
    intros Heq.
    assert (Hlab : label a = label b).
    { pose proof (bucketOf_in_buckets cp q a) as Ha.
      pose proof (bucketOf_in_buckets cp q b) as Hb.
      unfold buckets in Ha, Hb.
      repeat (apply elem_of_cons in Ha as [Ha|Ha]; [rewrite Ha in Heq|]);
        [..|by apply elem_of_nil in Ha];
      repeat (apply elem_of_cons in Hb as [Hb|Hb]; [rewrite Hb in Heq|]);
        try (by apply elem_of_nil in Hb);
      by injection Heq. }
    assert (Hnd : NoDup (label <$> out)).
    { unfold out. rewrite build_labels. apply distinct_NoDup. }
    assert (Hij : i = j); [|lia].
    eapply (NoDup_lookup _ _ _ (label a) Hnd).
    + by rewrite list_lookup_fmap, Hi.
    + by rewrite list_lookup_fmap, Hj, Hlab.
Qed.

Lemma X17_build_sorted_by_key_witness :
  let out := @build codeUnitOrder PlainDocument.api Samples.noCommonItems
               Samples.typingIndexed [] Samples.typingPre Samples.afterPre []
               Lint.defaultPrefixes in
  Lawful codeUnitOrder ∧
  ∀ i j a b,
    out !! i = Some a → out !! j = Some b → (i < j)%nat →
    @localeCompare codeUnitOrder (sortKey a) (sortKey b) ≠ Gt
    ∧ sortKey a ≠ sortKey b.
Proof.
  intros out. split; [exact codeUnitOrder_lawful|].
  exact (@X17_build_sorted_by_key codeUnitOrder PlainDocument.api
           Samples.noCommonItems Samples.typingIndexed [] Samples.typingPre
           Samples.afterPre [] Lint.defaultPrefixes codeUnitOrder_lawful).
Defined.

(** X18. [abbreviateWithPrefixes] leaves a value alone unless it starts
    with [http://] or [https://] and some base of the map is a proper
    start of it; then the first such entry of the map decides, and the
    result is its prefix, a colon and the non-empty rest of the value
    after the base. *)
Theorem X18_abbreviate_first_proper_base (value : string) (m : JsObject.t) :
  let r := abbreviateWithPrefixes value m in
  let web := Str.startsWith "http://" value || Str.startsWith "https://" value in
  let proper (b : string) :=
    Str.startsWith b value = true ∧ (String.length b < String.length value)%nat in
  (web = false → r = value) ∧
  (web = true →
     (r = value ∧ ∀ p base, (p, base) ∈ m → ¬ proper base)
     ∨ ∃ i p base loc,
         m !! i = Some (p, base) ∧ value = base +:+ loc ∧ loc ≠ EmptyString ∧
         r = p +:+ ":" +:+ loc ∧
         ∀ j q b, (j < i)%nat → m !! j = Some (q, b) → ¬ proper b).
Proof.
  intros r web proper. unfold r, abbreviateWithPrefixes. fold web. split.
  - by intros ->.
  - intros ->. simpl.
    destruct (abbreviateOver_spec value m)
      as [[Heq Hno]|(i & p & base & Hi & Hs & Hl & Heq & Hfirst)].
    + left. by split.
    + right. exists i, p, base, (Str.drop (String.length base) value).
      split; [done|]. split; [by apply startsWith_drop_eq|]. split; [|done].
      intros Hd. pose proof (drop_length (String.length base) value) as Hlen.
      rewrite Hd in Hlen. simpl in Hlen. lia.
Qed.

End CompletionMore.


Module SubjectsMore.
Import SpanFacts IndexerQueries IndexedTextFacts OverlapFacts.
Import CompletionMoreFacts.


(** X20. [collectSubjectSet] of the completion engine lists every label
    once, and its labels are exactly the labels of the subject entries
    that the indexer's fallback builds from the same text. *)
Theorem X20_subject_set_matches_fallback (text : string) (m : JsObject.t) (l : string) :
  NoDup (Completion.collectSubjectSet text) ∧
  (l ∈ Completion.collectSubjectSet text ↔
   ∃ e, e ∈ Heuristic.collectSubjectEntries text m ∧ label e = l).
Proof.
  unfold Completion.collectSubjectSet. split; [apply distinct_NoDup|].
  rewrite elem_of_distinct, LintSpec.elem_of_concat.
  unfold Heuristic.collectSubjectEntries. split.
  - intros [(ls & Hl & Hls) _].
    apply list_elem_of_fmap in Hls as (ln & -> & Hln).
    apply list_elem_of_lookup in Hln as [i Hi].
    unfold Completion.subjectOfLine in Hl.
    destruct (Heuristic.skipped (Str.trim ln)) eqn:Es; [by apply elem_of_nil in Hl|].
    destruct (Regex.subjectAt (Str.trim ln)) as [l'|] eqn:E;
      [|by apply elem_of_nil in Hl].
    apply list_elem_of_singleton in Hl as ->.
    eexists (mkEntry l' _). split; [|done].
    apply elem_of_forEachLine. exists i, ln. split; [done|].
    unfold Heuristic.subjectOfLine. rewrite Es, E. apply list_elem_of_here.
  - intros (e & He & <-). split; [|by intros ?%elem_of_nil].
    apply elem_of_forEachLine in He as (i & ln & Hi & He).
    exists (Completion.subjectOfLine ln). split.
    + unfold Heuristic.subjectOfLine in He. unfold Completion.subjectOfLine.
      destruct (Heuristic.skipped (Str.trim ln)); [by apply elem_of_nil in He|].
      destruct (Regex.subjectAt (Str.trim ln)) as [l'|];
        [|by apply elem_of_nil in He].
      apply list_elem_of_singleton in He as ->. apply list_elem_of_here.
    + apply list_elem_of_fmap. exists ln. split; [done|].
      by eapply list_elem_of_lookup_2.
Qed.

End SubjectsMore.


(** * The vocabulary cache: more invariants *)

Module VocabularyMoreFacts.
Import SpanFacts Vocabulary JsMapFacts VocabularyFacts VocabularyQueries.

Lemma keys_set {V} k (v : V) m :
  keys (JsMap.set k v m) = if bool_decide (k ∈ keys m) then keys m else keys m ++ [k].
Proof.
  induction m as [|[k' v'] m IH]; [done|].
  cbn [JsMap.set]. change (keys ((k', v') :: m)) with (k' :: keys m).
  destruct (decide (k = k')) as [->|Hne].
  - rewrite bool_decide_eq_true_2 by (by left). done.
  - change (keys ((k', v') :: JsMap.set k v m)) with (k' :: keys (JsMap.set k v m)).
    rewrite IH. case_bool_decide as Hin.
    + rewrite bool_decide_eq_true_2 by (by right). done.
    + rewrite bool_decide_eq_false_2; [done|].
      intros [?|?]%elem_of_cons; done.
Qed.





Lemma keys_set_NoDup {V} k (v : V) m : NoDup (keys m) → NoDup (keys (JsMap.set k v m)).
Proof.
  intros Hnd. rewrite keys_set. case_bool_decide as Hin; [done|].
  apply NoDup_app. split; [done|]. split; [|apply NoDup_singleton].
  intros x Hx [->|?%elem_of_nil]%elem_of_cons; done.
Qed.


Section WithPackage.
Context `{VocabularyPackage}.

Lemma tokenBacked_step w e w' :
  step w e = Some w' → tokenBacked w → tokenBacked w'.
Proof.
  unfold tokenBacked, pendingFetches, queuedCleanups.
  destruct e as [p|p r|p]; simpl; intros Hs HT q.
  - injection Hs as <-. unfold request.
    destruct (JsMap.has p (cachedVocabs w)); [apply HT|].
    destruct (JsMap.has p (loadingPromises w)) eqn:Hl; [apply HT|].
    destruct (negb _); simpl; rewrite ?filter_app, ?length_app;
      (destruct (decide (p = q)) as [->|Hne];
       [rewrite filter_cons_True by done; simpl; lia|]);
      rewrite has_set_ne by done; intros Hq; specialize (HT q Hq); lia.
  - apply fetchSettles_unfold in Hs as (id & rest & _ & Hperm & ->). simpl.
    rewrite filter_app, length_app. intros Hq. specialize (HT q Hq).
    rewrite Hperm in HT.
    destruct (decide (p = q)) as [->|Hne].
    + rewrite (filter_cons_True (λ x, x = q)) by done. simpl. lia.
    + rewrite filter_cons_False in HT by (simpl; congruence). lia.
  - apply finally_unfold in Hs as (rest & Hperm & ->). simpl.
    destruct (decide (p = q)) as [->|Hne]; [by rewrite has_delete_eq|].
    rewrite has_delete_ne by done. intros Hq. specialize (HT q Hq).
    rewrite Hperm in HT. rewrite filter_cons_False in HT by done. exact HT.
Qed.

Lemma tokenBacked_run es w w' :
  run w es = Some w' → tokenBacked w → tokenBacked w'.
Proof.
  revert w. induction es as [|e es IH]; intros w; simpl.
  - by intros [= <-].
  - destruct (step w e) as [w1|] eqn:Es; [|done].
    intros Hr HT. apply (IH w1 Hr). by eapply tokenBacked_step.
Qed.

(** The cache after the [try] block of the load of [p]. *)
Lemma tryCatch_cache p r w :
  cachedVocabs (fst (tryCatch p r w)) = cachedVocabs w
  ∨ ∃ ns quads,
      JsObject.get p zazukoPrefixes = Some ns ∧ Str.isEmpty ns = false ∧
      cachedVocabs (fst (tryCatch p r w))
      = JsMap.set p (itemsOf p ns quads) (cachedVocabs w).
Proof.
  unfold tryCatch, tryBlock. destruct r as [[quads|]|err]; simpl; try by left.
  destruct (JsObject.get p zazukoPrefixes) as [ns|]; simpl; [|by left].
  destruct (Str.isEmpty ns) eqn:E; simpl; [by left|].
  right. by exists ns, quads.
Qed.

Lemma step_fetchLog w e w' :
  step w e = Some w' →
  fetchLog w' = fetchLog w
  ∨ ∃ p, fetchLog w' = fetchLog w ++ [p] ∧ JsMap.has p (cachedVocabs w) = false
         ∧ inflight w' = inflight w ++ [(p, nextPromise w)].
Proof.
  destruct e as [p|p r|p]; simpl; intros Hs.
  - injection Hs as <-. unfold request.
    destruct (JsMap.has p (cachedVocabs w)) eqn:Hc; [by left|].
    destruct (JsMap.has p (loadingPromises w)); [by left|].
    destruct (negb _); simpl; [by left|]. right. by exists p.
  - apply fetchSettles_unfold in Hs as (id & rest & _ & _ & ->). simpl.
    left. by destruct (tryCatch_frame p r w) as (_ & _ & _ & ? & _).
  - apply finally_unfold in Hs as (rest & _ & ->). by left.
Qed.

Lemma step_cache w e w' :
  step w e = Some w' →
  cachedVocabs w' = cachedVocabs w
  ∨ ∃ p id ns quads,
      (p, id) ∈ inflight w ∧
      JsObject.get p zazukoPrefixes = Some ns ∧ Str.isEmpty ns = false ∧
      cachedVocabs w' = JsMap.set p (itemsOf p ns quads) (cachedVocabs w).
Proof.
  destruct e as [p|p r|p]; simpl; intros Hs.
  - injection Hs as <-. unfold request.
    destruct (JsMap.has p (cachedVocabs w)); [by left|].
    destruct (JsMap.has p (loadingPromises w)); [by left|].
    destruct (negb _); by left.
  - apply fetchSettles_unfold in Hs as (id & rest & _ & Hperm & ->). simpl.
    destruct (tryCatch_cache p r w) as [?|(ns & quads & ? & ? & ?)]; [by left|].
    right. exists p, id, ns, quads. split; [|done].
    rewrite Hperm. by left.
  - apply finally_unfold in Hs as (rest & _ & ->). by left.
Qed.

Lemma cache_kept_step w e w' q items :
  pendingUncached w → step w e = Some w' →
  JsMap.get q (cachedVocabs w) = Some items →
  JsMap.get q (cachedVocabs w') = Some items ∧ fetchesOf q w' = fetchesOf q w.
Proof.
  intros HU Hs Hq.
  assert (Hhas : JsMap.has q (cachedVocabs w) = true)
    by (unfold JsMap.has; by rewrite Hq).
  split.
  - destruct (step_cache w e w' Hs) as [->|(p & id & ns & quads & Hin & _ & _ & ->)];
      [done|].
    destruct (HU p id Hin) as [Hc _].
    rewrite get_set_ne; [done|]. intros ->. congruence.
  - unfold fetchesOf.
    destruct (step_fetchLog w e w' Hs) as [->|(p & -> & Hc & _)]; [done|].
    rewrite filter_app, length_app, filter_cons_False; [simpl; lia|].
    intros ->. congruence.
Qed.

Lemma inflightLogged_step w e w' :
  step w e = Some w' → inflightLogged w → inflightLogged w'.
Proof.
  unfold inflightLogged. intros Hs HL p id Hin.
  assert (Hmono : ∀ x, x ∈ fetchLog w → x ∈ fetchLog w').
  { intros x Hx. destruct (step_fetchLog w e w' Hs) as [->|(p' & -> & _)]; [done|].
    apply elem_of_app. by left. }
  destruct e as [p0|p0 r|p0]; simpl in Hs.
  - destruct (step_fetchLog w (Request p0) w' Hs) as [Hlog|(p' & Hlog & _ & Hfl)].
    + injection Hs as <-. unfold request in Hin, Hlog |- *.
      destruct (JsMap.has p0 (cachedVocabs w)); [by eapply HL|].
      destruct (JsMap.has p0 (loadingPromises w)); [by eapply HL|].
      destruct (negb _); simpl in *; [by eapply HL|].
      exfalso. assert (Hlen := f_equal length Hlog).
      rewrite length_app in Hlen. simpl in Hlen. lia.
    + rewrite Hfl in Hin. rewrite Hlog.
      apply elem_of_app in Hin as [Hin|[= -> ->]%list_elem_of_singleton].
      * apply elem_of_app. left. by eapply HL.
      * apply elem_of_app. right. by left.
  - apply Hmono. apply fetchSettles_unfold in Hs as (id' & rest & _ & Hperm & ->).
    simpl in Hin. apply (HL p id). rewrite Hperm. by right.
  - apply Hmono. apply finally_unfold in Hs as (rest & _ & ->). by eapply HL.
Qed.

Lemma cacheFromFetch_step w e w' :
  step w e = Some w' → inflightLogged w → cacheFromFetch w → cacheFromFetch w'.
Proof.
  unfold cacheFromFetch. intros Hs HL HC p items Hg.
  assert (Hmono : ∀ x, x ∈ fetchLog w → x ∈ fetchLog w').
  { intros x Hx. destruct (step_fetchLog w e w' Hs) as [->|(p' & -> & _)]; [done|].
    apply elem_of_app. by left. }
  destruct (step_cache w e w' Hs) as [Heq|(p' & id & ns & quads & Hin & Hns & He & Heq)];
    rewrite Heq in Hg.
  - destruct (HC p items Hg) as (ns & quads & ? & ? & ? & ?).
    exists ns, quads. repeat split; try done. by apply Hmono.
  - destruct (decide (p' = p)) as [->|Hne].
    + rewrite get_set_eq in Hg. injection Hg as <-.
      exists ns, quads. repeat split; try done. apply Hmono. by eapply HL.
    + rewrite get_set_ne in Hg by done.
      destruct (HC p items Hg) as (ns' & quads' & ? & ? & ? & ?).
      exists ns', quads'. repeat split; try done. by apply Hmono.
Qed.

Lemma fetched_invariants es w w' :
  run w es = Some w' →
  inflightLogged w → cacheFromFetch w →
  inflightLogged w' ∧ cacheFromFetch w'.
Proof.
  revert w. induction es as [|e es IH]; intros w; simpl.
  - by intros [= <-].
  - destruct (step w e) as [w1|] eqn:Es; [|done].
    intros Hr HL HC. apply (IH w1 Hr).
    + by eapply inflightLogged_step.
    + by eapply cacheFromFetch_step.
Qed.

Lemma cache_kept_run es w w' q items :
  singleFlight w → pendingUncached w → run w es = Some w' →
  JsMap.get q (cachedVocabs w) = Some items →
  JsMap.get q (cachedVocabs w') = Some items ∧ fetchesOf q w' = fetchesOf q w.
Proof.
  revert w. induction es as [|e es IH]; intros w HJ HU; simpl.
  - by intros [= <-].
  - destruct (step w e) as [w1|] eqn:Es; [|done]. intros Hr Hq.
    destruct (cache_kept_step w e w1 q items HU Es Hq) as [Hq1 Hf1].
    destruct (IH w1 (singleFlight_step _ _ _ Es HJ)
                 (pendingUncached_step _ _ _ Es HJ HU) Hr Hq1) as [? Hf].
    split; [done|]. by rewrite Hf.
Qed.

End WithPackage.

End VocabularyMoreFacts.


Module VocabularyMore.
Import SpanFacts Vocabulary JsMapFacts VocabularyFacts.
Import VocabularyQueries VocabularyMoreFacts.




(** X22. A cached vocabulary is final: whatever jobs run afterwards, the
    cache keeps the same items for that key and no further fetch is made
    for it. *)
Theorem X22_cached_vocabulary_is_final `{VocabularyPackage}
    (es1 es2 : list Event) (w w' : World) (p : string)
    (items : list Completion.CompletionItem) :
  run init es1 = Some w →
  run w es2 = Some w' →
  JsMap.get p (cachedVocabs w) = Some items →
  JsMap.get p (cachedVocabs w') = Some items ∧ fetchesOf p w' = fetchesOf p w.
Proof.
  intros H1 H2 Hq.
  destruct (reachable_invariants es1 init w H1 singleFlight_init
              pendingUncached_init) as [HJ HU].
  by eapply cache_kept_run.
Qed.

Lemma X22_cached_vocabulary_is_final_witness :
  ∃ w w' items,
    @run Samples.package init MoreSamples.foafLoaded = Some w ∧
    @run Samples.package w [Request "foaf"; Request "foaf"] = Some w' ∧
    JsMap.get "foaf" (cachedVocabs w) = Some items ∧
    JsMap.get "foaf" (cachedVocabs w') = Some items ∧
    fetchesOf "foaf" w' = fetchesOf "foaf" w.
Proof.
  destruct (@run Samples.package init MoreSamples.foafLoaded) as [w|] eqn:E1;
    [|vm_compute in E1; discriminate E1].
  destruct (@run Samples.package w [Request "foaf"; Request "foaf"]) as [w'|] eqn:E2;
    [|simpl in E2; discriminate E2].
  destruct (JsMap.get "foaf" (cachedVocabs w)) as [items|] eqn:E3.
  - exists w, w', items. split; [done|]. split; [done|]. split; [done|].
    exact (@X22_cached_vocabulary_is_final Samples.package MoreSamples.foafLoaded
             [Request "foaf"; Request "foaf"] w w' "foaf" items E1 E2 E3).
  - exfalso. vm_compute in E1. injection E1 as <-. vm_compute in E3. discriminate E3.
Defined.

(** X23. In every reachable state a key is marked as loading exactly when
    a fetch for it has not settled or its cleanup callback is queued: the
    mark is never left behind without a job that removes it. *)
Theorem X23_loading_mark_has_pending_job `{VocabularyPackage}
    (es : list Event) (w : World) (p : string) :
  run init es = Some w →
  (JsMap.has p (loadingPromises w) = true ↔
   (0 < pendingFetches p w + queuedCleanups p w)%nat).
Proof.
  intros Hr.
  destruct (reachable_invariants es init w Hr singleFlight_init
              pendingUncached_init) as [HJ _].
  assert (HT : tokenBacked w).
  { apply (tokenBacked_run es init w Hr). intros q Hq. done. }
  split; [apply HT | apply (HJ p)].
Qed.

Lemma X23_loading_mark_has_pending_job_witness :
  let w := @request Samples.package "foaf" init in
  JsMap.has "foaf" (loadingPromises w) = true ↔
  (0 < pendingFetches "foaf" w + queuedCleanups "foaf" w)%nat.
Proof.
  exact (@X23_loading_mark_has_pending_job Samples.package [Request "foaf"]
           (@request Samples.package "foaf" init) "foaf" eq_refl).
Defined.

(** X24. In every reachable state each cache entry belongs to a key of
    the package with a non-empty namespace, holds exactly the items built
    from some dataset for that key and namespace, and a fetch for the key
    was made before. *)
Theorem X24_cache_holds_fetched_items `{VocabularyPackage}
    (es : list Event) (w : World) (p : string)
    (items : list Completion.CompletionItem) :
  run init es = Some w →
  JsMap.get p (cachedVocabs w) = Some items →
  ∃ ns quads,
    JsObject.get p zazukoPrefixes = Some ns ∧ Str.isEmpty ns = false ∧
    items = itemsOf p ns quads ∧ p ∈ fetchLog w.
Proof.
  intros Hr Hg.
  assert (HL : inflightLogged init) by (by intros q id ?%elem_of_nil).
  assert (HC : cacheFromFetch init) by (by intros q its ?).
  destruct (fetched_invariants es init w Hr HL HC) as [_ HC'].
  by apply HC'.
Qed.

Lemma X24_cache_holds_fetched_items_witness :
  ∃ ns quads,
    JsObject.get "foaf" (@zazukoPrefixes Samples.package) = Some ns ∧
    Str.isEmpty ns = false ∧
    @itemsOf "foaf" "http://xmlns.com/foaf/0.1/" [MoreSamples.personQuad]
    = itemsOf "foaf" ns quads ∧
    "foaf" ∈ ["foaf"].
Proof.
  pose proof (@X24_cache_holds_fetched_items Samples.package MoreSamples.foafLoaded
                (mkWorld [("foaf", itemsOf "foaf" "http://xmlns.com/foaf/0.1/"
                                     [MoreSamples.personQuad])]
                         [] 1 [] [] ["foaf"] [(0%nat, Fulfilled)] [])
                "foaf"
                (itemsOf "foaf" "http://xmlns.com/foaf/0.1/" [MoreSamples.personQuad]))
    as Hx.
  apply Hx; vm_compute; reflexivity.
Defined.

End VocabularyMore.


(** * Diagnostics: the findings about declarations *)

Module LintMoreFacts.
Import Lint LintFacts LintQueries.

Lemma filter_none {A} (P : A → Prop) `{∀ x, Decision (P x)} (l : list A) :
  (∀ x, x ∈ l → ¬ P x) → filter P l = [].
Proof.
  induction l as [|x l IH]; intros Hn; [done|].
  rewrite filter_cons_False by (apply Hn; by left).
  apply IH. intros y Hy. apply Hn. by right.
Qed.

Lemma default_bump k k' (m : gmap string Z) :
  default 0 (bump k m !! k') = default 0 (m !! k') + (if decide (k = k') then 1 else 0).
Proof.
  unfold bump. destruct (decide (k = k')) as [->|Hne].
  - rewrite lookup_insert_eq. simpl. lia.
  - rewrite lookup_insert_ne by done. lia.
Qed.

Lemma occurrences_cons k x l :
  occurrences k (x :: l) = occurrences k l + (if decide (x = k) then 1 else 0).
Proof.
  unfold occurrences. rewrite filter_cons.
  destruct (decide (x = k)); simpl; lia.
Qed.


Lemma occurrences_zero k l : occurrences k l = 0 ↔ k ∉ l.
Proof.
  induction l as [|x l IH].
  - split; [by intros _ ?%elem_of_nil | done].
  - rewrite occurrences_cons, not_elem_of_cons.
    assert (0 ≤ occurrences k l) by (unfold occurrences; lia).
    destruct (decide (x = k)) as [->|Hne].
    + split; [intros ?; lia | by intros [? _]].
    + rewrite Z.add_0_r, IH. split; [by split | by intros [_ ?]].
Qed.

Lemma foldl_lintDuplicate_repeated acc seen es :
  (∀ k, default 0 (fst acc !! k) = occurrences k seen) →
  snd (foldl lintDuplicate acc es)
  = snd acc ++ (duplicatePrefix <$> repeated seen es).
Proof.
  revert acc seen. induction es as [|e es IH]; intros acc seen Hc; simpl.
  - by rewrite app_nil_r.
  - set (k := normalizePrefix (prefix e)).
    rewrite (IH (lintDuplicate acc e) (k :: seen)).
    + unfold lintDuplicate. fold k. simpl. rewrite default_bump, Hc.
      rewrite decide_True by done.
      assert (0 ≤ occurrences k seen) by (unfold occurrences; lia).
      rewrite fmap_app. case_bool_decide as Hin.
      * assert (occurrences k seen ≠ 0) by (by rewrite occurrences_zero; intros ?).
        rewrite (proj2 (Z.ltb_lt _ _)) by lia. by rewrite <- app_assoc.
      * apply occurrences_zero in Hin. rewrite Hin. done.
    + intros k'. unfold lintDuplicate. fold k. simpl.
      rewrite default_bump, Hc, occurrences_cons. done.
Qed.

Lemma foldl_lintUnused_filter usage ds es :
  foldl (lintUnused usage) ds es
  = ds ++ (unusedPrefix <$>
             filter (fun e => default 0 (usage !! normalizePrefix (prefix e)) = 0) es).
Proof.
  revert ds. induction es as [|e es IH]; intros ds; simpl.
  - by rewrite app_nil_r.
  - rewrite IH, filter_cons. unfold lintUnused.
    destruct (decide (default 0 (usage !! normalizePrefix (prefix e)) = 0)) as [Hz|Hnz].
    + rewrite (proj2 (Z.eqb_eq _ _) Hz). simpl. by rewrite <- app_assoc.
    + by rewrite (proj2 (Z.eqb_neq _ _) Hnz).
Qed.

Section WithCaches.
Context `{VocabularyPackage}.
Variable validTermsCache : gmap string (gset string).
Variable namespaceEntries : list NamespaceEntry.

Local Abbreviation lintUse := (lintUse validTermsCache namespaceEntries).
Local Abbreviation lintLine := (lintLine validTermsCache namespaceEntries).
Local Abbreviation lintLines := (lintLines validTermsCache namespaceEntries).





End WithCaches.

(** The value a fold of [set] calls leaves under a key. *)
Lemma get_set_fold {A} (key value : A → string) (l : list A) (m : JsObject.t) k :
  JsObject.get k (foldl (fun m x => JsObject.set (key x) (value x) m) m l)
  = match last (filter (fun x => key x = k) l) with
    | Some x => Some (value x)
    | None => JsObject.get k m
    end.
Proof.
  assert (Hset_eq : ∀ k v o, JsObject.get k (JsObject.set k v o) = Some v).
  { clear. intros k v o. induction o as [|[k' v'] o IH]; simpl.
    - by rewrite decide_True.
    - destruct (decide (k = k')) as [->|Hne]; simpl.
      + by rewrite decide_True.
      + by rewrite decide_False. }
  assert (Hset_ne : ∀ k k' v o, k ≠ k' →
            JsObject.get k' (JsObject.set k v o) = JsObject.get k' o).
  { clear. intros k k' v o Hne. induction o as [|[k0 v0] o IH]; simpl.
    - by rewrite decide_False by congruence.
    - destruct (decide (k = k0)) as [->|Hne0]; simpl.
      + by rewrite !decide_False by congruence.
      + destruct (decide (k' = k0)); [done | exact IH]. }
  induction l as [|x l IH] using rev_ind; [done|].
  rewrite foldl_app, filter_app. simpl. rewrite filter_cons, filter_nil.
  destruct (decide (key x = k)) as [<-|Hne].
  - by rewrite last_snoc, Hset_eq.
  - rewrite app_nil_r, Hset_ne by done. exact IH.
Qed.

End LintMoreFacts.


Module LintMore.
Import Lint LintFacts LintQueries LintMoreFacts.

Lemma object_set_as_map k v (o : JsObject.t) : JsObject.set k v o = JsMap.set k v o.
Proof.
  induction o as [|[k' v'] o IH]; [done|]. simpl.
  destruct (decide (k = k')); [done | by rewrite IH].
Qed.

Lemma namespaceMap_NoDup ps :
  NoDup (VocabularyQueries.keys (Indexer.collectNamespaceMap ps)).
Proof.
  unfold Indexer.collectNamespaceMap.
  induction ps as [|p ps IH] using rev_ind; [constructor|].
  rewrite foldl_app. simpl. rewrite object_set_as_map.
  by apply VocabularyMoreFacts.keys_set_NoDup.
Qed.

Lemma last_filter_key (m : list (string * string)) k :
  NoDup (VocabularyQueries.keys m) →
  last (filter (fun kv : string * string => fst kv = k) m)
  = (fun v => (k, v)) <$> JsObject.get k m.
Proof.
  induction m as [|[k' v'] m IH]; [done|].
  change (VocabularyQueries.keys ((k', v') :: m))
    with (k' :: VocabularyQueries.keys m).
  intros [Hnotin Hnd]%NoDup_cons. rewrite filter_cons. simpl.
  destruct (decide (k' = k)) as [->|Hne].
  - rewrite decide_True by done. simpl.
    assert (Hnone : filter (fun kv : string * string => fst kv = k) m = []).
    { apply filter_none. intros [k0 v0] Hin Hk. simpl in Hk.
      subst k0. apply Hnotin. unfold VocabularyQueries.keys.
      apply list_elem_of_fmap. by exists (k, v0). }
    by rewrite Hnone.
  - rewrite decide_False by congruence. by apply IH.
Qed.

Lemma repeated_elem seen es e : e ∈ repeated seen es → e ∈ es.
Proof.
  revert seen. induction es as [|x es IH]; intros seen; simpl.
  - by intros ?%elem_of_nil.
  - intros [Hin|Hin]%elem_of_app.
    + case_bool_decide; [|by apply elem_of_nil in Hin].
      apply list_elem_of_singleton in Hin as ->. by left.
    + right. by eapply IH.
Qed.

(** The three passes of [basicDiagnostics], one after the other. *)
Lemma passes_split `{VocabularyPackage}
    (validTermsCache : gmap string (gset string))
    (namespaceEntries : list NamespaceEntry) (text : string) :
  let st := lintLines validTermsCache namespaceEntries 0 (Str.splitLines text)
              (mkState 0 0 ∅ []) in
  basicDiagnosticsOf validTermsCache namespaceEntries text
  = linesFindings validTermsCache namespaceEntries (0, 0) 0 (Str.splitLines text)
    ++ (duplicatePrefix <$> repeated [] namespaceEntries)
    ++ (unusedPrefix <$>
          filter (fun e => default 0 (prefixUsage st !! normalizePrefix (prefix e)) = 0)
                 namespaceEntries).
Proof.
  intros st. unfold basicDiagnosticsOf. fold st.
  rewrite foldl_lintUnused_filter.
  rewrite (foldl_lintDuplicate_repeated _ [])
    by (intros k; simpl; by rewrite lookup_empty).
  simpl. unfold st at 1. rewrite lintLines_diagnostics. simpl.
  by rewrite <- app_assoc.
Qed.


(** X26. For every key other than the lone colon, the prefix map of the
    diagnostics gives the IRI of the last declaration of that prefix in
    the document, and the built-in default only when the document does
    not declare it. *)
Theorem X26_prefix_map_precedence (namespaceEntries : list NamespaceEntry) (k : string) :
  k ≠ ":" →
  JsObject.get k (buildPrefixMap namespaceEntries)
  = match lastDeclared k namespaceEntries with
    | Some e => Some (iri e)
    | None => JsObject.get k defaultPrefixes
    end.
Proof.
  intros Hk. unfold buildPrefixMap, lastDeclared.
  rewrite (get_set_fold (fun kv => normalizePrefix (fst kv)) snd).
  assert (Hnorm : ∀ p, normalizePrefix p = k ↔ p = k ∧ k ≠ EmptyString).
  { intros p. unfold normalizePrefix. destruct p as [|c p]; simpl.
    - split; [by intros <- | by intros [<- ?]].
    - split; [by intros <- | by intros [? _]]. }
  destruct (decide (k = EmptyString)) as [->|Hne].
  - rewrite !filter_none; [done | |];
      intros x _ Hx; apply Hnorm in Hx as [_ ?]; done.
  - rewrite (list_filter_iff _ (fun kv : string * string => fst kv = k))
      by (intros kv; rewrite Hnorm; tauto).
    rewrite (list_filter_iff (fun e => normalizePrefix (prefix e) = k)
                             (fun e => prefix e = k))
      by (intros e; rewrite Hnorm; tauto).
    rewrite last_filter_key by apply namespaceMap_NoDup.
    unfold Indexer.collectNamespaceMap. rewrite (get_set_fold prefix iri).
    by destruct (last _).
Qed.

Lemma X26_prefix_map_precedence_witness :
  JsObject.get "foaf"
    (buildPrefixMap [mkNamespaceEntry "foaf" "http://example.org/a#" (lineRange 0 8 12);
                     mkNamespaceEntry "foaf" "http://example.org/b#" (lineRange 1 8 12)])
  = Some "http://example.org/b#".
Proof.
  apply (X26_prefix_map_precedence
           [mkNamespaceEntry "foaf" "http://example.org/a#" (lineRange 0 8 12);
            mkNamespaceEntry "foaf" "http://example.org/b#" (lineRange 1 8 12)]
           "foaf").
  intros Heq. discriminate Heq.
Defined.

(** X27. Every diagnostic names the server as its source and is a warning
    or an information, never an error.  An information is always an
    unused-prefix note.  Every diagnostic sits either on one existing line
    of the text or at the range of a declaration. *)
Theorem X27_diagnostics_attributed `{VocabularyPackage}
    (validTermsCache : gmap string (gset string))
    (namespaceEntries : list NamespaceEntry) (text : string) (d : Diagnostic) :
  d ∈ basicDiagnosticsOf validTermsCache namespaceEntries text →
  source d = "turtle-node-lsp" ∧
  (severity d = Warning ∨ ∃ e, e ∈ namespaceEntries ∧ d = unusedPrefix e) ∧
  ((∃ i : nat, (i < length (Str.splitLines text))%nat ∧
               line (range_start (drange d)) = Z.of_nat i ∧
               line (range_end (drange d)) = Z.of_nat i)
   ∨ ∃ e, e ∈ namespaceEntries ∧ drange d = nrange e).
Proof.
  rewrite passes_split. intros [Hd|[Hd|Hd]%elem_of_app]%elem_of_app.
  - apply elem_of_linesFindings in Hd as (i & ln & Hi & Hd).
    assert (Hline : ∃ i' : nat, (i' < length (Str.splitLines text))%nat ∧
                      0 + Z.of_nat i = Z.of_nat i' ∧ 0 + Z.of_nat i = Z.of_nat i').
    { exists i. split; [by eapply lookup_lt_Some | lia]. }
    apply LintSpec.elem_of_lineFindings in Hd as [_ [[-> _]|(m & _ & Hd)]].
    + split; [done|]. split; [by left | by left].
    + apply LintSpec.useFindings_elem in Hd as [[-> _]| ->];
        (split; [done|]); (split; [by left | by left]).
  - apply list_elem_of_fmap in Hd as (e & -> & He%repeated_elem).
    split; [done|]. split; [by left|]. right. by exists e.
  - apply list_elem_of_fmap in Hd as (e & -> & He).
    apply list_elem_of_filter in He as [_ He].
    split; [done|]. split; [right; by exists e|]. right. by exists e.
Qed.

Lemma X27_diagnostics_attributed_witness :
  let d := missingTerminator 1 "ex:Bob foaf:knows ex:Alice" in
  source d = "turtle-node-lsp" ∧
  (severity d = Warning ∨ ∃ e, e ∈ Heuristic.collectNamespaceEntries Samples.scenario1
                               ∧ d = unusedPrefix e) ∧
  ((∃ i : nat, (i < length (Str.splitLines Samples.scenario1))%nat ∧
               line (range_start (drange d)) = Z.of_nat i ∧
               line (range_end (drange d)) = Z.of_nat i)
   ∨ ∃ e, e ∈ Heuristic.collectNamespaceEntries Samples.scenario1
          ∧ drange d = nrange e).
Proof.
  apply (@X27_diagnostics_attributed Samples.package ∅
           (Heuristic.collectNamespaceEntries Samples.scenario1) Samples.scenario1).
  vm_compute. apply list_elem_of_here.
Defined.

End LintMore.


(** * Symbols in document order; unknown terms *)

Module OrderFacts.
Import IndexerQueries.

Lemma scanAll_skip_ge matchAt skip pos s :
  Forall (fun m => pos + Z.of_nat skip <= fst m) (Regex.scanAll matchAt skip pos s).
Proof.
  revert skip pos. induction s as [|c s IH]; intros skip pos; [constructor|].
  destruct skip as [|k].
  - eapply Forall_impl; [apply ScanFacts.scanAll_ge|]. simpl. intros; lia.
  - cbn [Regex.scanAll]. eapply Forall_impl; [apply IH|]. simpl. intros; lia.
Qed.

Lemma scanAll_sorted matchAt skip pos s :
  StronglySorted (fun a b => fst a + Str.len (snd a) <= fst b)
                 (Regex.scanAll matchAt skip pos s).
Proof.
  revert skip pos. induction s as [|c s IH]; intros skip pos; [constructor|].
  cbn [Regex.scanAll]. destruct skip; [|apply IH].
  destruct (matchAt _) as [m|]; [|apply IH].
  constructor; [apply IH|].
  eapply Forall_impl; [apply scanAll_skip_ge|]. simpl. unfold Str.len. intros; lia.
Qed.

Lemma sorted_fmap {A B} (R : A → A → Prop) (R' : B → B → Prop) (f : A → B) l :
  (∀ a b, R a b → R' (f a) (f b)) →
  StronglySorted R l → StronglySorted R' (f <$> l).
Proof.
  intros Hf. induction 1 as [|x l Hl IH Hx]; [constructor|].
  rewrite fmap_cons. constructor; [exact IH|].
  apply Forall_fmap. eapply Forall_impl; [exact Hx|]. intros y. apply Hf.
Qed.

Lemma sorted_app {A} (R : A → A → Prop) l1 l2 :
  StronglySorted R l1 → StronglySorted R l2 →
  (∀ a b, a ∈ l1 → b ∈ l2 → R a b) →
  StronglySorted R (l1 ++ l2).
Proof.
  intros H1 H2 Hc. induction H1 as [|x l Hl IH Hx]; [done|].
  simpl. constructor.
  - apply IH. intros a b Ha. apply Hc. by right.
  - apply Forall_app. split; [done|].
    apply Forall_forall. intros b Hb. apply Hc; [by left | done].
Qed.

Lemma symbolsOfLine_end idx ln :
  Forall (fun e => line (range_end (erange e)) = idx)
         (Indexer.symbolsOfLine idx ln).
Proof.
  unfold Indexer.symbolsOfLine. apply Forall_fmap, Forall_forall.
  intros m _. done.
Qed.

Lemma symbols_sorted idx lines :
  StronglySorted (fun e1 e2 => before (erange e1) (erange e2))
                 (Str.forEachLine Indexer.symbolsOfLine idx lines).
Proof.
  revert idx. induction lines as [|ln lines IH]; intros idx; simpl; [constructor|].
  apply sorted_app; [|apply IH|].
  - unfold Indexer.symbolsOfLine.
    eapply sorted_fmap; [|apply scanAll_sorted].
    intros a b Hab. right. simpl. split; [done | exact Hab].
  - intros a b Ha Hb. left.
    pose proof (symbolsOfLine_end idx ln) as H1.
    pose proof (ScanFacts.forEachLine_symbols_ge (idx + 1) lines) as H2.
    rewrite Forall_forall in H1, H2. rewrite (H1 a Ha).
    specialize (H2 b Hb). simpl in H2. lia.
Qed.

End OrderFacts.

Module OrderMore.
Import IndexerQueries OrderFacts Lint LintFacts LintQueries LintMoreFacts.

(** X28. The symbol entries of a text are listed in document order and
    never overlap: of any two entries, the earlier one ends on an earlier
    line than the later one starts, or on the same line at or before its
    start column. *)
Theorem X28_symbols_ordered_disjoint (text : string) (i j : nat) (e1 e2 : Entry) :
  Indexer.collectSymbolEntries text !! i = Some e1 →
  Indexer.collectSymbolEntries text !! j = Some e2 →
  (i < j)%nat →
  before (erange e1) (erange e2).
Proof.
  unfold Indexer.collectSymbolEntries.
  generalize (symbols_sorted 0 (Str.splitLines text)).
  generalize (Str.forEachLine Indexer.symbolsOfLine 0 (Str.splitLines text)).
  intros l Hs. revert i j.
  induction Hs as [|x l Hl IH Hx]; intros i j Hi Hj Hlt; [done|].
  destruct i as [|i]; destruct j as [|j]; simpl in *; try lia.
  - injection Hi as ->. rewrite Forall_forall in Hx.
    apply Hx. by eapply list_elem_of_lookup_2.
  - eapply IH; eauto. lia.
Qed.

Lemma X28_symbols_ordered_disjoint_witness :
  before (lineRange 0 0 6) (lineRange 0 7 17).
Proof.
  exact (X28_symbols_ordered_disjoint Samples.bobKnows 0 1
           (mkEntry "ex:Bob" (lineRange 0 0 6))
           (mkEntry "foaf:knows" (lineRange 0 7 17))
           eq_refl eq_refl ltac:(lia)).
Defined.

(** X29. A warning about a term that a vocabulary does not define is
    only ever reported for a use on a processed line whose prefix
    resolves in the prefix map, is a key of the vocabulary package, and
    has its terms in the cache of valid terms, without the local name
    among them.  While that cache is empty no such warning is made. *)
Theorem X29_unknown_term_needs_cached_terms `{VocabularyPackage}
    (validTermsCache : gmap string (gset string))
    (namespaceEntries : list NamespaceEntry) (text : string) (d : Diagnostic) :
  d ∈ basicDiagnosticsOf validTermsCache namespaceEntries text →
  String.prefix "Term '" (message d) = true →
  ∃ (i : nat) ln m terms,
    Str.splitLines text !! i = Some ln ∧
    Heuristic.skipped (Str.trim ln) = false ∧
    m ∈ usesOf ln ∧
    d = unknownTerm (Z.of_nat i) ln m ∧
    validTermsCache !! (fst (Regex.useGroups m)) = Some terms ∧
    (snd (Regex.useGroups m) ∉ terms) ∧
    JsObject.truthy (fst (Regex.useGroups m)) zazukoPrefixes = true ∧
    JsObject.truthy (normalizePrefix (fst (Regex.useGroups m)))
                    (buildPrefixMap namespaceEntries) = true.
Proof.
  intros Hd Hmsg.
  destruct (basicDiagnosticsOf_split validTermsCache namespaceEntries text)
    as (decls & Heq & Hdecls).
  rewrite Heq in Hd. apply elem_of_app in Hd as [Hd|Hd].
  2:{ rewrite Forall_forall in Hdecls.
      destruct (Hdecls d Hd) as [e [-> | ->]]; simpl in Hmsg; discriminate Hmsg. }
  apply elem_of_linesFindings in Hd as (i & ln & Hi & Hd).
  apply LintSpec.elem_of_lineFindings in Hd as [Hsk [[-> _]|(m & Hm & Hd)]];
    [simpl in Hmsg; discriminate Hmsg|].
  exists i, ln, m.
  unfold useFindings in Hd.
  destruct (Regex.useGroups m) as [pref suffix] eqn:Eg.
  apply elem_of_app in Hd as [Hd|Hd].
  { case_bool_decide; [by apply elem_of_nil in Hd|].
    apply list_elem_of_singleton in Hd as ->. simpl in Hmsg. discriminate Hmsg. }
  destruct (JsObject.truthy (normalizePrefix pref) _) eqn:E1;
    [|by apply elem_of_nil in Hd].
  destruct (JsObject.truthy pref zazukoPrefixes) eqn:E2;
    [|by apply elem_of_nil in Hd].
  simpl in Hd. destruct (validTermsCache !! pref) as [terms|] eqn:E3;
    [|by apply elem_of_nil in Hd].
  case_bool_decide as Hin; [by apply elem_of_nil in Hd|].
  apply list_elem_of_singleton in Hd as ->.
  exists terms. simpl. rewrite Z.add_0_l. done.
Qed.

Lemma X29_unknown_term_needs_cached_terms_witness :
  let cache : gmap string (gset string) := {[ "foaf" := {[ "knows" ]} ]} in
  let text := "ex:Bob foaf:knowz ex:Alice ." in
  let d := unknownTerm 0 text "foaf:knowz" in
  ∃ (i : nat) ln m terms,
    Str.splitLines text !! i = Some ln ∧
    Heuristic.skipped (Str.trim ln) = false ∧
    m ∈ usesOf ln ∧
    d = unknownTerm (Z.of_nat i) ln m ∧
    cache !! (fst (Regex.useGroups m)) = Some terms ∧
    (snd (Regex.useGroups m) ∉ terms) ∧
    JsObject.truthy (fst (Regex.useGroups m)) (@zazukoPrefixes Samples.package) = true ∧
    JsObject.truthy (normalizePrefix (fst (Regex.useGroups m)))
                    (buildPrefixMap []) = true.
Proof.
  intros cache text d.
  apply (@X29_unknown_term_needs_cached_terms Samples.package cache [] text d).
  - unfold d, text, cache. apply (bool_decide_unpack _). vm_compute. exact I.
  - reflexivity.
Defined.

End OrderMore.


(** * On-type formatting *)

Module FormattingMore.
Import SpanFacts Formatting.

Lemma stripComment_before_line_feed body :
  Regex.stripComment (body +:+ String Chars.LF EmptyString)
  = body +:+ String Chars.LF EmptyString.
Proof.
  induction body as [|c body IH]; [done|].
  rewrite app_cons. cbn [Regex.stripComment].
  assert (Hall : Str.all (fun x => negb (Chars.isLineTerminator x))
                         (body +:+ String Chars.LF EmptyString) = false).
  { clear. induction body as [|x body IH]; [done|].
    rewrite app_cons. simpl. rewrite IH. apply andb_false_r. }
  rewrite Hall, andb_false_r. by rewrite IH.
Qed.

(** X30. The on-type formatting handler answers with at most one edit,
    only for an open document and a line other than the first; the edit
    starts at column 0 of the cursor line, and its text is white space
    that starts the text of the previous line, or empty; it is empty when
    that text, cleaned, ends with a full stop.  When the text of the
    previous line ends with its line feed, the cleaning removes no
    comment from it. *)
Theorem X30_on_type_formatting_indent `{TextDocumentApi}
    (documents : gmap string TextDocument) (u : string) (position : Position)
    (insertSpaces : bool) (tabSize : Z) (ed : Navigation.TextEdit) :
  ed ∈ onDocumentOnTypeFormatting documents u position insertSpaces tabSize →
  onDocumentOnTypeFormatting documents u position insertSpaces tabSize = [ed] ∧
  ∃ doc,
    documents !! u = Some doc ∧ line position ≠ 0 ∧
    let prev := getTextIn doc (prevLineRange position) in
    range_start (Navigation.trange ed) = mkPosition (line position) 0 ∧
    line (range_end (Navigation.trange ed)) = line position ∧
    Str.all Chars.isSpace (Navigation.newText ed) = true ∧
    String.prefix (Navigation.newText ed) prev = true ∧
    (Str.endsWith "." (cleanPrevLine prev) = true →
     Navigation.newText ed = EmptyString) ∧
    (∀ body, prev = body +:+ String Chars.LF EmptyString →
             cleanPrevLine prev = Str.trimEnd prev).
Proof.
  unfold onDocumentOnTypeFormatting.
  destruct (documents !! u) as [doc|]; [|by intros ?%elem_of_nil].
  destruct (line position =? 0) eqn:El; [by intros ?%elem_of_nil|].
  intros ->%list_elem_of_singleton. split; [done|].
  exists doc. split; [done|]. split; [by apply Z.eqb_neq|]. simpl.
  set (prev := getTextIn doc (prevLineRange position)).
  split; [done|]. split; [done|].
  unfold newIndent.
  destruct (Str.span Chars.isSpace prev) as [ws rest] eqn:Es.
  apply span_spec in Es as (Hprev & Hws & _).
  split; [|split; [|split]].
  - by destruct (Str.endsWith _ _).
  - destruct (Str.endsWith _ _); [by destruct prev|].
    simpl. rewrite Hprev. apply prefix_append.
  - by intros ->.
  - intros body Hb. unfold cleanPrevLine.
    by rewrite Hb, stripComment_before_line_feed.
Qed.

Lemma X30_on_type_formatting_indent_witness :
  let ed := Navigation.mkTextEdit (lineRange 1 0 2) "  " in
  @onDocumentOnTypeFormatting PlainDocument.api MoreSamples.commentedOpen
    Samples.docA (mkPosition 1 0) true 2 = [ed] ∧
  ∃ doc,
    MoreSamples.commentedOpen !! Samples.docA = Some doc ∧ 1 ≠ 0 ∧
    let prev := PlainDocument.getTextIn doc (prevLineRange (mkPosition 1 0)) in
    range_start (Navigation.trange ed) = mkPosition 1 0 ∧
    line (range_end (Navigation.trange ed)) = 1 ∧
    Str.all Chars.isSpace (Navigation.newText ed) = true ∧
    String.prefix (Navigation.newText ed) prev = true ∧
    (Str.endsWith "." (cleanPrevLine prev) = true →
     Navigation.newText ed = EmptyString) ∧
    (∀ body, prev = body +:+ String Chars.LF EmptyString →
             cleanPrevLine prev = Str.trimEnd prev).
Proof.
  apply (@X30_on_type_formatting_indent PlainDocument.api MoreSamples.commentedOpen
           Samples.docA (mkPosition 1 0) true 2
           (Navigation.mkTextEdit (lineRange 1 0 2) "  ")).
  apply (bool_decide_unpack _). vm_compute. exact I.
Defined.

End FormattingMore.
